(** * qsim: gate fuser, runner and AVX state space

    A shallow embedding of [lib/fuser_basic.h], [lib/run_qsim.h] and
    [lib/statespace_avx.h], with the properties of the specification that
    concern them.

    Conventions of the embedding.
    - [unsigned] and [std::size_t] values that only count or index (gate
      times, qubit numbers, cursors into vectors) are [nat]; the code never
      subtracts them and the sizes involved are far below [2^32].
    - A [std::vector] is a [list]; [v[i]] is the lookup [v !! i], and an
      out-of-range access, which is undefined behaviour in C++, makes the
      embedded function return [None].
    - A [const Gate*] into the caller's gate vector is a [GatePtr]: the
      position of the gate in that vector together with the (immutable) gate
      found there.  Pointer equality is equality of positions.
    - [IO::errorf] appends its message to a log that is returned with the
      result. *)

From Stdlib Require Import ZArith QArith Reals Lra Lia String List Permutation.
From Stdlib Require SpecFloat.
From stdpp Require Import base option list gmap.

Local Open Scope nat_scope.

(** ** Gates ([gate.h], [fuser.h]) *)

(** Modelled from the spec: [gate.h] is not part of the sources at hand.  The
    fuser reads the fields [kind], [time], [num_qubits], [qubits] and
    [unfusible] of a gate and only compares [kind] with [gate::kMeasurement];
    the matrix and the parameters are never touched by the code embedded
    here. *)
Inductive GateKind : Type :=
  | kGate (id : nat)
  | kMeasurement.

Definition is_measurement (k : GateKind) : bool :=
  match k with kMeasurement => true | kGate _ => false end.

Record Gate : Type := mkGate {
  kind : GateKind;
  time : nat;
  num_qubits : nat;
  qubits : list nat;
  unfusible : bool
}.

Record GatePtr : Type := mkPtr {
  addr : nat;
  pointee : Gate
}.

(** Modelled from the spec: [fuser.h] is not part of the sources at hand.  The
    fields are those of the aggregate initialisers in [FuseGates]:
    [{kind, time, num_qubits, qubits, anchor, members}]. *)
Record GateFused : Type := mkFused {
  fkind : GateKind;
  ftime : nat;
  fnum_qubits : nat;
  fqubits : list nat;
  pmaster : GatePtr;
  fgates : list GatePtr
}.

(** The addresses of the gates of a vector, [&gates[0]], [&gates[1]], ... *)
Definition pointers (gates : list Gate) : list GatePtr :=
  imap mkPtr gates.

Module BasicGateFuser.

(** *** Private helpers *)

(** [while (k < wl.size() && wl[k]->num_qubits == 1 && !wl[k]->unfusible)
      gates.push_back(wl[k++]);]
    The loop walks the part of [wl] that starts at [k]. *)
Fixpoint advance_from (rest : list GatePtr) (k : nat) (gates : list GatePtr)
  : nat * list GatePtr :=
  match rest with
  | [] => (k, gates)
  | p :: rest' =>
      if (num_qubits (pointee p) =? 1) && negb (unfusible (pointee p))
      then advance_from rest' (S k) (gates ++ [p])
      else (k, gates)
  end.

Definition Advance (k : nat) (wl : list GatePtr) (gates : list GatePtr)
  : nat * list GatePtr :=
  advance_from (drop k wl) k gates.

(** [k >= wl.size() || wl[k]->time > t] *)
Definition Done (k t : nat) (wl : list GatePtr) : bool :=
  match wl !! k with
  | None => true
  | Some p => t <? time (pointee p)
  end.

(** [k1 < wl1.size() && k2 < wl2.size() && wl1[k1] == wl2[k2]] *)
Definition NextGate (k1 : nat) (wl1 : list GatePtr) (k2 : nat) (wl2 : list GatePtr)
  : bool :=
  match wl1 !! k1, wl2 !! k2 with
  | Some p1, Some p2 => addr p1 =? addr p2
  | _, _ => false
  end.

(** The body of the loop over the gates in [MergeWithMeasurementTimes] keeps
    [last] as the part of [times] not yet consumed.
    [[
      while (last < times.size() && times[last] <= gate.time) {
        unsigned prev = times[last++];
        times2.push_back(prev);
        while (last < times.size() && times[last] <= prev) ++last;
      }
    ]] *)
Fixpoint merge_splits (gtime : nat) (times times2 : list nat) {struct times}
  : list nat * list nat :=
  match times with
  | [] => (times2, [])
  | prev :: times' =>
      if prev <=? gtime then
        (fix skip (l : list nat) : list nat * list nat :=
           match l with
           | [] => (times2 ++ [prev], [])
           | u :: l' =>
               if u <=? prev then skip l'
               else merge_splits gtime l (times2 ++ [prev])
           end) times'
      else (times2, times)
  end.

Definition merge_step (st : list nat * list nat) (gate : Gate)
  : list nat * list nat :=
  let '(times2, times) := st in
  let times2 :=
    if is_measurement (kind gate) &&
       match last times2 with None => true | Some b => b <? time gate end
    then times2 ++ [time gate] else times2 in
  match times with
  | t :: _ =>
      if t <? time gate then merge_splits (time gate) times times2
      else (times2, times)
  | [] => (times2, times)
  end.

Definition MergeWithMeasurementTimes (gates : list Gate) (times : list nat)
  : option (list nat) :=
  let times2 := fst (foldl merge_step ([], times) gates) in
  glast ← last gates;
  Some (if match last times2 with None => true | Some b => b <? time glast end
        then times2 ++ [time glast] else times2).

(** *** The window loop: filling [gates_seq] and [gates_lat] *)

Record Lattice : Type := mkLattice {
  measurement_gates : gmap nat (list GatePtr);
  gates_seq : list GatePtr;
  gates_lat : list (list GatePtr)
}.

(** [gates_lat[q].push_back(&gate)] *)
Definition lat_push (q : nat) (p : GatePtr) (lat : list (list GatePtr))
  : option (list (list GatePtr)) :=
  wl ← lat !! q;
  Some (<[q := wl ++ [p]]> lat).

(** The classification of one gate of the window. *)
Definition classify (p : GatePtr) (L : Lattice) : option Lattice :=
  let gate := pointee p in
  if is_measurement (kind gate) then
    let mea_gates_at_time := measurement_gates L !!! time gate in
    let seq :=
      if length mea_gates_at_time =? 0
      then gates_seq L ++ [p] else gates_seq L in
    Some (mkLattice
            (<[time gate := mea_gates_at_time ++ [p]]> (measurement_gates L))
            seq (gates_lat L))
  else if num_qubits gate =? 1 then
    q0 ← qubits gate !! 0;
    lat ← lat_push q0 p (gates_lat L);
    Some (mkLattice (measurement_gates L)
            (if unfusible gate then gates_seq L ++ [p] else gates_seq L) lat)
  else if num_qubits gate =? 2 then
    q0 ← qubits gate !! 0;
    lat ← lat_push q0 p (gates_lat L);
    q1 ← qubits gate !! 1;
    lat ← lat_push q1 p lat;
    Some (mkLattice (measurement_gates L) (gates_seq L ++ [p]) lat)
  else Some L.

(** What the loop [for (; gate_it < glast; ++gate_it)] ends with: either it
    stops in front of [gate_it] (at [glast] or at the first gate beyond the
    window), or it meets a gate older than its predecessor. *)
Inductive FillOutcome : Type :=
  | Filled (L : Lattice) (gate_it : list GatePtr)
  | OutOfOrder.

Fixpoint fill (tl : nat) (gate_it : list GatePtr) (prev_time : nat) (L : Lattice)
  : option FillOutcome :=
  match gate_it with
  | [] => Some (Filled L [])
  | p :: gate_it' =>
      if tl <? time (pointee p) then Some (Filled L gate_it)
      else if time (pointee p) <? prev_time then Some OutOfOrder
      else L' ← classify p L; fill tl gate_it' (time (pointee p)) L'
  end.

(** *** The window loop: fusing *)

Record FuseState : Type := mkFuse {
  last_ : list nat;
  delayed_measurement_gate : option GatePtr;
  gates_fused : list GateFused
}.

(** The body of the [do { ... } while (NextGate(...))] loop of a two-qubit
    anchor: the cursors of both qubits move over the fusible gates in front
    of the gate on both qubits, over that gate, and over the fusible gates
    behind it. *)
Definition fuse_round (q0 q1 : nat) (lat : list (list GatePtr))
    (last : list nat) (gates : list GatePtr)
  : option (list nat * list GatePtr) :=
  wl0 ← lat !! q0;
  wl1 ← lat !! q1;
  k0 ← last !! q0;
  let '(k0, gates) := Advance k0 wl0 gates in
  let last := <[q0 := k0]> last in
  k1 ← last !! q1;
  let '(k1, gates) := Advance k1 wl1 gates in
  let last := <[q1 := k1]> last in
  k0 ← last !! q0;
  g ← wl0 !! k0;
  let gates := gates ++ [g] in
  let '(k0, gates) := Advance (k0 + 1) wl0 gates in
  let last := <[q0 := k0]> last in
  k1 ← last !! q1;
  let '(k1, gates) := Advance (k1 + 1) wl1 gates in
  let last := <[q1 := k1]> last in
  Some (last, gates).

(** The loop [do { ... } while (NextGate(last[q0], gates_lat[q0], last[q1],
    gates_lat[q1]))].  Every round moves [last[q0]] forward, so [fuel] larger
    than [gates_lat[q0].size()] is never used up. *)
Fixpoint fuse_pair (fuel : nat) (q0 q1 : nat) (lat : list (list GatePtr))
    (last : list nat) (gates : list GatePtr)
  : option (list nat * list GatePtr) :=
  match fuel with
  | 0 => None
  | S fuel' =>
      '(last, gates) ← fuse_round q0 q1 lat last gates;
      wl0 ← lat !! q0;
      wl1 ← lat !! q1;
      k0 ← last !! q0;
      k1 ← last !! q1;
      if NextGate k0 wl0 k1 wl1
      then fuse_pair fuel' q0 q1 lat last gates
      else Some (last, gates)
  end.

(** The body of [for (auto pgate : gates_seq)]. *)
Definition fuse_anchor (lat : list (list GatePtr)) (pgate : GatePtr) (S : FuseState)
  : option FuseState :=
  let gate := pointee pgate in
  if is_measurement (kind gate) then
    Some (mkFuse (last_ S) (Some pgate) (gates_fused S))
  else if num_qubits gate =? 1 then
    q0 ← qubits gate !! 0;
    wl ← lat !! q0;
    k ← last_ S !! q0;
    let '(k, gates) := Advance k wl [] in
    g ← wl !! k;
    let gates := gates ++ [g] in
    let '(k, gates) := Advance (k + 1) wl gates in
    Some (mkFuse (<[q0 := k]> (last_ S)) (delayed_measurement_gate S)
            (gates_fused S ++ [mkFused (kind gate) (time gate) 1 [q0] pgate gates]))
  else if num_qubits gate =? 2 then
    q0 ← qubits gate !! 0;
    q1 ← qubits gate !! 1;
    wl0 ← lat !! q0;
    k0 ← last_ S !! q0;
    if Done k0 (time gate) wl0 then Some S
    else
      '(last, gates) ← fuse_pair (length wl0 + 1) q0 q1 lat (last_ S) [];
      Some (mkFuse last (delayed_measurement_gate S)
              (gates_fused S ++
                 [mkFused (kind gate) (time gate) 2 [q0; q1] pgate gates]))
  else Some S.

Fixpoint fuse_seq (lat : list (list GatePtr)) (seq : list GatePtr) (S : FuseState)
  : option FuseState :=
  match seq with
  | [] => Some S
  | pgate :: seq' => S' ← fuse_anchor lat pgate S; fuse_seq lat seq' S'
  end.

(** The body of [for (unsigned q = 0; q < num_qubits; ++q)]: orphaned qubits. *)
Definition orphan (lat : list (list GatePtr)) (last : list nat) (q : nat)
    (fused : list GateFused) : option (list GateFused) :=
  l ← last !! q;
  wl ← lat !! q;
  if l =? length wl then Some fused
  else
    pgate ← wl !! l;
    let '(_, gates) := Advance (l + 1) wl [pgate] in
    Some (fused ++
            [mkFused (kind (pointee pgate)) (time (pointee pgate)) 1 [q] pgate gates]).

Fixpoint orphans (lat : list (list GatePtr)) (last : list nat) (qs : list nat)
    (fused : list GateFused) : option (list GateFused) :=
  match qs with
  | [] => Some fused
  | q :: qs' => fused' ← orphan lat last q fused; orphans lat last qs' fused'
  end.

(** [if (delayed_measurement_gate != nullptr) { ... }] *)
Definition fuse_measurement (mg : gmap nat (list GatePtr)) (pgate : GatePtr)
  : GateFused :=
  let mea_gates_at_time := mg !!! time (pointee pgate) in
  foldl (fun gate_f p =>
           mkFused (fkind gate_f) (ftime gate_f)
             (fnum_qubits gate_f + num_qubits (pointee p))
             (fqubits gate_f ++ qubits (pointee p))
             (pmaster gate_f) (fgates gate_f))
        (mkFused (kind (pointee pgate)) (time (pointee pgate)) 0 [] pgate [])
        mea_gates_at_time.

(** *** [FuseGates] *)

Definition error_unordered : string := "gate times should be ordered."%string.

(** The loop [for (std::size_t l = 0; l < times.size(); ++l)].  The result is
    the list of fused gates with the messages sent to [IO::errorf]. *)
Fixpoint windows (num_qubits : nat) (times : list nat) (gate_it : list GatePtr)
    (mg : gmap nat (list GatePtr)) (fused : list GateFused)
  : option (list GateFused * list string) :=
  match times with
  | [] => Some (fused, [])
  | tl :: times' =>
      first ← head gate_it;
      out ← fill tl gate_it (time (pointee first))
               (mkLattice mg [] (replicate num_qubits []));
      match out with
      | OutOfOrder => Some ([], [error_unordered])
      | Filled L gate_it' =>
          S ← fuse_seq (gates_lat L) (gates_seq L)
                (mkFuse (replicate num_qubits 0) None fused);
          fused ← orphans (gates_lat L) (last_ S) (seq 0 num_qubits) (gates_fused S);
          let fused :=
            match delayed_measurement_gate S with
            | Some pgate => fused ++ [fuse_measurement (measurement_gates L) pgate]
            | None => fused
            end in
          match gate_it' with
          | [] => Some (fused, [])
          | _ :: _ => windows num_qubits times' gate_it' (measurement_gates L) fused
          end
      end
  end.

Definition FuseGates (num_qubits : nat) (gates : list Gate)
    (times_to_split_at : list nat) : option (list GateFused * list string) :=
  match gates with
  | [] => Some ([], [])
  | _ :: _ =>
      times ← MergeWithMeasurementTimes gates times_to_split_at;
      windows num_qubits times (pointers gates) ∅ []
  end.

End BasicGateFuser.

(** ** The runner ([run_qsim.h]) *)

Module QSimRunner.

(** [struct Parameter]; the name is reserved in Rocq. *)
Record Param : Type := mkParam {
  num_threads : nat;
  verbosity : nat
}.

Record Circuit : Type := mkCircuit {
  c_num_qubits : nat;
  c_gates : list Gate
}.

(** What a run does that can be observed from outside, in the order in which
    it happens: messages to [IO::errorf] and [IO::messagef], the application
    of the fused gate with index [i], and the call
    [measure(cur_time_index, state_space, state)]. *)
Inductive Event : Type :=
  | EvError (msg : string)
  | EvMessage (msg : string)
  | EvApply (i : nat) (g : GateFused)
  | EvMeasure (cur_time_index : nat).

Definition error_memory : string :=
  "not enough memory: is the number of qubits too large?"%string.
Definition message_gate : string := "gate %lu done in %g seconds"%string.
Definition message_elapsed : string := "time elapsed %g seconds."%string.

Section Run.

(** The template parameters of [QSimRunner] and the headers it includes.
    [State] is [Simulator::State]; [CreateState], [IsNull] and [SetStateZero]
    are those of [Simulator::StateSpace]; [ApplyFusedGate] is the function of
    [gates_appl.h], called as a statement; [FuseGates] is [Fuser::FuseGates],
    which returns the fused gates and what it sent to [IO::errorf], and
    [FuseGates_maxtime] is what the call of the second entry point, with the
    scalar [maxtime] as third argument, resolves to. *)
Context {State : Type}.
Variable CreateState : nat -> nat -> State.
Variable IsNull : State -> bool.
Variable SetStateZero : State -> bool * State.
Variable ApplyFusedGate : GateFused -> State -> State.
Variable FuseGates : nat -> list Gate -> list nat -> option (list GateFused * list string).
Variable FuseGates_maxtime : nat -> list Gate -> nat -> option (list GateFused * list string).

(** The measurement callback may change the state it is handed. *)
Variable measure : nat -> State -> State.

(** The loop [for (std::size_t i = 0; i < fused_gates.size(); ++i)] of the
    first entry point; [rest] is [fused_gates] from index [i] on. *)
Fixpoint apply_and_measure (param : Param) (times_to_measure_at : list nat)
    (rest : list GateFused) (i cur_time_index : nat) (state : State)
    (trace : list Event) : option (State * list Event) :=
  match rest with
  | [] => Some (state, trace)
  | g :: rest' =>
      let state := ApplyFusedGate g state in
      let trace := trace ++ [EvApply i g] in
      let trace :=
        if 1 <? verbosity param then trace ++ [EvMessage message_gate] else trace in
      t ← times_to_measure_at !! cur_time_index;
      if match rest' with [] => true | g' :: _ => t <? ftime g' end
      then apply_and_measure param times_to_measure_at rest' (S i)
             (S cur_time_index) (measure cur_time_index state)
             (trace ++ [EvMeasure cur_time_index])
      else apply_and_measure param times_to_measure_at rest' (S i)
             cur_time_index state trace
  end.

(** How the loop of the first entry point ends: behind the last fused gate,
    or at [unsigned t = times_to_measure_at[cur_time_index];] with an index
    that is not in the vector. *)
Inductive LoopEnd : Type :=
  | Completed
  | ReadBeyond (cur_time_index : nat).

(** The loop of the first entry point once more, with what it has done when
    it ends: where [apply_and_measure] has no result, this one keeps the
    state and the trace that the loop has reached at the read outside
    [times_to_measure_at]. *)
Fixpoint apply_and_measure_upto (param : Param) (times_to_measure_at : list nat)
    (rest : list GateFused) (i cur_time_index : nat) (state : State)
    (trace : list Event) : State * list Event * LoopEnd :=
  match rest with
  | [] => (state, trace, Completed)
  | g :: rest' =>
      let state := ApplyFusedGate g state in
      let trace := trace ++ [EvApply i g] in
      let trace :=
        if 1 <? verbosity param then trace ++ [EvMessage message_gate] else trace in
      match times_to_measure_at !! cur_time_index with
      | None => (state, trace, ReadBeyond cur_time_index)
      | Some t =>
          if match rest' with [] => true | g' :: _ => t <? ftime g' end
          then apply_and_measure_upto param times_to_measure_at rest' (S i)
                 (S cur_time_index) (measure cur_time_index state)
                 (trace ++ [EvMeasure cur_time_index])
          else apply_and_measure_upto param times_to_measure_at rest' (S i)
                 cur_time_index state trace
      end
  end.

(** [Run(param, times_to_measure_at, circuit, measure)].  The result is the
    returned flag, the final state and the trace; [None] stands for an
    out-of-range access. *)
Definition Run (param : Param) (times_to_measure_at : list nat)
    (circuit : Circuit) : option (bool * State * list Event) :=
  let state := CreateState (c_num_qubits circuit) (num_threads param) in
  if IsNull state then Some (false, state, [EvError error_memory])
  else
    let state := snd (SetStateZero state) in
    '(fused_gates, errors) ←
       FuseGates (c_num_qubits circuit) (c_gates circuit) times_to_measure_at;
    '(state, trace) ←
       apply_and_measure param times_to_measure_at fused_gates 0 0 state
         (map EvError errors);
    let trace :=
      if 0 <? verbosity param then trace ++ [EvMessage message_elapsed] else trace in
    Some (true, state, trace).

(** [Run(param, maxtime, circuit, measure)] *)
Definition Run_maxtime (param : Param) (maxtime : nat) (circuit : Circuit)
  : option (bool * State * list Event) :=
  Run param [maxtime] circuit.

(** The loop of the second entry point. *)
Fixpoint apply_all (param : Param) (rest : list GateFused) (i : nat)
    (state : State) (trace : list Event) : State * list Event :=
  match rest with
  | [] => (state, trace)
  | g :: rest' =>
      let state := ApplyFusedGate g state in
      let trace := trace ++ [EvApply i g] in
      let trace :=
        if 1 <? verbosity param then trace ++ [EvMessage message_gate] else trace in
      apply_all param rest' (S i) state trace
  end.

(** [Run(param, maxtime, circuit, state)] *)
Definition Run_state (param : Param) (maxtime : nat) (circuit : Circuit)
    (state : State) : option (bool * State * list Event) :=
  '(fused_gates, errors) ←
     FuseGates_maxtime (c_num_qubits circuit) (c_gates circuit) maxtime;
  let '(state, trace) := apply_all param fused_gates 0 state (map EvError errors) in
  let trace :=
    if 0 <? verbosity param then trace ++ [EvMessage message_elapsed] else trace in
  Some (true, state, trace).

End Run.

(** The callbacks of a trace, in order. *)
Definition measurements (trace : list Event) : list nat :=
  omap (fun e => match e with EvMeasure c => Some c | _ => None end) trace.

(** The indices of the fused gates applied in a trace, in order. *)
Definition applied (trace : list Event) : list nat :=
  omap (fun e => match e with EvApply i _ => Some i | _ => None end) trace.

End QSimRunner.

(** ** The AVX state space ([statespace_avx.h]) *)

Module StateSpaceAVX.

(** *** Scalars

    [fp_type] is a template parameter of the state space ([float] here), and
    norms are accumulated in [double].  The embedding is generic in the
    arithmetic: a kernel is written once over a type of scalars with the
    operations it uses, both precisions being read as that one type.  Data
    movement and control flow are then settled for every arithmetic; what
    depends on the laws of arithmetic is proved for the exact reals, of
    which floating point is an approximation. *)
Class Scalar (F : Type) : Type := {
  fzero : F;
  fadd : F -> F -> F;
  fmul : F -> F -> F;
  fltb : F -> F -> bool
}.

Class ScalarSqrt (F : Type) `{Scalar F} : Type := {
  fone : F;
  fdiv : F -> F -> F;
  fsqrt : F -> F
}.

#[export] Instance Q_scalar : Scalar Q :=
  {| fzero := 0%Q; fadd := Qplus; fmul := Qmult;
     fltb := fun a b => negb (Qle_bool b a) |}.

#[export] Instance R_scalar : Scalar R :=
  {| fzero := 0%R; fadd := Rplus; fmul := Rmult;
     fltb := fun a b => if Rlt_dec a b then true else false |}.

#[export] Instance R_sqrt : ScalarSqrt R :=
  {| fone := 1%R; fdiv := Rdiv; fsqrt := sqrt |}.

(** *** 64-bit integers and AVX registers

    An [__m256i] is its eight 32-bit elements, lowest first; a 64-bit lane is
    a pair of neighbouring elements.  An [__m256] is its eight lanes. *)
Definition u64 (x : Z) : Z := (x mod 2 ^ 64)%Z.

Definition epi64 (x : Z) : list Z :=
  [(u64 x mod 2 ^ 32)%Z; (u64 x / 2 ^ 32)%Z].

Definition _mm256_setr_epi64x (a b c d : Z) : list Z :=
  epi64 a ++ epi64 b ++ epi64 c ++ epi64 d.

Definition _mm256_set1_epi64x (a : Z) : list Z :=
  epi64 a ++ epi64 a ++ epi64 a ++ epi64 a.

Definition _mm256_and_si256 (a b : list Z) : list Z := zip_with Z.land a b.

Fixpoint _mm256_cmpeq_epi64 (a b : list Z) : list Z :=
  match a, b with
  | alo :: ahi :: a', blo :: bhi :: b' =>
      let lane := if (alo =? blo)%Z && (ahi =? bhi)%Z then (2 ^ 32 - 1)%Z else 0%Z in
      lane :: lane :: _mm256_cmpeq_epi64 a' b'
  | _, _ => []
  end.

Definition _mm256_blend_epi32 (a b : list Z) (imm8 : Z) : list Z :=
  imap (fun e '(x, y) => if Z.testbit imm8 (Z.of_nat e) then y else x) (zip a b).

(** [detail::GetZeroMaskAVX] *)
Definition GetZeroMaskAVX (i mask bits : Z) : list Z :=
  let s1 := _mm256_setr_epi64x (i + 0) (i + 2) (i + 4) (i + 6) in
  let s2 := _mm256_setr_epi64x (i + 1) (i + 3) (i + 5) (i + 7) in
  let ma := _mm256_set1_epi64x mask in
  let bi := _mm256_set1_epi64x bits in
  let s1 := _mm256_and_si256 s1 ma in
  let s2 := _mm256_and_si256 s2 ma in
  let s1 := _mm256_cmpeq_epi64 s1 bi in
  let s2 := _mm256_cmpeq_epi64 s2 bi in
  _mm256_blend_epi32 s1 s2 170.

Section Kernels.

Context {F : Type} `{Scalar F}.

(** [p[i]], read inside the bounds that the size check of each kernel
    guarantees. *)
Definition at_ (p : list F) (i : nat) : F := nth i p fzero.

(** [_mm256_load_ps(p + off)] and [_mm256_store_ps(p + off, v)] *)
Definition _mm256_load_ps (p : list F) (off : nat) : list F :=
  take 8 (drop off p).

Definition _mm256_store_ps (p : list F) (off : nat) (v : list F) : list F :=
  take off p ++ v ++ drop (off + 8) p.

(** [_mm256_maskload_ps(p + off, ml)]: a lane is loaded when the highest bit
    of its mask element is set and is zero otherwise. *)
Definition _mm256_maskload_ps (p : list F) (off : nat) (ml : list Z) : list F :=
  zip_with (fun m x => if Z.testbit m 31 then x else fzero) ml
           (_mm256_load_ps p off).

Definition _mm256_mul_ps (a b : list F) : list F := zip_with fmul a b.

(** [_mm256_fmadd_ps(a, b, c)] is [a * b + c] in every lane. *)
Definition _mm256_fmadd_ps (a b c : list F) : list F :=
  zip_with (fun ab z => fadd ab z) (zip_with fmul a b) c.

Definition _mm256_set1_ps (a : F) : list F := replicate 8 a.

(** [detail::HorizontalSumAVX]: [buf[0] + buf[1] + ... + buf[7]] *)
Definition HorizontalSumAVX (s : list F) : F :=
  fadd (fadd (fadd (fadd (fadd (fadd (fadd (at_ s 0) (at_ s 1)) (at_ s 2))
    (at_ s 3)) (at_ s 4)) (at_ s 5)) (at_ s 6)) (at_ s 7).

(** *** The state space object *)

(** [MinimumRawSize] *)
Definition MinimumRawSize (raw_size : Z) : Z := Z.max 16 raw_size.

(** Modelled from the spec: the base class [StateSpace] of [statespace.h] is
    not part of the sources at hand.  It keeps [num_qubits_], the [raw_size_]
    that the constructor of [StateSpaceAVX] hands it, which is
    [MinimumRawSize(2 * (uint64_t{1} << num_qubits))], and the loop object
    [for_]. *)
Definition raw_size_ (num_qubits : nat) : nat :=
  Z.to_nat (MinimumRawSize (u64 (2 * u64 (Z.shiftl 1 (Z.of_nat num_qubits))))).

(** Modelled from the spec: [for_.Run(size, func, args...)] calls
    [func(n, m, i, args...)] for every [i] in [[0, size)]; the sequential loop
    does so in increasing order. *)
Definition for_Run {A : Type} (size : nat) (func : nat -> A -> A) (a : A) : A :=
  foldl (fun a i => func i a) a (seq 0 size).

(** Modelled from the spec: [for_.RunReduce(size, func, op, args...)] combines
    the values [func(n, m, i, args...)] with [op], here [std::plus], starting
    from zero. *)
Definition for_RunReduce (size : nat) (func : nat -> F) : F :=
  foldl (fun r i => fadd r (func i)) fzero (seq 0 size).

(** [fp_type* s = p + 16 * i;] followed by a body that reads and writes
    [s[0]] ... [s[15]]: the body works on the view of block [i], which is
    written back in place. *)
Definition on_block (i : nat) (body : list F -> list F) (p : list F) : list F :=
  take (16 * i) p ++ body (take 16 (drop (16 * i) p)) ++ drop (16 * i + 16) p.

(** *** Layout conversions *)

Definition i2n_block (s : list F) : list F :=
  let re := map (fun i => at_ s (i + 1)) (seq 0 7) in
  let im := map (fun i => at_ s (i + 8)) (seq 0 7) in
  foldl (fun s i => <[2 * i + 2 := at_ re i]> (<[2 * i + 1 := at_ im i]> s))
        s (seq 0 7).

Definition InternalToNormalOrder (num_qubits : nat) (state : list F)
  : bool * list F :=
  if negb (length state =? raw_size_ num_qubits) then (false, state)
  else if num_qubits =? 1 then
    let s := state in
    let s := <[2 := at_ s 1]> s in
    let s := <[1 := at_ s 8]> s in
    let s := <[3 := at_ s 9]> s in
    (true, foldl (fun s i => <[i := fzero]> s) s (seq 4 12))
  else if num_qubits =? 2 then
    let s := state in
    let s := <[6 := at_ s 3]> s in
    let s := <[4 := at_ s 2]> s in
    let s := <[2 := at_ s 1]> s in
    let s := <[1 := at_ s 8]> s in
    let s := <[3 := at_ s 9]> s in
    let s := <[5 := at_ s 10]> s in
    let s := <[7 := at_ s 11]> s in
    (true, foldl (fun s i => <[i := fzero]> s) s (seq 8 8))
  else
    (true, for_Run (raw_size_ num_qubits / 16)
             (fun i => on_block i i2n_block) state).

Definition n2i_block (s : list F) : list F :=
  let im := map (fun i => at_ s (2 * i + 1)) (seq 0 7) in
  let re := map (fun i => at_ s (2 * i + 2)) (seq 0 7) in
  foldl (fun s i => <[i + 8 := at_ im i]> (<[i + 1 := at_ re i]> s))
        s (seq 0 7).

Definition NormalToInternalOrder (num_qubits : nat) (state : list F)
  : bool * list F :=
  if negb (length state =? raw_size_ num_qubits) then (false, state)
  else if num_qubits =? 1 then
    let s := state in
    let s := <[8 := at_ s 1]> s in
    let s := <[1 := at_ s 2]> s in
    let s := <[9 := at_ s 3]> s in
    (true, foldl (fun s i => <[i + 8 := fzero]> (<[i := fzero]> s)) s (seq 2 6))
  else if num_qubits =? 2 then
    let s := state in
    let s := <[8 := at_ s 1]> s in
    let s := <[9 := at_ s 3]> s in
    let s := <[10 := at_ s 5]> s in
    let s := <[11 := at_ s 7]> s in
    let s := <[1 := at_ s 2]> s in
    let s := <[2 := at_ s 4]> s in
    let s := <[3 := at_ s 6]> s in
    (true, foldl (fun s i => <[i + 8 := fzero]> (<[i := fzero]> s)) s (seq 4 4))
  else
    (true, for_Run (raw_size_ num_qubits / 16)
             (fun i => on_block i n2i_block) state).

(** *** Amplitudes *)

(** [GetAmpl]: the real and the imaginary part of amplitude [i]. *)
Definition GetAmpl (state : list F) (i : nat) : F * F :=
  let k := 16 * (i / 8) + i mod 8 in
  (at_ state k, at_ state (k + 8)).

(** *** Sampling *)

Section Sample.

(** Modelled from the spec: [GenerateRandomValues] of [util.h] is not part of
    the sources at hand.  It draws [num_samples] values in [[0, max_value)]
    from a generator seeded with [seed], in increasing order; the result is a
    function of its three arguments. *)
Variable GenerateRandomValues : nat -> nat -> F -> list F.

(** What lies in memory around the vector [rs]: [rs[m]] with [m] beyond the
    size of the vector reads whatever happens to be there, and this may
    change from one run to the next. *)
Variable beyond : nat -> F.

Definition rs_at (rs : list F) (m : nat) : F :=
  match rs !! m with Some r => r | None => beyond m end.

Record Emission : Type := mkEmission {
  m_ : nat;
  bitstrings : list nat;
  rs_reads : list nat
}.

(** [while (rs[m] < csum && m < num_samples) { bitstrings.emplace_back(idx);
    ++m; }], every evaluation of [rs[m]] being recorded in [rs_reads].  The
    loop body runs at most [num_samples] times, so [fuel] above [num_samples]
    is never used up. *)
Fixpoint emit (fuel : nat) (rs : list F) (num_samples : nat) (csum : F)
    (idx : nat) (e : Emission) : Emission :=
  match fuel with
  | 0 => e
  | S fuel' =>
      let r := rs_at rs (m_ e) in
      let reads := rs_reads e ++ [m_ e] in
      if fltb r csum && (m_ e <? num_samples)
      then emit fuel' rs num_samples csum idx
             (mkEmission (S (m_ e)) (bitstrings e ++ [idx]) reads)
      else mkEmission (m_ e) (bitstrings e) reads
  end.

(** The slots [(k, j)] in the order of the two nested loops
    [for (k = 0; k < size; ++k) for (j = 0; j < 8; ++j)]. *)
Definition slots (size : nat) : list (nat * nat) :=
  k ← seq 0 size; j ← seq 0 8; [(k, j)].

Definition slot_norm (p : list F) (kj : nat * nat) : F :=
  let '(k, j) := kj in
  let re := at_ p (16 * k + j) in
  let im := at_ p (16 * k + 8 + j) in
  fadd (fmul re re) (fmul im im).

(** [Sample]: the samples, and the indices at which [rs] was read. *)
Definition Sample (num_qubits : nat) (state : list F) (num_samples seed : nat)
  : list nat * list nat :=
  if (length state =? raw_size_ num_qubits) && (0 <? num_samples) then
    let size := raw_size_ num_qubits / 16 in
    let p := state in
    let norm := foldl (fun norm kj => fadd norm (slot_norm p kj)) fzero (slots size) in
    let rs := GenerateRandomValues num_samples seed norm in
    let '(_, e) :=
      foldl (fun '(csum, e) kj =>
               let csum := fadd csum (slot_norm p kj) in
               (csum, emit (S num_samples) rs num_samples csum
                        (8 * fst kj + snd kj) e))
            (fzero, mkEmission 0 [] []) (slots size) in
    (bitstrings e, rs_reads e)
  else ([], []).

End Sample.

(** *** Collapse *)

(** Modelled from the spec: [Base::MeasurementResult] of [statespace.h] is not
    part of the sources at hand; [CollapseState] reads its [mask] and its
    [bits], both [uint64_t]. *)
Record MeasurementResult : Type := mkMeasurementResult {
  mask : Z;
  bits : Z
}.

Context `{!ScalarSqrt F}.

(** The two lambdas of [CollapseState]. *)
Definition CollapseState_f1 (i : nat) (mask bits : Z) (p : list F) : F :=
  let ml := GetZeroMaskAVX (u64 (8 * Z.of_nat i)) mask bits in
  let re := _mm256_maskload_ps p (16 * i) ml in
  let im := _mm256_maskload_ps p (16 * i + 8) ml in
  let s1 := _mm256_fmadd_ps im im (_mm256_mul_ps re re) in
  HorizontalSumAVX s1.

Definition CollapseState_f2 (i : nat) (mask bits : Z) (renorm : list F)
    (p : list F) : list F :=
  let ml := GetZeroMaskAVX (u64 (8 * Z.of_nat i)) mask bits in
  let re := _mm256_maskload_ps p (16 * i) ml in
  let im := _mm256_maskload_ps p (16 * i + 8) ml in
  let re := _mm256_mul_ps re renorm in
  let im := _mm256_mul_ps im renorm in
  let p := _mm256_store_ps p (16 * i) re in
  _mm256_store_ps p (16 * i + 8) im.

Definition CollapseState (num_qubits : nat) (mr : MeasurementResult)
    (state : list F) : bool * list F :=
  if negb (length state =? raw_size_ num_qubits) then (false, state)
  else
    let norm :=
      for_RunReduce (raw_size_ num_qubits / 16)
        (fun i => CollapseState_f1 i (mask mr) (bits mr) state) in
    let renorm := _mm256_set1_ps (fdiv fone (fsqrt norm)) in
    (true,
     for_Run (raw_size_ num_qubits / 16)
       (fun i p => CollapseState_f2 i (mask mr) (bits mr) renorm p) state).

End Kernels.

(** *** Further scalars

    [InnerProduct] subtracts, and [SetStateUniform] turns the number of basis
    states, a [uint64_t], into a [double]. *)
Class ScalarSub (F : Type) : Type := {
  fsub : F -> F -> F
}.

Class ScalarOfInt (F : Type) : Type := {
  fof_Z : Z -> F
}.

(** [float] as it is: the binary32 numbers of IEEE 754, with zeros,
    infinities and NaN, every operation rounding to the nearest number, ties
    to even.  The source keeps the state in [float], converts the sum of the
    eight lanes of a block to [double], adds the blocks up in [double] and
    fuses the multiplication and the addition of [_mm256_fmadd_ps]; the
    kernels above, written over one type of scalars, round after every
    operation and to binary32 throughout when they are read with these
    operations.  Both agree as long as no operation rounds, and where a
    product of two [float] values is zero after rounding. *)
Definition binary32 : Type := SpecFloat.spec_float.

Definition binary32_scalar : Scalar binary32 :=
  {| fzero := SpecFloat.S754_zero false;
     fadd := SpecFloat.SFadd 24 128;
     fmul := SpecFloat.SFmul 24 128;
     fltb := SpecFloat.SFltb |}.

Definition binary32_sqrt : @ScalarSqrt binary32 binary32_scalar :=
  {| fone := SpecFloat.SFone 24 128;
     fdiv := SpecFloat.SFdiv 24 128;
     fsqrt := SpecFloat.SFsqrt 24 128 |}.

#[export] Instance Q_sub : ScalarSub Q := {| fsub := Qminus |}.
#[export] Instance R_sub : ScalarSub R := {| fsub := Rminus |}.
#[export] Instance Q_of_int : ScalarOfInt Q := {| fof_Z := inject_Z |}.
#[export] Instance R_of_int : ScalarOfInt R := {| fof_Z := IZR |}.

Section Setters.

Context {F : Type} `{Scalar F}.

Definition _mm256_setzero_ps : list F := replicate 8 fzero.

(** [_mm256_set_ps(e7, e6, e5, e4, e3, e2, e1, e0)]: the last argument is the
    lowest lane. *)
Definition _mm256_set_ps (e7 e6 e5 e4 e3 e2 e1 e0 : F) : list F :=
  [e0; e1; e2; e3; e4; e5; e6; e7].

Definition _mm256_add_ps (a b : list F) : list F := zip_with fadd a b.

(** [SetAllZeros] *)
Definition SetAllZeros (num_qubits : nat) (state : list F) : bool * list F :=
  if negb (length state =? raw_size_ num_qubits) then (false, state)
  else
    let val0 := _mm256_setzero_ps in
    (true,
     for_Run (raw_size_ num_qubits / 16)
       (fun i p =>
          let p := _mm256_store_ps p (16 * i) val0 in
          _mm256_store_ps p (16 * i + 8) val0) state).

(** [SetAmpl(state, i, re, im)].  The function does not look at the size of
    the state; a write outside the buffer is undefined behaviour, for which
    [None] stands.  The index [k] is computed on [nat]: it is the [uint64_t]
    value of the source as long as [16 * (i / 8) + i % 8] does not wrap, that
    is for [i] below [2^63]. *)
Definition SetAmpl (state : list F) (i : nat) (re im : F) : option (list F) :=
  let k := 16 * (i / 8) + i mod 8 in
  if k + 8 <? length state
  then Some (<[k + 8 := im]> (<[k := re]> state))
  else None.

(** [SetAmpl(state, i, ampl)], with [std::real(ampl)] and [std::imag(ampl)]. *)
Definition SetAmpl_complex (state : list F) (i : nat) (ampl : F * F)
  : option (list F) :=
  let k := 16 * (i / 8) + i mod 8 in
  if k + 8 <? length state
  then Some (<[k + 8 := snd ampl]> (<[k := fst ampl]> state))
  else None.

(** [AddState(src, dest)]: the flag and the new [dest]. *)
Definition AddState (num_qubits : nat) (src dest : list F) : bool * list F :=
  if negb (length src =? raw_size_ num_qubits)
     || negb (length dest =? raw_size_ num_qubits)
  then (false, dest)
  else
    (true,
     for_Run (raw_size_ num_qubits / 16)
       (fun i p2 =>
          let re1 := _mm256_load_ps src (16 * i) in
          let im1 := _mm256_load_ps src (16 * i + 8) in
          let re2 := _mm256_load_ps p2 (16 * i) in
          let im2 := _mm256_load_ps p2 (16 * i + 8) in
          let p2 := _mm256_store_ps p2 (16 * i) (_mm256_add_ps re1 re2) in
          _mm256_store_ps p2 (16 * i + 8) (_mm256_add_ps im1 im2)) dest).

(** [Multiply(a, state)] *)
Definition Multiply (num_qubits : nat) (a : F) (state : list F) : bool * list F :=
  if negb (length state =? raw_size_ num_qubits) then (false, state)
  else
    let r := _mm256_set1_ps a in
    (true,
     for_Run (raw_size_ num_qubits / 16)
       (fun i p =>
          let re := _mm256_load_ps p (16 * i) in
          let im := _mm256_load_ps p (16 * i + 8) in
          let re := _mm256_mul_ps re r in
          let im := _mm256_mul_ps im r in
          let p := _mm256_store_ps p (16 * i) re in
          _mm256_store_ps p (16 * i + 8) im) state).

(** The lambda of [RealInnerProduct]. *)
Definition RealInnerProduct_f (i : nat) (p1 p2 : list F) : F :=
  let re1 := _mm256_load_ps p1 (16 * i) in
  let im1 := _mm256_load_ps p1 (16 * i + 8) in
  let re2 := _mm256_load_ps p2 (16 * i) in
  let im2 := _mm256_load_ps p2 (16 * i + 8) in
  let ip_re := _mm256_fmadd_ps im1 im2 (_mm256_mul_ps re1 re2) in
  HorizontalSumAVX ip_re.

(** [RealInnerProduct]; [None] stands for the [std::nan("")] that answers a
    state of the wrong size. *)
Definition RealInnerProduct (num_qubits : nat) (state1 state2 : list F)
  : option F :=
  if negb (length state1 =? raw_size_ num_qubits)
     || negb (length state2 =? raw_size_ num_qubits)
  then None
  else Some (for_RunReduce (raw_size_ num_qubits / 16)
               (fun i => RealInnerProduct_f i state1 state2)).

(** Modelled from the spec: [for_.RunReduceP(size, func, op, args...)] returns
    the partial results of the workers, one for each; the sequential loop has
    one worker. *)
Definition for_RunReduceP (size : nat) (func : nat -> F) : list F :=
  [for_RunReduce size func].

(** [PartialNorms] *)
Definition PartialNorms (num_qubits : nat) (state : list F) : list F :=
  if negb (length state =? raw_size_ num_qubits) then []
  else
    for_RunReduceP (raw_size_ num_qubits / 16)
      (fun i =>
         let re := _mm256_load_ps state (16 * i) in
         let im := _mm256_load_ps state (16 * i + 8) in
         let s1 := _mm256_fmadd_ps im im (_mm256_mul_ps re re) in
         HorizontalSumAVX s1).

(** The two nested loops of [FindMeasuredBits], over the slots that are
    left: [csum += re * re + im * im; if (r < csum) return (8 * k + j) & mask;]
    and [return -1] behind the loops. *)
Fixpoint find_bits (r : F) (mask : Z) (p : list F) (csum : F)
    (todo : list (nat * nat)) : Z :=
  match todo with
  | [] => u64 (-1)
  | (k, j) :: todo' =>
      let re := at_ p (16 * k + j) in
      let im := at_ p (16 * k + j + 8) in
      let csum := fadd csum (fadd (fmul re re) (fmul im im)) in
      if fltb r csum then Z.land (Z.of_nat (8 * k + j)) mask
      else find_bits r mask p csum todo'
  end.

Section FindMeasuredBits.

(** [for_.GetIndex0(size, m)] and [for_.GetIndex1(size, m)]: the slice
    [[k0, k1)] of the blocks that the loop object gives to worker [m]. *)
Variable GetIndex0 GetIndex1 : nat -> nat -> nat.

(** [FindMeasuredBits(m, r, mask, state)] *)
Definition FindMeasuredBits (num_qubits : nat) (m : nat) (r : F) (mask : Z)
    (state : list F) : Z :=
  if negb (length state =? raw_size_ num_qubits) then u64 (-1)
  else
    let k0 := GetIndex0 (raw_size_ num_qubits / 16) m in
    let k1 := GetIndex1 (raw_size_ num_qubits / 16) m in
    find_bits r mask state fzero
      (k ← seq k0 (k1 - k0); j ← seq 0 8; [(k, j)]).

End FindMeasuredBits.

Context `{!ScalarSub F}.

(** [_mm256_fnmadd_ps(a, b, c)] is [-(a * b) + c] in every lane. *)
Definition _mm256_fnmadd_ps (a b c : list F) : list F :=
  zip_with (fun ab z => fsub z ab) (zip_with fmul a b) c.

(** [std::plus<std::complex<double>>] *)
Definition cadd (a b : F * F) : F * F := (fadd (fst a) (fst b), fadd (snd a) (snd b)).

(** Modelled from the spec: [for_.RunReduce] for a body that returns a
    complex number, see [for_RunReduce]. *)
Definition for_RunReduce_complex (size : nat) (func : nat -> F * F) : F * F :=
  foldl (fun r i => cadd r (func i)) (fzero, fzero) (seq 0 size).

(** The lambda of [InnerProduct]. *)
Definition InnerProduct_f (i : nat) (p1 p2 : list F) : F * F :=
  let re1 := _mm256_load_ps p1 (16 * i) in
  let im1 := _mm256_load_ps p1 (16 * i + 8) in
  let re2 := _mm256_load_ps p2 (16 * i) in
  let im2 := _mm256_load_ps p2 (16 * i + 8) in
  let ip_re := _mm256_fmadd_ps im1 im2 (_mm256_mul_ps re1 re2) in
  let ip_im := _mm256_fnmadd_ps im1 re2 (_mm256_mul_ps re1 im2) in
  let re := HorizontalSumAVX ip_re in
  let im := HorizontalSumAVX ip_im in
  (re, im).

(** [InnerProduct]; [None] stands for the [std::nan("")] that answers a state
    of the wrong size. *)
Definition InnerProduct (num_qubits : nat) (state1 state2 : list F)
  : option (F * F) :=
  if negb (length state1 =? raw_size_ num_qubits)
     || negb (length state2 =? raw_size_ num_qubits)
  then None
  else Some (for_RunReduce_complex (raw_size_ num_qubits / 16)
               (fun i => InnerProduct_f i state1 state2)).

End Setters.

Section Initial.

Context {F : Type} `{ScalarSqrt F} `{!ScalarOfInt F}.

(** [SetStateZero]; the flag of [SetAllZeros] is not looked at. *)
Definition SetStateZero (num_qubits : nat) (state : list F) : bool * list F :=
  if negb (length state =? raw_size_ num_qubits) then (false, state)
  else
    let state := snd (SetAllZeros num_qubits state) in
    (true, <[0 := fone]> state).

(** Modelled from the spec: [Base::Size()] of [statespace.h] is not part of
    the sources at hand; it is the number [2^N] of basis states, as
    [uint64_t{1} << num_qubits_]. *)
Definition Size (num_qubits : nat) : Z := u64 (Z.shiftl 1 (Z.of_nat num_qubits)).

(** [SetStateUniform] *)
Definition SetStateUniform (num_qubits : nat) (state : list F) : bool * list F :=
  if negb (length state =? raw_size_ num_qubits) then (false, state)
  else
    let val0 := _mm256_setzero_ps in
    let v := fdiv fone (fsqrt (fof_Z (Size num_qubits))) in
    let valu :=
      match num_qubits with
      | 1 => _mm256_set_ps fzero fzero fzero fzero fzero fzero v v
      | 2 => _mm256_set_ps fzero fzero fzero fzero v v v v
      | _ => _mm256_set1_ps v
      end in
    (true,
     for_Run (raw_size_ num_qubits / 16)
       (fun i p =>
          let p := _mm256_store_ps p (16 * i) valu in
          _mm256_store_ps p (16 * i + 8) val0) state).

End Initial.

End StateSpaceAVX.

(** ** Windows of the runner *)

Module Windows.

(** The fused gates in front of the first one that is later than [t], and
    the others. *)
Fixpoint window (t : nat) (fused : list GateFused)
  : list GateFused * list GateFused :=
  match fused with
  | [] => ([], [])
  | g :: fused' =>
      if ftime g <=? t
      then let '(w, r) := window t fused' in (g :: w, r)
      else ([], fused)
  end.

(** The times [times] cut the list [fused] into consecutive windows, none of
    them empty: the window of an entry [t] holds the fused gates with a time
    at most [t] that are not in an earlier window, all fused gates behind it
    are later than [t], and no fused gate is left behind the last window. *)
Fixpoint windows_ok (times : list nat) (fused : list GateFused) : bool :=
  match times with
  | [] => match fused with [] => true | _ :: _ => false end
  | t :: times' =>
      let '(w, r) := window t fused in
      negb (length w =? 0) && forallb (fun g => t <? ftime g) r
        && windows_ok times' r
  end.

End Windows.

(** ** Mass of a state *)

Module Mass.

Import StateSpaceAVX.

Section Norms.

Context {F : Type} `{Scalar F}.

(** [|a|^2] *)
Definition norm2 (a : F * F) : F :=
  fadd (fmul (fst a) (fst a)) (fmul (snd a) (snd a)).

(** [(i & mask) == bits] *)
Definition survives (mr : MeasurementResult) (i : nat) : bool :=
  (Z.land (Z.of_nat i) (mask mr) =? bits mr)%Z.

(** The squared magnitudes of the amplitudes of [state] whose basis index
    survives the measurement result, summed. *)
Definition surviving_mass (mr : MeasurementResult) (state : list F) : F :=
  foldr fadd fzero
    (map (fun i => norm2 (GetAmpl state i))
         (filter (fun i => survives mr i = true) (seq 0 (length state / 2)))).

(** The same sum over the amplitudes of the [2^num_qubits] basis states only;
    for less than three qubits the buffer has lanes behind them, which
    [surviving_mass] counts as well. *)
Definition basis_mass (num_qubits : nat) (mr : MeasurementResult)
    (state : list F) : F :=
  foldr fadd fzero
    (map (fun i => norm2 (GetAmpl state i))
         (filter (fun i => survives mr i = true) (seq 0 (2 ^ num_qubits)))).

End Norms.

End Mass.

(** ** Norms and running sums *)

Module Sums.

Import StateSpaceAVX Mass.

(** The squared magnitudes of all amplitudes of the buffer, summed. *)
Definition norm_squared {F : Type} `{Scalar F} (state : list F) : F :=
  foldr fadd fzero
    (map (fun i => norm2 (GetAmpl state i)) (seq 0 (length state / 2))).

(** The running sum of [FindMeasuredBits] behind the slots [l], from [csum]
    on. *)
Definition cumulative {F : Type} `{Scalar F} (p : list F) (csum : F)
    (l : list (nat * nat)) : F :=
  foldl (fun csum '(k, j) =>
           let re := at_ p (16 * k + j) in
           let im := at_ p (16 * k + j + 8) in
           fadd csum (fadd (fmul re re) (fmul im im))) csum l.

(** The complex conjugate. *)
Definition conjugate (z : R * R) : R * R := (fst z, (- snd z)%R).

End Sums.

(** ** Well-formed circuits *)

Module Circuits.

(** A gate that is not a measurement acts on one qubit of the circuit or on
    two different ones, and its [num_qubits] says so. *)
Definition gate_ok (num_qubits_ : nat) (g : Gate) : bool :=
  is_measurement (kind g) ||
  match qubits g with
  | [q0] => (num_qubits g =? 1) && (q0 <? num_qubits_)
  | [q0; q1] =>
      (num_qubits g =? 2) && (q0 <? num_qubits_) && (q1 <? num_qubits_)
        && negb (q0 =? q1)
  | _ => false
  end.

(** Two gates that are not measurements act on a common qubit at the same
    time. *)
Definition clash (g h : Gate) : bool :=
  negb (is_measurement (kind g)) && negb (is_measurement (kind h))
    && (time g =? time h)
    && existsb (fun q => bool_decide (q ∈ qubits h)) (qubits g).

(** The times never decrease along the sequence, and no two gates clash. *)
Fixpoint ordered (gates : list Gate) : bool :=
  match gates with
  | [] => true
  | g :: gates' =>
      forallb (fun h => (time g <=? time h) && negb (clash g h)) gates'
        && ordered gates'
  end.

Definition well_formed (num_qubits_ : nat) (gates : list Gate) : bool :=
  forallb (gate_ok num_qubits_) gates && ordered gates.

(** All members of a list of fused gates, in order. *)
Definition members (fused : list GateFused) : list GatePtr :=
  mjoin (fgates <$> fused).

(** The pointers to the gates of a circuit that are not measurements. *)
Definition unitary_gates (gates : list Gate) : list GatePtr :=
  filter (fun p => is_measurement (kind (pointee p)) = false) (pointers gates).

End Circuits.

(** ** Orders of times *)

Module Times.

(** A list of numbers never decreases. *)
Definition nondecreasing (l : list nat) : Prop :=
  forall i j x y, i <= j -> l !! i = Some x -> l !! j = Some y -> x <= y.

(** A list of numbers goes up strictly. *)
Definition increasing (l : list nat) : Prop :=
  forall i j x y, i < j -> l !! i = Some x -> l !! j = Some y -> x < y.

(** The times never go down, starting from [prev]. *)
Fixpoint rising (prev : nat) (times : list nat) : bool :=
  match times with
  | [] => true
  | t :: times' => (prev <=? t) && rising t times'
  end.

(** A measurement gate of time [t]. *)
Definition measures_at (t : nat) (g : Gate) : Prop :=
  is_measurement (kind g) = true /\ time g = t.

End Times.

(** ** Inputs of the scenarios *)

Module Scenario.

(** A single-qubit gate on qubit [q]. *)
Definition gate1 (id t q : nat) (unf : bool) : Gate :=
  mkGate (kGate id) t 1 [q] unf.

(** Times [0, 2, 1] on one qubit, all gates fusible. *)
Definition unordered_021 : list Gate :=
  [gate1 0 0 0 false; gate1 0 2 0 false; gate1 0 1 0 false].

(** Times [1, 0, 1] on one qubit, all gates fusible. *)
Definition unordered_101 : list Gate :=
  [gate1 0 1 0 false; gate1 0 0 0 false; gate1 0 1 0 false].

(** Times [0, 1, 2] on one qubit, the gate in the middle unfusible. *)
Definition unfusible_split (id0 id1 id2 : nat) : list Gate :=
  [gate1 id0 0 0 false; gate1 id1 1 0 true; gate1 id2 2 0 false].

(** Times [0, 1] on one qubit, and what the fuser makes of them when it has
    to split at both times. *)
Definition two_steps : list Gate :=
  [gate1 0 0 0 false; gate1 0 1 0 false].

Definition two_steps_fused : list GateFused :=
  [mkFused (kGate 0) 0 1 [0] (mkPtr 0 (gate1 0 0 0 false))
     [mkPtr 0 (gate1 0 0 0 false)];
   mkFused (kGate 0) 1 1 [0] (mkPtr 1 (gate1 0 1 0 false))
     [mkPtr 1 (gate1 0 1 0 false)]].

(** A circuit with a gate on three qubits. *)
Definition three_qubit_gate : list Gate := [mkGate (kGate 0) 0 3 [0; 1; 2] false].

(** The circuit of the third scenario of the specification: three fusible
    gates on qubit 0 and a gate on both qubits. *)
Definition chain_then_pair : list Gate :=
  [mkGate (kGate 0) 0 1 [0] false; mkGate (kGate 0) 1 1 [0] false;
   mkGate (kGate 0) 2 1 [0] false; mkGate (kGate 1) 3 2 [0; 1] false].

(** A state of [N = 1] with something in a padding lane. *)
Definition padded_state : list Q :=
  [1%Q; 0%Q; 1%Q; 0%Q; 0%Q; 0%Q; 0%Q; 0%Q;
   0%Q; 0%Q; 0%Q; 0%Q; 0%Q; 0%Q; 0%Q; 0%Q].

(** The state [|0>] of one qubit. *)
Definition ket0 : list Q :=
  [1%Q; 0%Q; 0%Q; 0%Q; 0%Q; 0%Q; 0%Q; 0%Q;
   0%Q; 0%Q; 0%Q; 0%Q; 0%Q; 0%Q; 0%Q; 0%Q].

(** The state of one qubit that is zero everywhere. *)
Definition zero_state : list R := replicate 16 0%R.

(** The state [|0>] of one qubit, over the reals. *)
Definition ket0R : list R := 1%R :: replicate 15 0%R.

(** A buffer of the raw size of one qubit with 1 as the real part in the
    lanes 0, 2, 4 and 6; the lanes from 2 on are behind the two amplitudes
    of the state. *)
Definition padded_ones : list R :=
  [1%R; 0%R; 1%R; 0%R; 1%R; 0%R; 1%R; 0%R;
   0%R; 0%R; 0%R; 0%R; 0%R; 0%R; 0%R; 0%R].

(** The [float] values [0], [1], [1/2], [1/4] and [2^-100]. *)
Definition f32_0 : StateSpaceAVX.binary32 := SpecFloat.S754_zero false.
Definition f32_1 : StateSpaceAVX.binary32 :=
  SpecFloat.S754_finite false 8388608 (-23).
Definition f32_half : StateSpaceAVX.binary32 :=
  SpecFloat.S754_finite false 8388608 (-24).
Definition f32_quarter : StateSpaceAVX.binary32 :=
  SpecFloat.S754_finite false 8388608 (-25).
Definition f32_tiny : StateSpaceAVX.binary32 :=
  SpecFloat.S754_finite false 8388608 (-123).

(** [padded_ones] in [float]. *)
Definition padded_ones32 : list StateSpaceAVX.binary32 :=
  [f32_1; f32_0; f32_1; f32_0; f32_1; f32_0; f32_1; f32_0;
   f32_0; f32_0; f32_0; f32_0; f32_0; f32_0; f32_0; f32_0].

(** The state of one qubit whose amplitude 0 is [2^-100] and whose other
    lanes are zero, in [float]. *)
Definition tiny_ket32 : list StateSpaceAVX.binary32 :=
  f32_tiny :: replicate 15 f32_0.

(** A stand-in for the random draws: [num_samples] values spread evenly over
    [[0, max_value)], in increasing order. *)
Definition spread_values (num_samples seed : nat) (max_value : Q) : list Q :=
  map (fun i => (max_value * (inject_Z (Z.of_nat i) / inject_Z (Z.of_nat num_samples)))%Q)
      (seq 0 num_samples).

(** The trace of the run of [two_steps] with the entries [[0; 1]]. *)
Definition two_steps_trace : list QSimRunner.Event :=
  [QSimRunner.EvApply 0
     (mkFused (kGate 0) 0 1 [0] (mkPtr 0 (gate1 0 0 0 false))
        [mkPtr 0 (gate1 0 0 0 false)]);
   QSimRunner.EvMeasure 0;
   QSimRunner.EvApply 1
     (mkFused (kGate 0) 1 1 [0] (mkPtr 1 (gate1 0 1 0 false))
        [mkPtr 1 (gate1 0 1 0 false)]);
   QSimRunner.EvMeasure 1].

(** What the fuser makes of [two_steps] with one split time behind both
    gates. *)
Definition two_steps_merged : list GateFused :=
  [mkFused (kGate 0) 0 1 [0] (mkPtr 0 (gate1 0 0 0 false))
     [mkPtr 0 (gate1 0 0 0 false); mkPtr 1 (gate1 0 1 0 false)]].

(** A measurement of qubit [q] at time [t]. *)
Definition measure1 (t q : nat) : Gate := mkGate kMeasurement t 1 [q] false.

(** A gate on both qubits of a circuit of two. *)
Definition pair_gate : GatePtr := mkPtr 0 (mkGate (kGate 0) 0 2 [0; 1] false).

(** The slice of the sequential loop: all blocks. *)
Definition whole_0 (size m : nat) : nat := 0.
Definition whole_1 (size m : nat) : nat := size.

End Scenario.

(** * Properties *)

(** ** The fuser on the scenarios *)

Module FuserFacts.

Import BasicGateFuser Scenario.

(** C1.  The gate times [0, 2, 1] are not ordered, and still [FuseGates]
    returns a fused gate (the gate of time 0 alone) and sends nothing to
    [IO::errorf]: the window ends at the time of the last gate, 1, so the
    loop leaves at the gate of time 2 and never looks at the third gate. *)
Theorem FuseGates_unordered_021 :
  FuseGates 1 unordered_021 [] =
    Some ([mkFused (kGate 0) 0 1 [0] (mkPtr 0 (gate1 0 0 0 false))
                   [mkPtr 0 (gate1 0 0 0 false)]], []).
Proof. vm_compute. reflexivity. Qed.

(** When the descent lies inside one window it is noticed. *)
Lemma FuseGates_unordered_101 :
  FuseGates 1 unordered_101 [] = Some ([], [error_unordered]).
Proof. vm_compute. reflexivity. Qed.

(** C8, as stated: the fuser does not emit two fused gates. *)
Lemma FuseGates_unfusible_split_not_two :
  exists fused log,
    FuseGates 1 (unfusible_split 0 1 2) [] = Some (fused, log) /\
    length fused <> 2.
Proof.
  eexists _, _. split; [vm_compute; reflexivity|]. simpl. lia.
Qed.

(** C8, amended.  For three single-qubit gates on the qubit of a one-qubit
    circuit at times 0, 1 and 2, the one in the middle unfusible, [FuseGates]
    emits exactly one fused gate: it is anchored at the unfusible gate and
    its members are the gate of time 0, the anchor and the gate of time 2,
    in this order. *)
Theorem FuseGates_unfusible_split (id0 id1 id2 : nat) :
  let gates := unfusible_split id0 id1 id2 in
  FuseGates 1 gates [] =
    Some ([mkFused (kGate id1) 1 1 [0] (mkPtr 1 (gate1 id1 1 0 true))
             (pointers gates)], []).
Proof. vm_compute. reflexivity. Qed.

End FuserFacts.

Module FuserPartition.

Import BasicGateFuser Circuits Scenario.

(** *** Lists *)

Section Lists.

Context {A : Type}.

Lemma filter_eq_cons (P : A -> Prop) `{forall x, Decision (P x)} (l : list A) x r :
  filter P l = x :: r ->
  exists u v, l = u ++ x :: v /\ filter P u = [] /\ filter P v = r /\ P x.
Proof.
  induction l as [|y l IH]; [done|]. rewrite filter_cons.
  destruct (decide (P y)) as [Hy|Hy].
  - intros [= -> <-]. by exists [], l.
  - intros Hf. destruct (IH Hf) as (u & v & -> & Hu & Hv & Hx).
    exists (y :: u), v. split; [done|]. split; [|done].
    by rewrite filter_cons_False.
Qed.

Lemma filter_eq_app_cons (P : A -> Prop) `{forall x, Decision (P x)} (l : list A) a x b :
  filter P l = a ++ x :: b ->
  exists u v, l = u ++ x :: v /\ filter P u = a /\ filter P v = b /\ P x.
Proof.
  revert l. induction a as [|y a IH]; intros l Hf.
  - apply filter_eq_cons in Hf as (u & v & ? & ? & ? & ?). by exists u, v.
  - simpl in Hf. apply filter_eq_cons in Hf as (u & v & -> & Hu & Hv & Hy).
    destruct (IH _ Hv) as (u' & v' & -> & Hu' & Hv' & Hx).
    exists (u ++ y :: u'), v'. rewrite <- app_assoc. split; [done|].
    split; [|done]. rewrite filter_app, Hu, filter_cons_True by done.
    by rewrite Hu'.
Qed.

Lemma filter_nil_not_in (P : A -> Prop) `{forall x, Decision (P x)} (l : list A) x :
  filter P l = [] -> x ∈ l -> ~ P x.
Proof.
  intros Hf Hx HP.
  assert (Hin : x ∈ filter P l) by (by apply list_elem_of_filter).
  rewrite Hf in Hin. by apply not_elem_of_nil in Hin.
Qed.

(** Two ways of cutting a list without duplicates around the same element
    agree. *)
Lemma NoDup_cut_eq (l1 l2 l1' l2' : list A) x :
  NoDup (l1 ++ x :: l2) -> l1 ++ x :: l2 = l1' ++ x :: l2' ->
  l1 = l1' /\ l2 = l2'.
Proof.
  revert l1'. induction l1 as [|y l1 IH]; intros l1' Hnd Heq.
  - destruct l1' as [|y' l1']; simpl in *.
    + by injection Heq as <-.
    + injection Heq as <- ->. apply NoDup_cons in Hnd as [Hx _].
      exfalso. apply Hx. apply elem_of_app. right. by left.
  - destruct l1' as [|y' l1']; simpl in *.
    + injection Heq as -> <-. apply NoDup_cons in Hnd as [Hx _].
      exfalso. apply Hx. apply elem_of_app. right. by left.
    + injection Heq as <- Heq. apply NoDup_cons in Hnd as [_ Hnd].
      destruct (IH _ Hnd Heq) as [-> ->]. done.
Qed.

(** A cursor that has not passed [x] stands in the part in front of [x]. *)
Lemma take_not_in_cut (l1 l2 : list A) x k :
  x ∉ take k (l1 ++ x :: l2) -> k <= length l1.
Proof.
  intros Hnot. destruct (Nat.le_gt_cases k (length l1)) as [|Hk]; [done|].
  exfalso. apply Hnot. apply elem_of_take. exists (length l1).
  split; [|done]. by rewrite list_lookup_middle.
Qed.

Lemma take_in_cut (l1 l2 : list A) x k :
  NoDup (l1 ++ x :: l2) -> x ∈ take k (l1 ++ x :: l2) -> length l1 < k.
Proof.
  intros Hnd (i & Hi & Hik)%elem_of_take.
  assert (i = length l1); [|lia].
  eapply NoDup_lookup; [done|done|]. by rewrite list_lookup_middle.
Qed.

End Lists.

(** *** Pointers *)

Lemma pointers_addr (gates : list Gate) :
  addr <$> pointers gates = seq 0 (length gates).
Proof.
  unfold pointers. apply list_eq. intros i.
  rewrite list_lookup_fmap, list_lookup_imap.
  destruct (gates !! i) as [g|] eqn:Hg; simpl.
  - apply lookup_lt_Some in Hg as Hlt. by rewrite lookup_seq_lt.
  - apply lookup_ge_None in Hg. by rewrite lookup_seq_ge.
Qed.

Lemma pointers_NoDup (gates : list Gate) : NoDup (addr <$> pointers gates).
Proof. rewrite pointers_addr. apply NoDup_seq. Qed.

Lemma same_addr (ws : list GatePtr) p1 p2 :
  NoDup (addr <$> ws) -> p1 ∈ ws -> p2 ∈ ws -> addr p1 = addr p2 -> p1 = p2.
Proof.
  intros Hnd (i & Hi)%list_elem_of_lookup (j & Hj)%list_elem_of_lookup Ha.
  assert (i = j).
  { eapply NoDup_lookup; [exact Hnd| |].
    - by rewrite list_lookup_fmap, Hi.
    - by rewrite list_lookup_fmap, Hj, Ha. }
  subst. congruence.
Qed.

(** *** [Advance] *)

(** The test of the loop in [Advance]. *)
Definition fusibleb (p : GatePtr) : bool :=
  (num_qubits (pointee p) =? 1) && negb (unfusible (pointee p)).

Fixpoint fus_prefix (l : list GatePtr) : list GatePtr :=
  match l with
  | [] => []
  | p :: l' => if fusibleb p then p :: fus_prefix l' else []
  end.

Lemma advance_from_spec rest : forall k gates,
  advance_from rest k gates
  = (k + length (fus_prefix rest), gates ++ fus_prefix rest).
Proof.
  induction rest as [|p rest IH]; intros k gates; simpl.
  - by rewrite Nat.add_0_r, app_nil_r.
  - fold (fusibleb p). destruct (fusibleb p); simpl.
    + rewrite IH. rewrite <- app_assoc. simpl. f_equal. lia.
    + by rewrite Nat.add_0_r, app_nil_r.
Qed.

Lemma fus_prefix_stop (F : list GatePtr) p rest :
  Forall (fun x => fusibleb x = true) F -> fusibleb p = false ->
  fus_prefix (F ++ p :: rest) = F.
Proof.
  intros HF Hp. induction HF as [|x F Hx HF IH]; simpl.
  - by rewrite Hp.
  - by rewrite Hx, IH.
Qed.

Lemma fus_prefix_all (F : list GatePtr) :
  Forall (fun x => fusibleb x = true) F -> fus_prefix F = F.
Proof.
  intros HF. induction HF as [|x F Hx HF IH]; simpl; [done|].
  by rewrite Hx, IH.
Qed.

Lemma fus_prefix_split (l : list GatePtr) :
  exists rest,
    l = fus_prefix l ++ rest /\
    Forall (fun x => fusibleb x = true) (fus_prefix l) /\
    match rest with [] => True | p :: _ => fusibleb p = false end.
Proof.
  induction l as [|x l (rest & Hl & HF & Hr)]; simpl.
  - by exists [].
  - destruct (fusibleb x) eqn:Hx.
    + exists rest. simpl. split; [by rewrite <- Hl|]. split; [|done].
      by constructor.
    + exists (x :: l). simpl. done.
Qed.

(** [Advance] from a cursor in front of fusible gates followed by another
    gate stops at that gate. *)
Lemma Advance_stop (wl C F rest : list GatePtr) p gates :
  wl = C ++ F ++ p :: rest ->
  Forall (fun x => fusibleb x = true) F -> fusibleb p = false ->
  Advance (length C) wl gates = (length (C ++ F), gates ++ F).
Proof.
  intros -> HF Hp. unfold Advance. rewrite drop_app_length.
  rewrite advance_from_spec, fus_prefix_stop by done.
  by rewrite length_app.
Qed.

#[local] Instance GateKind_eq_dec : EqDecision GateKind.
Proof. solve_decision. Defined.
#[local] Instance Gate_eq_dec : EqDecision Gate.
Proof. solve_decision. Defined.
#[local] Instance GatePtr_eq_dec : EqDecision GatePtr.
Proof. solve_decision. Defined.

Lemma members_snoc (new : list GateFused) (f : GateFused) :
  members (new ++ [f]) = members new ++ fgates f.
Proof.
  unfold members. rewrite fmap_app, join_app. simpl. by rewrite app_nil_r.
Qed.

(** *** Kinds of gates *)

Definition unitaryb (p : GatePtr) : bool :=
  negb (is_measurement (kind (pointee p))).

(** The gate acts on qubit [q] and is not a measurement. *)
Definition onb (q : nat) (p : GatePtr) : bool :=
  unitaryb p && bool_decide (q ∈ qubits (pointee p)).

(** The gates that go to [gates_seq] without being measurements. *)
Definition anchorb (p : GatePtr) : bool := unitaryb p && negb (fusibleb p).

Lemma gate_shape (N : nat) (p : GatePtr) :
  gate_ok N (pointee p) = true -> unitaryb p = true ->
  (exists q0, qubits (pointee p) = [q0] /\ num_qubits (pointee p) = 1 /\ q0 < N)
  \/ (exists q0 q1, qubits (pointee p) = [q0; q1] /\ num_qubits (pointee p) = 2
                    /\ q0 < N /\ q1 < N /\ q0 <> q1).
Proof.
  unfold gate_ok, unitaryb. intros Hok Hu.
  destruct (is_measurement _); [done|]. simpl in Hok.
  destruct (qubits (pointee p)) as [|q0 [|q1 [|]]]; try done.
  - left. exists q0. apply andb_prop in Hok as [H1 H2].
    apply Nat.eqb_eq in H1. apply Nat.ltb_lt in H2. done.
  - right. exists q0, q1.
    apply andb_prop in Hok as [Hok H4]. apply andb_prop in Hok as [Hok H3].
    apply andb_prop in Hok as [H1 H2].
    apply Nat.eqb_eq in H1. apply Nat.ltb_lt in H2, H3.
    apply negb_true_iff, Nat.eqb_neq in H4. done.
Qed.

(** Of two gates of the list the later one is not older than the earlier
    one, and they do not clash. *)
Definition Ordered (l : list GatePtr) : Prop :=
  forall u x v y w,
    l = u ++ x :: v ++ y :: w ->
    time (pointee x) <= time (pointee y) /\ clash (pointee x) (pointee y) = false.

Lemma Ordered_app_l a b : Ordered (a ++ b) -> Ordered a.
Proof.
  intros H u x v y w ->. apply (H u x v y (w ++ b)).
  rewrite <- !app_assoc. simpl. rewrite <- !app_assoc. done.
Qed.

Lemma Ordered_app_r a b : Ordered (a ++ b) -> Ordered b.
Proof.
  intros H u x v y w ->. apply (H (a ++ u) x v y w).
  by rewrite <- !app_assoc.
Qed.

Lemma Ordered_cons p l :
  Ordered (p :: l) ->
  Forall (fun y => time (pointee p) <= time (pointee y)) l /\ Ordered l.
Proof.
  intros H. split.
  - apply Forall_forall. intros y (v & w & ->)%list_elem_of_split.
    by apply (H [] p v y w).
  - by apply (Ordered_app_r [p] l).
Qed.

Section Window.

Variable N : nat.
Variable ws : list GatePtr.
Hypothesis ws_NoDup : NoDup (addr <$> ws).
Hypothesis ws_ok : Forall (fun p => gate_ok N (pointee p) = true) ws.
Hypothesis ws_ordered : Ordered ws.

(** The line of qubit [q] in the lattice of the window. *)
Definition lat (q : nat) : list GatePtr := filter (fun p => onb q p = true) ws.

Lemma ws_NoDup' : NoDup ws.
Proof. by eapply NoDup_fmap_1. Qed.

Lemma lat_NoDup q : NoDup (lat q).
Proof. apply NoDup_filter, ws_NoDup'. Qed.

Lemma elem_of_lat q p : p ∈ lat q <-> onb q p = true /\ p ∈ ws.
Proof. unfold lat. by rewrite list_elem_of_filter. Qed.

Lemma shape p :
  p ∈ ws -> unitaryb p = true ->
  (exists q0, qubits (pointee p) = [q0] /\ num_qubits (pointee p) = 1 /\ q0 < N)
  \/ (exists q0 q1, qubits (pointee p) = [q0; q1] /\ num_qubits (pointee p) = 2
                    /\ q0 < N /\ q1 < N /\ q0 <> q1).
Proof.
  intros Hp Hu. apply gate_shape; [|done].
  rewrite Forall_forall in ws_ok. by apply ws_ok.
Qed.

(** A gate on one qubit stands in one line only. *)
Lemma one_line p q q' :
  num_qubits (pointee p) = 1 -> p ∈ lat q -> p ∈ lat q' -> q = q'.
Proof.
  intros H1 [Hq Hp]%elem_of_lat [Hq' _]%elem_of_lat.
  unfold onb in *. apply andb_prop in Hq as [Hu Hq], Hq' as [_ Hq'].
  apply bool_decide_eq_true in Hq, Hq'.
  destruct (shape p Hp Hu) as [(q0 & Hqs & _)|(q0 & q1 & _ & H2 & _)]; [|lia].
  rewrite Hqs in Hq, Hq'. apply list_elem_of_In in Hq, Hq'. simpl in *.
  intuition congruence.
Qed.

Lemma fusible_one p : fusibleb p = true -> num_qubits (pointee p) = 1.
Proof. unfold fusibleb. intros [H1 _]%andb_prop. by apply Nat.eqb_eq. Qed.

Lemma lat_unitary q p : p ∈ lat q -> unitaryb p = true.
Proof. intros [Hq _]%elem_of_lat. unfold onb in Hq. by apply andb_prop in Hq as [? _]. Qed.

Lemma lat_not_anchor q p : p ∈ lat q -> anchorb p = false -> fusibleb p = true.
Proof.
  intros Hu%lat_unitary. unfold anchorb. rewrite Hu. simpl.
  by intros ?%negb_false_iff.
Qed.

(** A gate on two qubits stands in the lines of exactly these. *)
Lemma two_lines p q0 q1 q :
  q0 <> q1 -> p ∈ lat q0 -> p ∈ lat q1 -> p ∈ lat q -> q = q0 \/ q = q1.
Proof.
  intros Hne [H0 Hp]%elem_of_lat [H1 _]%elem_of_lat [Hq _]%elem_of_lat.
  unfold onb in *. apply andb_prop in H0 as [Hu H0], H1 as [_ H1], Hq as [_ Hq].
  apply bool_decide_eq_true in H0, H1, Hq.
  destruct (shape p Hp Hu) as [(a & Hqs & _)|(a & b & Hqs & _)];
    rewrite Hqs in H0, H1, Hq; apply list_elem_of_In in H0, H1, Hq; simpl in *;
    intuition congruence.
Qed.

Lemma two_lines_num p q0 q1 :
  q0 <> q1 -> p ∈ lat q0 -> p ∈ lat q1 -> num_qubits (pointee p) = 2.
Proof.
  intros Hne H0 H1.
  destruct (shape p) as [(a & Hqs & Hn & _)|(a & b & _ & Hn & _)]; try done.
  - by apply elem_of_lat in H0 as [_ ?].
  - by eapply lat_unitary.
  - exfalso. apply Hne. by eapply one_line.
Qed.

(** **** The core of the invariant

    [last] are the cursors and [E] the members emitted so far in the
    window: a gate of a line is in front of the cursor of the line exactly
    when it has been emitted, and nothing has been emitted twice. *)
Record Core (last : list nat) (E : list GatePtr) : Prop := {
  core_len : length last = N;
  core_le : forall q k, last !! q = Some k -> k <= length (lat q);
  core_cursor : forall q k p,
    last !! q = Some k -> p ∈ lat q -> (p ∈ take k (lat q) <-> p ∈ E);
  core_NoDup : NoDup E;
  core_sub : forall p, p ∈ E -> p ∈ ws /\ unitaryb p = true
}.

Lemma Core_init : Core (replicate N 0) [].
Proof.
  split.
  - apply length_replicate.
  - intros q k [-> _]%lookup_replicate. lia.
  - intros q k p [-> _]%lookup_replicate _. simpl. done.
  - constructor.
  - intros p Hp. by apply not_elem_of_nil in Hp.
Qed.

(** Moving the cursor of line [q] over gates on one qubit. *)
Lemma Core_consume last E q k M R :
  Core last E -> last !! q = Some k ->
  lat q = take k (lat q) ++ M ++ R ->
  Forall (fun x => num_qubits (pointee x) = 1) M ->
  Core (<[q := k + length M]> last) (E ++ M).
Proof.
  intros HC Hk Hlat HM.
  assert (Hkl : length (take k (lat q)) = k).
  { rewrite length_take. pose proof (core_le _ _ HC q k Hk). lia. }
  assert (Hq : q < length last) by (by eapply lookup_lt_Some).
  assert (Htake : take (k + length M) (lat q) = take k (lat q) ++ M).
  { rewrite Hlat at 1. rewrite app_assoc.
    rewrite take_app_length'; [done|]. rewrite length_app. lia. }
  pose proof (lat_NoDup q) as Hnd. rewrite Hlat in Hnd.
  apply NoDup_app in Hnd as (_ & Hdisj & Hnd).
  apply NoDup_app in Hnd as (HndM & _ & _).
  assert (HMlat : forall x, x ∈ M -> x ∈ lat q).
  { intros x Hx. rewrite Hlat. set_solver. }
  assert (HME : forall x, x ∈ M -> x ∉ E).
  { intros x Hx HxE. apply (core_cursor _ _ HC q k x Hk (HMlat x Hx)) in HxE.
    apply (Hdisj x HxE). set_solver. }
  split.
  - rewrite length_insert. apply HC.
  - intros q' k' Hq'. destruct (decide (q = q')) as [<-|Hne].
    + rewrite list_lookup_insert_eq in Hq' by done. injection Hq' as <-.
      rewrite Hlat at 1. rewrite !length_app. lia.
    + rewrite list_lookup_insert_ne in Hq' by done. by eapply core_le.
  - intros q' k' p Hq' Hp. destruct (decide (q = q')) as [<-|Hne].
    + rewrite list_lookup_insert_eq in Hq' by done. injection Hq' as <-.
      rewrite Htake, !elem_of_app.
      by rewrite (core_cursor _ _ HC q k p Hk Hp).
    + rewrite list_lookup_insert_ne in Hq' by done.
      rewrite (core_cursor _ _ HC q' k' p Hq' Hp), elem_of_app.
      split; [by left|]. intros [?|HpM]; [done|]. exfalso. apply Hne.
      rewrite Forall_forall in HM.
      eapply one_line; [by apply HM|by apply HMlat|done].
  - apply NoDup_app. split; [apply HC|]. split; [|done].
    intros x HxE HxM. by apply (HME x).
  - intros p [HpE|HpM]%elem_of_app; [by apply HC|].
    split; [by apply HMlat, elem_of_lat in HpM as [_ ?]|].
    by eapply lat_unitary, HMlat.
Qed.

(** Moving the cursors of the lines [q0] and [q1] over the gate on both of
    them at which they stand. *)
Lemma Core_consume2 last E q0 q1 k0 k1 g R0 R1 :
  Core last E -> q0 <> q1 ->
  last !! q0 = Some k0 -> last !! q1 = Some k1 ->
  lat q0 = take k0 (lat q0) ++ g :: R0 ->
  lat q1 = take k1 (lat q1) ++ g :: R1 ->
  Core (<[q1 := k1 + 1]> (<[q0 := k0 + 1]> last)) (E ++ [g]).
Proof.
  intros HC Hne Hk0 Hk1 Hlat0 Hlat1.
  assert (Hl0 : length (take k0 (lat q0)) = k0).
  { rewrite length_take. pose proof (core_le _ _ HC q0 k0 Hk0). lia. }
  assert (Hl1 : length (take k1 (lat q1)) = k1).
  { rewrite length_take. pose proof (core_le _ _ HC q1 k1 Hk1). lia. }
  assert (Hq0 : q0 < length last) by (by eapply lookup_lt_Some).
  assert (Hq1 : q1 < length last) by (by eapply lookup_lt_Some).
  assert (Hg0 : g ∈ lat q0) by (rewrite Hlat0; set_solver).
  assert (Hg1 : g ∈ lat q1) by (rewrite Hlat1; set_solver).
  assert (Ht0 : take (k0 + 1) (lat q0) = take k0 (lat q0) ++ [g]).
  { rewrite Hlat0 at 1. rewrite (cons_middle g), app_assoc.
    rewrite take_app_length'; [done|]. rewrite length_app. simpl. lia. }
  assert (Ht1 : take (k1 + 1) (lat q1) = take k1 (lat q1) ++ [g]).
  { rewrite Hlat1 at 1. rewrite (cons_middle g), app_assoc.
    rewrite take_app_length'; [done|]. rewrite length_app. simpl. lia. }
  assert (HgE : g ∉ E).
  { intros HgE. apply (core_cursor _ _ HC q0 k0 g Hk0 Hg0) in HgE.
    pose proof (lat_NoDup q0) as Hnd. rewrite Hlat0 in Hnd.
    apply NoDup_app in Hnd as (_ & Hdisj & _). apply (Hdisj g HgE). by left. }
  split.
  - rewrite !length_insert. apply HC.
  - intros q k Hq. destruct (decide (q1 = q)) as [<-|Hn1].
    + rewrite list_lookup_insert_eq in Hq by (by rewrite length_insert).
      injection Hq as <-. rewrite Hlat1 at 1. rewrite length_app. simpl. lia.
    + rewrite list_lookup_insert_ne in Hq by done.
      destruct (decide (q0 = q)) as [<-|Hn0].
      * rewrite list_lookup_insert_eq in Hq by done. injection Hq as <-.
        rewrite Hlat0 at 1. rewrite length_app. simpl. lia.
      * rewrite list_lookup_insert_ne in Hq by done. by eapply core_le.
  - intros q k p Hq Hp. destruct (decide (q1 = q)) as [<-|Hn1].
    + rewrite list_lookup_insert_eq in Hq by (by rewrite length_insert).
      injection Hq as <-. rewrite Ht1, !elem_of_app.
      by rewrite (core_cursor _ _ HC q1 k1 p Hk1 Hp).
    + rewrite list_lookup_insert_ne in Hq by done.
      destruct (decide (q0 = q)) as [<-|Hn0].
      * rewrite list_lookup_insert_eq in Hq by done. injection Hq as <-.
        rewrite Ht0, !elem_of_app.
        by rewrite (core_cursor _ _ HC q0 k0 p Hk0 Hp).
      * rewrite list_lookup_insert_ne in Hq by done.
        rewrite (core_cursor _ _ HC q k p Hq Hp), elem_of_app.
        split; [by left|]. intros [?|Hpg]; [done|]. exfalso.
        apply list_elem_of_singleton in Hpg as ->.
        destruct (two_lines g q0 q1 q Hne Hg0 Hg1 Hp); congruence.
  - apply NoDup_app. split; [apply HC|]. split; [|apply NoDup_singleton].
    intros x HxE ->%list_elem_of_singleton. done.
  - intros p [HpE|Hpg]%elem_of_app; [by apply HC|].
    apply list_elem_of_singleton in Hpg as ->.
    split; [by apply elem_of_lat in Hg0 as [_ ?]|by eapply lat_unitary].
Qed.

(** **** The lattice as the code has it *)

Definition lattice : list (list GatePtr) := lat <$> seq 0 N.

Lemma lattice_lookup q : q < N -> lattice !! q = Some (lat q).
Proof.
  intros Hq. unfold lattice. by rewrite list_lookup_fmap, lookup_seq_lt.
Qed.

Lemma Advance_at (wl C R gates : list GatePtr) :
  wl = C ++ R ->
  Advance (length C) wl gates
  = (length C + length (fus_prefix R), gates ++ fus_prefix R).
Proof.
  intros ->. unfold Advance. by rewrite drop_app_length, advance_from_spec.
Qed.

Lemma take_length_cursor last E q k :
  Core last E -> last !! q = Some k -> length (take k (lat q)) = k.
Proof.
  intros HC Hk. rewrite length_take. pose proof (core_le _ _ HC q k Hk). lia.
Qed.

(** In front of a gate of [gates_seq] that has not been emitted, the line of
    each of its qubits holds fusible gates only, from the cursor on,
    provided the earlier gates of [gates_seq] have been emitted. *)
Lemma head_cut w1 p w2 last E q k :
  ws = w1 ++ p :: w2 -> Core last E ->
  (forall x, x ∈ w1 -> anchorb x = true -> x ∈ E) ->
  onb q p = true -> p ∉ E -> last !! q = Some k ->
  exists F R,
    lat q = take k (lat q) ++ F ++ p :: R /\
    Forall (fun x => fusibleb x = true) F.
Proof.
  intros Hws HC Hanch Hq HpE Hk.
  set (A := filter (fun x => onb q x = true) w1).
  set (B := filter (fun x => onb q x = true) w2).
  assert (Hlat : lat q = A ++ p :: B).
  { unfold lat. rewrite Hws, filter_app, filter_cons_True by done. done. }
  assert (Hp : p ∈ lat q).
  { rewrite Hlat. apply elem_of_app. right. by left. }
  assert (HkA : k <= length A).
  { apply (take_not_in_cut A B p). rewrite <- Hlat.
    by rewrite (core_cursor _ _ HC q k p Hk Hp). }
  assert (Htake : take k (lat q) = take k A).
  { rewrite Hlat. by rewrite take_app_le. }
  exists (drop k A), B. split.
  { rewrite Htake, app_assoc, take_drop. done. }
  apply Forall_forall. intros x Hx.
  assert (HxA : x ∈ A) by (by eapply subseteq_drop).
  assert (Hxlat : x ∈ lat q).
  { rewrite Hlat. apply elem_of_app. by left. }
  apply (lat_not_anchor q x Hxlat).
  destruct (anchorb x) eqn:Hax; [|done]. exfalso.
  assert (Hxw : x ∈ w1).
  { unfold A in HxA. by apply list_elem_of_filter in HxA as [_ ?]. }
  pose proof (Hanch x Hxw Hax) as HxE.
  apply (core_cursor _ _ HC q k x Hk Hxlat) in HxE. rewrite Htake in HxE.
  pose proof (lat_NoDup q) as Hnd. rewrite Hlat in Hnd.
  apply NoDup_app in Hnd as (HndA & _ & _).
  rewrite <- (take_drop k A) in HndA.
  apply NoDup_app in HndA as (_ & Hdisj & _). by apply (Hdisj x).
Qed.

(** **** One round of the loop of a two-qubit anchor *)

Lemma insert_twice (last : list nat) q0 q1 a a' b b' :
  q0 <> q1 -> q0 < length last -> q1 < length last ->
  <[q1 := b']> (<[q0 := a']> (<[q1 := b]> (<[q0 := a]> last)))
  = <[q1 := b']> (<[q0 := a']> (<[q1 := b + 1]> (<[q0 := a + 1]>
      (<[q1 := b]> (<[q0 := a]> last))))).
Proof.
  intros Hne Hl0 Hl1. apply list_eq. intros i.
  destruct (decide (q1 = i)) as [<-|H1];
    [|destruct (decide (q0 = i)) as [<-|H0]].
  - rewrite list_lookup_insert_eq by (rewrite !length_insert; lia).
    rewrite list_lookup_insert_eq by (rewrite !length_insert; lia). done.
  - rewrite (list_lookup_insert_ne _ q1 q0) by done.
    rewrite (list_lookup_insert_ne _ q1 q0) by done.
    rewrite list_lookup_insert_eq by (rewrite !length_insert; lia).
    rewrite list_lookup_insert_eq by (rewrite !length_insert; lia). done.
  - by rewrite !list_lookup_insert_ne by done.
Qed.

Lemma fuse_round_spec last E gates q0 q1 k0 k1 g F0 F1 R0 R1 :
  Core last E -> q0 <> q1 -> q0 < N -> q1 < N ->
  last !! q0 = Some k0 -> last !! q1 = Some k1 ->
  lat q0 = take k0 (lat q0) ++ F0 ++ g :: R0 ->
  Forall (fun x => fusibleb x = true) F0 ->
  lat q1 = take k1 (lat q1) ++ F1 ++ g :: R1 ->
  Forall (fun x => fusibleb x = true) F1 ->
  exists last',
    let added := F0 ++ F1 ++ [g] ++ fus_prefix R0 ++ fus_prefix R1 in
    fuse_round q0 q1 lattice last gates = Some (last', gates ++ added) /\
    Core last' (E ++ added) /\
    last' !! q0 = Some (k0 + length F0 + 1 + length (fus_prefix R0)) /\
    last' !! q1 = Some (k1 + length F1 + 1 + length (fus_prefix R1)).
Proof.
  intros HC Hne Hq0 Hq1 Hk0 Hk1 Hlat0 HF0 Hlat1 HF1.
  pose proof (take_length_cursor _ _ _ _ HC Hk0) as Hl0.
  pose proof (take_length_cursor _ _ _ _ HC Hk1) as Hl1.
  assert (Hq0' : q0 < length last) by (by eapply lookup_lt_Some).
  assert (Hq1' : q1 < length last) by (by eapply lookup_lt_Some).
  assert (Hg0 : g ∈ lat q0).
  { rewrite Hlat0, !elem_of_app. right. right. by left. }
  assert (Hg1 : g ∈ lat q1).
  { rewrite Hlat1, !elem_of_app. right. right. by left. }
  assert (Hgf : fusibleb g = false).
  { destruct (fusibleb g) eqn:Hf; [|done]. exfalso. apply Hne.
    eapply one_line; [by apply fusible_one|done|done]. }
  set (T0 := fus_prefix R0). set (T1 := fus_prefix R1).
  set (a := k0 + length F0). set (b := k1 + length F1).
  set (a' := a + 1 + length T0). set (b' := b + 1 + length T1).
  exists (<[q1 := b']> (<[q0 := a']> (<[q1 := b]> (<[q0 := a]> last)))).
  split; [|split; [|split]].
  - unfold fuse_round. rewrite !lattice_lookup by done. simpl.
    rewrite Hk0. simpl.
    rewrite <- Hl0 at 1.
    rewrite (Advance_stop (lat q0) (take k0 (lat q0)) F0 R0 g gates Hlat0 HF0 Hgf).
    rewrite length_app, Hl0. fold a.
    rewrite list_lookup_insert_ne by done. rewrite Hk1. simpl.
    rewrite <- Hl1 at 1.
    rewrite (Advance_stop (lat q1) (take k1 (lat q1)) F1 R1 g _ Hlat1 HF1 Hgf).
    rewrite length_app, Hl1. fold b.
    rewrite list_lookup_insert_ne by done.
    rewrite list_lookup_insert_eq by done. simpl.
    assert (Hga : lat q0 !! a = Some g).
    { rewrite Hlat0, app_assoc. unfold a. rewrite <- Hl0 at 1.
      rewrite <- length_app. apply list_lookup_middle. done. }
    rewrite Hga. simpl.
    assert (Ha1 : a + 1 = length (take k0 (lat q0) ++ F0 ++ [g])).
    { rewrite !length_app, Hl0. simpl. unfold a. lia. }
    rewrite Ha1.
    rewrite (Advance_at (lat q0) (take k0 (lat q0) ++ F0 ++ [g]) R0); last first.
    { rewrite Hlat0 at 1. by rewrite <- !app_assoc. }
    rewrite <- Ha1. fold T0. fold a'.
    rewrite list_lookup_insert_ne by done.
    rewrite list_lookup_insert_eq by (by rewrite length_insert). simpl.
    assert (Hb1 : b + 1 = length (take k1 (lat q1) ++ F1 ++ [g])).
    { rewrite !length_app, Hl1. simpl. unfold b. lia. }
    rewrite Hb1.
    rewrite (Advance_at (lat q1) (take k1 (lat q1) ++ F1 ++ [g]) R1); last first.
    { rewrite Hlat1 at 1. by rewrite <- !app_assoc. }
    rewrite <- Hb1. fold T1. fold b'.
    by rewrite <- !app_assoc.
  - destruct (fus_prefix_split R0) as (R0' & HR0 & HT0 & _).
    destruct (fus_prefix_split R1) as (R1' & HR1 & HT1 & _).
    fold T0 in HR0, HT0. fold T1 in HR1, HT1.
    rewrite (insert_twice last q0 q1 a a' b b') by done.
    assert (C1 : Core (<[q0 := a]> last) (E ++ F0)).
    { eapply (Core_consume last E q0 k0 F0 (g :: R0)); try done.
      eapply Forall_impl; [exact HF0|]. intros x. apply fusible_one. }
    assert (C2 : Core (<[q1 := b]> (<[q0 := a]> last)) ((E ++ F0) ++ F1)).
    { eapply (Core_consume _ _ q1 k1 F1 (g :: R1)); try done.
      - by rewrite list_lookup_insert_ne.
      - eapply Forall_impl; [exact HF1|]. intros x. apply fusible_one. }
    assert (Hta : take a (lat q0) = take k0 (lat q0) ++ F0).
    { rewrite Hlat0 at 1. rewrite app_assoc. rewrite take_app_length'; [done|].
      rewrite length_app. unfold a. lia. }
    assert (Htb : take b (lat q1) = take k1 (lat q1) ++ F1).
    { rewrite Hlat1 at 1. rewrite app_assoc. rewrite take_app_length'; [done|].
      rewrite length_app. unfold b. lia. }
    assert (C3 : Core (<[q1 := b + 1]> (<[q0 := a + 1]>
                   (<[q1 := b]> (<[q0 := a]> last))))
                   (((E ++ F0) ++ F1) ++ [g])).
    { eapply (Core_consume2 _ _ q0 q1 a b g R0 R1); try done.
      - rewrite list_lookup_insert_ne by done.
        by rewrite list_lookup_insert_eq.
      - by rewrite list_lookup_insert_eq by (by rewrite length_insert).
      - rewrite Hta. by rewrite <- app_assoc.
      - rewrite Htb. by rewrite <- app_assoc. }
    assert (Hta1 : take (a + 1) (lat q0) = take k0 (lat q0) ++ F0 ++ [g]).
    { rewrite Hlat0 at 1. rewrite (cons_middle g), !app_assoc.
      rewrite take_app_length'; [done|]. rewrite !length_app. simpl.
      unfold a. lia. }
    assert (Htb1 : take (b + 1) (lat q1) = take k1 (lat q1) ++ F1 ++ [g]).
    { rewrite Hlat1 at 1. rewrite (cons_middle g), !app_assoc.
      rewrite take_app_length'; [done|]. rewrite !length_app. simpl.
      unfold b. lia. }
    assert (C4 : Core (<[q0 := a']> (<[q1 := b + 1]> (<[q0 := a + 1]>
                   (<[q1 := b]> (<[q0 := a]> last)))))
                   ((((E ++ F0) ++ F1) ++ [g]) ++ T0)).
    { eapply (Core_consume _ _ q0 (a + 1) T0 R0'); try done.
      - rewrite list_lookup_insert_ne by done.
        by rewrite list_lookup_insert_eq by (by rewrite !length_insert).
      - rewrite Hta1. rewrite Hlat0 at 1. rewrite HR0 at 1.
        by rewrite <- !app_assoc.
      - eapply Forall_impl; [exact HT0|]. intros x. apply fusible_one. }
    assert (C5 : Core (<[q1 := b']> (<[q0 := a']> (<[q1 := b + 1]>
                   (<[q0 := a + 1]> (<[q1 := b]> (<[q0 := a]> last))))))
                   (((((E ++ F0) ++ F1) ++ [g]) ++ T0) ++ T1)).
    { eapply (Core_consume _ _ q1 (b + 1) T1 R1'); try done.
      - rewrite list_lookup_insert_ne by done.
        by rewrite list_lookup_insert_eq by (by rewrite !length_insert).
      - rewrite Htb1. rewrite Hlat1 at 1. rewrite HR1 at 1.
        by rewrite <- !app_assoc.
      - eapply Forall_impl; [exact HT1|]. intros x. apply fusible_one. }
    by rewrite <- !app_assoc in C5.
  - rewrite list_lookup_insert_ne by done.
    by rewrite list_lookup_insert_eq by (by rewrite !length_insert).
  - by rewrite list_lookup_insert_eq by (by rewrite !length_insert).
Qed.

Lemma fusible_not_anchor x : fusibleb x = true -> anchorb x = false.
Proof. unfold anchorb. intros ->. by rewrite andb_false_r. Qed.

Lemma fuse_pair_spec q0 q1 fuel :
  forall last E gates k0 k1 g F0 F1 R0 R1,
    Core last E -> q0 <> q1 -> q0 < N -> q1 < N ->
    last !! q0 = Some k0 -> last !! q1 = Some k1 ->
    lat q0 = take k0 (lat q0) ++ F0 ++ g :: R0 ->
    Forall (fun x => fusibleb x = true) F0 ->
    lat q1 = take k1 (lat q1) ++ F1 ++ g :: R1 ->
    Forall (fun x => fusibleb x = true) F1 ->
    length R0 < fuel ->
    exists last' added,
      fuse_pair fuel q0 q1 lattice last gates = Some (last', gates ++ added) /\
      Core last' (E ++ added) /\
      g ∈ added /\
      (forall x, x ∈ added -> anchorb x = true -> num_qubits (pointee x) = 2).
Proof.
  induction fuel as [|fuel IH];
    intros last E gates k0 k1 g F0 F1 R0 R1 HC Hne Hq0 Hq1 Hk0 Hk1 Hlat0 HF0
      Hlat1 HF1 Hfuel; [lia|].
  destruct (fuse_round_spec last E gates q0 q1 k0 k1 g F0 F1 R0 R1)
    as (last1 & Hround & HC1 & Ha' & Hb'); try done.
  cbv zeta in Hround, HC1.
  set (added1 := F0 ++ F1 ++ [g] ++ fus_prefix R0 ++ fus_prefix R1) in *.
  assert (Hg0 : g ∈ lat q0).
  { rewrite Hlat0, !elem_of_app. right. right. by left. }
  assert (Hg1 : g ∈ lat q1).
  { rewrite Hlat1, !elem_of_app. right. right. by left. }
  assert (Hadded1 : forall x, x ∈ added1 -> anchorb x = true ->
                              num_qubits (pointee x) = 2).
  { intros x Hx Hax. unfold added1 in Hx.
    destruct (fus_prefix_split R0) as (? & _ & HT0 & _).
    destruct (fus_prefix_split R1) as (? & _ & HT1 & _).
    rewrite Forall_forall in HF0, HF1, HT0, HT1.
    rewrite !elem_of_app in Hx.
    destruct Hx as [Hx|[Hx|[Hx|[Hx|Hx]]]].
    - by rewrite (fusible_not_anchor x (HF0 x Hx)) in Hax.
    - by rewrite (fusible_not_anchor x (HF1 x Hx)) in Hax.
    - apply list_elem_of_singleton in Hx as ->. by eapply two_lines_num.
    - by rewrite (fusible_not_anchor x (HT0 x Hx)) in Hax.
    - by rewrite (fusible_not_anchor x (HT1 x Hx)) in Hax. }
  assert (Hgadded : g ∈ added1).
  { unfold added1. rewrite !elem_of_app. right. right. left. by left. }
  cbn [fuse_pair]. rewrite Hround. simpl.
  rewrite !lattice_lookup by done. simpl. rewrite Ha', Hb'. simpl.
  set (a' := k0 + length F0 + 1 + length (fus_prefix R0)) in *.
  set (b' := k1 + length F1 + 1 + length (fus_prefix R1)) in *.
  unfold NextGate.
  destruct (lat q0 !! a') as [h0|] eqn:Hh0; [|by exists last1, added1].
  destruct (lat q1 !! b') as [h1|] eqn:Hh1; [|by exists last1, added1].
  destruct (addr h0 =? addr h1) eqn:Haddr; [|by exists last1, added1].
  apply Nat.eqb_eq in Haddr.
  assert (Hh0lat : h0 ∈ lat q0) by (by eapply list_elem_of_lookup_2).
  assert (Hh1lat : h1 ∈ lat q1) by (by eapply list_elem_of_lookup_2).
  assert (h0 = h1) as <-.
  { apply (same_addr ws); try done.
    - by apply elem_of_lat in Hh0lat as [_ ?].
    - by apply elem_of_lat in Hh1lat as [_ ?]. }
  pose proof (take_length_cursor _ _ _ _ HC Hk0) as Hl0.
  assert (Hlen0 : length (lat q0) = k0 + length F0 + 1 + length R0).
  { rewrite Hlat0 at 1. rewrite !length_app, Hl0. simpl. lia. }
  destruct (IH last1 (E ++ added1) (gates ++ added1) a' b' h0 [] []
              (drop (S a') (lat q0)) (drop (S b') (lat q1)))
    as (last' & added2 & Hrec & HC' & _ & Hadded2); try done.
  { simpl. by rewrite take_drop_middle. }
  { simpl. by rewrite take_drop_middle. }
  { rewrite length_drop. apply lookup_lt_Some in Hh0. lia. }
  exists last', (added1 ++ added2). rewrite Hrec.
  split; [by rewrite <- app_assoc|]. split; [by rewrite app_assoc|].
  split; [apply elem_of_app; by left|].
  intros x [Hx|Hx]%elem_of_app; [by apply Hadded1|by apply Hadded2].
Qed.

(** **** The test [Done] *)

Lemma lat_order q a x b y c :
  lat q = a ++ x :: b ++ y :: c ->
  time (pointee x) < time (pointee y).
Proof.
  intros Hlat. unfold lat in Hlat.
  apply filter_eq_app_cons in Hlat as (u & v & Hws & _ & Hv & Hx).
  apply filter_eq_app_cons in Hv as (u' & v' & -> & _ & _ & Hy).
  destruct (ws_ordered _ _ _ _ _ Hws) as [Hle Hclash].
  unfold onb in Hx, Hy.
  apply andb_prop in Hx as [Hux Hqx], Hy as [Huy Hqy].
  apply bool_decide_eq_true in Hqx, Hqy.
  unfold clash in Hclash. unfold unitaryb in Hux, Huy.
  rewrite Hux, Huy in Hclash. simpl in Hclash.
  assert (Hex : existsb (fun q' => bool_decide (q' ∈ qubits (pointee y)))
                        (qubits (pointee x)) = true).
  { apply existsb_exists. exists q. split; [by apply list_elem_of_In|].
    by apply bool_decide_eq_true. }
  rewrite Hex, andb_true_r in Hclash. apply Nat.eqb_neq in Hclash. lia.
Qed.

Lemma Done_emitted last E q0 k0 p :
  Core last E -> last !! q0 = Some k0 -> p ∈ lat q0 -> p ∈ E ->
  Done k0 (time (pointee p)) (lat q0) = true.
Proof.
  intros HC Hk0 Hp HpE. unfold Done.
  destruct (lat q0 !! k0) as [h|] eqn:Hh; [|done].
  apply Nat.ltb_lt.
  apply (core_cursor _ _ HC q0 k0 p Hk0 Hp) in HpE.
  apply list_elem_of_split in HpE as (a & b & Htake).
  apply (lat_order q0 a p b h (drop (S k0) (lat q0))).
  rewrite <- (take_drop_middle (lat q0) k0 h Hh) at 1.
  rewrite Htake. by rewrite <- app_assoc.
Qed.

Lemma Done_not_emitted q0 k0 p F R :
  lat q0 = take k0 (lat q0) ++ F ++ p :: R ->
  length (take k0 (lat q0)) = k0 ->
  Done k0 (time (pointee p)) (lat q0) = false.
Proof.
  intros Hlat Hl. unfold Done. destruct F as [|x F]; simpl in Hlat.
  - assert (Hh : lat q0 !! k0 = Some p).
    { rewrite Hlat. by apply list_lookup_middle. }
    rewrite Hh. apply Nat.ltb_irrefl.
  - assert (Hh : lat q0 !! k0 = Some x).
    { rewrite Hlat. by apply list_lookup_middle. }
    rewrite Hh. apply Nat.ltb_ge.
    pose proof (lat_order q0 _ x F p R Hlat). lia.
Qed.

Lemma Advance_stop_k (wl F rest : list GatePtr) k p gates :
  wl = take k wl ++ F ++ p :: rest -> length (take k wl) = k ->
  Forall (fun x => fusibleb x = true) F -> fusibleb p = false ->
  Advance k wl gates = (k + length F, gates ++ F).
Proof.
  intros Hwl Hl HF Hp.
  pose proof (Advance_stop wl (take k wl) F rest p gates Hwl HF Hp) as HA.
  by rewrite length_app, Hl in HA.
Qed.

Lemma Advance_at_k (wl C R : list GatePtr) k gates :
  wl = C ++ R -> length C = k ->
  Advance k wl gates = (k + length (fus_prefix R), gates ++ fus_prefix R).
Proof. intros Hwl <-. by apply Advance_at. Qed.

(** **** The invariant of the loop over [gates_seq]

    [w1] is the part of the window whose anchors have been dealt with,
    [new] are the fused gates of the window so far. *)
Variable fused0 : list GateFused.

Record Inv (w1 : list GatePtr) (S : FuseState) (new : list GateFused) : Prop := {
  inv_fused : gates_fused S = fused0 ++ new;
  inv_core : Core (last_ S) (members new);
  inv_anchors : forall p, p ∈ w1 -> anchorb p = true -> p ∈ members new;
  inv_one : forall p,
    p ∈ members new -> anchorb p = true -> num_qubits (pointee p) = 1 -> p ∈ w1;
  inv_master : Forall (fun f => pmaster f ∈ fgates f) new;
  inv_delayed : forall pg,
    delayed_measurement_gate S = Some pg -> unitaryb pg = false
}.

Lemma Inv_init : Inv [] (mkFuse (replicate N 0) None fused0) [].
Proof.
  split; simpl.
  - by rewrite app_nil_r.
  - apply Core_init.
  - intros p Hp. by apply not_elem_of_nil in Hp.
  - intros p Hp. by apply not_elem_of_nil in Hp.
  - constructor.
  - done.
Qed.

Lemma Inv_extend w1 u S new :
  Inv w1 S new -> (forall x, x ∈ u -> anchorb x = false) -> Inv (w1 ++ u) S new.
Proof.
  intros HI Hu. split; try apply HI.
  - intros p [Hp|Hp]%elem_of_app Ha; [by eapply inv_anchors|].
    by rewrite (Hu p Hp) in Ha.
  - intros p Hp Ha H1. apply elem_of_app. left. by eapply inv_one.
Qed.

Lemma fuse_anchor_measurement w1 p S new :
  unitaryb p = false -> Inv w1 S new ->
  exists S', fuse_anchor lattice p S = Some S' /\ Inv w1 S' new.
Proof.
  intros Hu HI. unfold fuse_anchor. unfold unitaryb in Hu.
  apply negb_false_iff in Hu. rewrite Hu. eexists. split; [done|].
  split; simpl; try apply HI.
  intros pg [= <-]. unfold unitaryb. by rewrite Hu.
Qed.

Lemma anchor_one_qubit w1 p w2 S new q0 :
  ws = w1 ++ p :: w2 -> anchorb p = true -> Inv w1 S new ->
  qubits (pointee p) = [q0] -> num_qubits (pointee p) = 1 -> q0 < N ->
  exists S' new', fuse_anchor lattice p S = Some S' /\ Inv (w1 ++ [p]) S' new'.
Proof.
  intros Hws Ha HI Hqs Hn Hq0.
  assert (Hu : unitaryb p = true).
  { unfold anchorb in Ha. by apply andb_prop in Ha as [? _]. }
  assert (Hf : fusibleb p = false).
  { unfold anchorb in Ha. apply andb_prop in Ha as [_ Hf].
    by apply negb_true_iff in Hf. }
  assert (Hpws : p ∈ ws).
  { rewrite Hws. apply elem_of_app. right. by left. }
  assert (Hon : onb q0 p = true).
  { unfold onb. rewrite Hu, Hqs. simpl. apply bool_decide_eq_true. by left. }
  assert (HpE : p ∉ members new).
  { intros HpE. pose proof (inv_one _ _ _ HI p HpE Ha Hn) as Hpw1.
    pose proof ws_NoDup' as Hnd. rewrite Hws in Hnd.
    apply NoDup_app in Hnd as (_ & Hdisj & _). apply (Hdisj p Hpw1). by left. }
  pose proof (inv_core _ _ _ HI) as HC.
  destruct (lookup_lt_is_Some_2 (last_ S) q0) as [k Hk].
  { by rewrite (core_len _ _ HC). }
  destruct (head_cut w1 p w2 (last_ S) (members new) q0 k Hws HC
              (inv_anchors _ _ _ HI) Hon HpE Hk) as (F & R & Hlat & HF).
  pose proof (take_length_cursor _ _ _ _ HC Hk) as Hl.
  destruct (fus_prefix_split R) as (R' & HR & HT & _).
  set (T := fus_prefix R) in *.
  set (f := mkFused (kind (pointee p)) (time (pointee p)) 1 [q0] p
              ((F ++ [p]) ++ T)).
  exists (mkFuse (<[q0 := k + length F + 1 + length T]> (last_ S))
            (delayed_measurement_gate S) (gates_fused S ++ [f])),
         (new ++ [f]).
  split.
  - unfold fuse_anchor. unfold unitaryb in Hu. apply negb_true_iff in Hu.
    rewrite Hu, Hn, Hqs. simpl. rewrite lattice_lookup by done. simpl.
    rewrite Hk. simpl.
    rewrite (Advance_stop_k (lat q0) F R k p [] Hlat Hl HF Hf). simpl.
    assert (Hg : lat q0 !! (k + length F) = Some p).
    { rewrite Hlat, app_assoc. apply list_lookup_middle.
      rewrite length_app. lia. }
    rewrite Hg. simpl.
    rewrite (Advance_at_k (lat q0) (take k (lat q0) ++ F ++ [p]) R).
    + done.
    + rewrite Hlat at 1. by rewrite <- !app_assoc.
    + rewrite !length_app, Hl. simpl. lia.
  - assert (HM : Forall (fun x => num_qubits (pointee x) = 1) ((F ++ [p]) ++ T)).
    { rewrite !Forall_app. split; [split|].
      - eapply Forall_impl; [exact HF|]. intros x. apply fusible_one.
      - by constructor.
      - eapply Forall_impl; [exact HT|]. intros x. apply fusible_one. }
    split; simpl.
    + rewrite (inv_fused _ _ _ HI). by rewrite <- app_assoc.
    + rewrite members_snoc. simpl.
      replace (k + length F + 1 + length T)
        with (k + length ((F ++ [p]) ++ T))
        by (rewrite !length_app; simpl; lia).
      eapply (Core_consume _ _ q0 k _ R'); try done.
      rewrite Hlat at 1. rewrite HR at 1. by rewrite <- !app_assoc.
    + intros x [Hx|Hx]%elem_of_app Hax.
      * rewrite members_snoc. apply elem_of_app. left.
        by eapply inv_anchors.
      * apply list_elem_of_singleton in Hx as ->. rewrite members_snoc.
        simpl. rewrite !elem_of_app. right. left. right. by left.
    + intros x Hx Hax Hx1. rewrite members_snoc in Hx. simpl in Hx.
      rewrite !elem_of_app in Hx. rewrite Forall_forall in HF, HT.
      destruct Hx as [Hx|[[Hx|Hx]|Hx]].
      * apply elem_of_app. left. by eapply inv_one.
      * by rewrite (fusible_not_anchor x (HF x Hx)) in Hax.
      * apply elem_of_app. by right.
      * by rewrite (fusible_not_anchor x (HT x Hx)) in Hax.
    + apply Forall_app. split; [apply HI|]. constructor; [|constructor].
      simpl. rewrite !elem_of_app. left. right. by left.
    + apply HI.
Qed.

Lemma anchor_two_qubits w1 p w2 S new q0 q1 :
  ws = w1 ++ p :: w2 -> anchorb p = true -> Inv w1 S new ->
  qubits (pointee p) = [q0; q1] -> num_qubits (pointee p) = 2 ->
  q0 < N -> q1 < N -> q0 <> q1 ->
  exists S' new', fuse_anchor lattice p S = Some S' /\ Inv (w1 ++ [p]) S' new'.
Proof.
  intros Hws Ha HI Hqs Hn Hq0 Hq1 Hne.
  assert (Hu : unitaryb p = true).
  { unfold anchorb in Ha. by apply andb_prop in Ha as [? _]. }
  assert (Hpws : p ∈ ws).
  { rewrite Hws. apply elem_of_app. right. by left. }
  assert (Hon0 : onb q0 p = true).
  { unfold onb. rewrite Hu, Hqs. simpl. apply bool_decide_eq_true. by left. }
  assert (Hon1 : onb q1 p = true).
  { unfold onb. rewrite Hu, Hqs. simpl. apply bool_decide_eq_true.
    right. by left. }
  assert (Hp0 : p ∈ lat q0) by (by apply elem_of_lat).
  pose proof (inv_core _ _ _ HI) as HC.
  destruct (lookup_lt_is_Some_2 (last_ S) q0) as [k0 Hk0].
  { by rewrite (core_len _ _ HC). }
  destruct (lookup_lt_is_Some_2 (last_ S) q1) as [k1 Hk1].
  { by rewrite (core_len _ _ HC). }
  assert (Hcode : fuse_anchor lattice p S =
            if Done k0 (time (pointee p)) (lat q0) then Some S
            else
              '(last, gates) ← fuse_pair (length (lat q0) + 1) q0 q1 lattice
                                 (last_ S) [];
              Some (mkFuse last (delayed_measurement_gate S)
                      (gates_fused S ++
                         [mkFused (kind (pointee p)) (time (pointee p)) 2
                            [q0; q1] p gates]))).
  { unfold fuse_anchor. unfold unitaryb in Hu. apply negb_true_iff in Hu.
    rewrite Hu, Hn, Hqs. simpl. rewrite lattice_lookup by done. simpl.
    by rewrite Hk0. }
  rewrite Hcode. clear Hcode.
  destruct (decide (p ∈ members new)) as [HpE|HpE].
  - rewrite (Done_emitted _ _ q0 k0 p HC Hk0 Hp0 HpE).
    exists S, new. split; [done|]. split; try apply HI.
    + intros x [Hx|Hx]%elem_of_app Hax; [by eapply inv_anchors|].
      by apply list_elem_of_singleton in Hx as ->.
    + intros x Hx Hax Hx1. apply elem_of_app. left. by eapply inv_one.
  - destruct (head_cut w1 p w2 (last_ S) (members new) q0 k0 Hws HC
                (inv_anchors _ _ _ HI) Hon0 HpE Hk0) as (F0 & R0 & Hlat0 & HF0).
    destruct (head_cut w1 p w2 (last_ S) (members new) q1 k1 Hws HC
                (inv_anchors _ _ _ HI) Hon1 HpE Hk1) as (F1 & R1 & Hlat1 & HF1).
    pose proof (take_length_cursor _ _ _ _ HC Hk0) as Hl0.
    rewrite (Done_not_emitted q0 k0 p F0 R0 Hlat0 Hl0).
    destruct (fuse_pair_spec q0 q1 (length (lat q0) + 1) (last_ S) (members new)
                [] k0 k1 p F0 F1 R0 R1)
      as (last' & added & Hpair & HC' & Hpadded & Hadded); try done.
    { rewrite Hlat0 at 1. rewrite !length_app. simpl. lia. }
    rewrite Hpair. simpl.
    set (f := mkFused (kind (pointee p)) (time (pointee p)) 2 [q0; q1] p added).
    exists (mkFuse last' (delayed_measurement_gate S) (gates_fused S ++ [f])),
           (new ++ [f]).
    split; [done|]. split; simpl.
    + rewrite (inv_fused _ _ _ HI). by rewrite <- app_assoc.
    + by rewrite members_snoc.
    + intros x [Hx|Hx]%elem_of_app Hax; rewrite members_snoc, elem_of_app.
      * left. by eapply inv_anchors.
      * right. by apply list_elem_of_singleton in Hx as ->.
    + intros x Hx Hax Hx1. rewrite members_snoc in Hx.
      apply elem_of_app in Hx as [Hx|Hx].
      * apply elem_of_app. left. by eapply inv_one.
      * pose proof (Hadded x Hx Hax). simpl in *. lia.
    + apply Forall_app. split; [apply HI|]. by constructor.
    + apply HI.
Qed.

Lemma fuse_anchor_step w1 p w2 S new :
  ws = w1 ++ p :: w2 -> anchorb p = true -> Inv w1 S new ->
  exists S' new', fuse_anchor lattice p S = Some S' /\ Inv (w1 ++ [p]) S' new'.
Proof.
  intros Hws Ha HI.
  assert (Hu : unitaryb p = true).
  { unfold anchorb in Ha. by apply andb_prop in Ha as [? _]. }
  assert (Hpws : p ∈ ws).
  { rewrite Hws. apply elem_of_app. right. by left. }
  destruct (shape p Hpws Hu)
    as [(q0 & Hqs & Hn & Hq0)|(q0 & q1 & Hqs & Hn & Hq0 & Hq1 & Hne)].
  - by eapply anchor_one_qubit.
  - by eapply anchor_two_qubits.
Qed.

Lemma fuse_seq_spec seq : forall w1 w2 S new,
  ws = w1 ++ w2 ->
  filter (fun p => unitaryb p = true) seq
    = filter (fun p => anchorb p = true) w2 ->
  Inv w1 S new ->
  exists S' new', fuse_seq lattice seq S = Some S' /\ Inv ws S' new'.
Proof.
  induction seq as [|a seq IH]; intros w1 w2 S new Hws Hseq HI.
  - exists S, new. split; [done|]. rewrite Hws. apply Inv_extend; [done|].
    intros x Hx. destruct (anchorb x) eqn:Hax; [|done]. exfalso.
    eapply (filter_nil_not_in (fun p => anchorb p = true) w2 x); done.
  - cbn [fuse_seq]. destruct (unitaryb a) eqn:Hu.
    + rewrite filter_cons_True in Hseq by done. symmetry in Hseq.
      apply filter_eq_cons in Hseq as (u & v & -> & Hu0 & Hv & Ha).
      assert (HI' : Inv (w1 ++ u) S new).
      { apply Inv_extend; [done|]. intros x Hx.
        destruct (anchorb x) eqn:Hax; [|done]. exfalso.
        eapply (filter_nil_not_in (fun p => anchorb p = true) u x); done. }
      destruct (fuse_anchor_step (w1 ++ u) a v S new)
        as (S1 & new1 & Hstep & HI1); try done.
      { by rewrite <- app_assoc. }
      rewrite Hstep. simpl.
      apply (IH ((w1 ++ u) ++ [a]) v S1 new1); [|done|done].
      rewrite Hws. rewrite <- !app_assoc. done.
    + destruct (fuse_anchor_measurement w1 a S new Hu HI) as (S1 & Hstep & HI1).
      rewrite Hstep. simpl.
      rewrite filter_cons_False in Hseq by (by rewrite Hu).
      by apply (IH w1 w2 S1 new).
Qed.

(** **** Orphans *)

(** What is left of the line of qubit [q] behind its cursor. *)
Definition left_over (last : list nat) (q : nat) : list GatePtr :=
  match last !! q with
  | Some k => drop k (lat q)
  | None => []
  end.

Lemma left_over_fusible St new q x :
  Inv ws St new -> x ∈ left_over (last_ St) q -> fusibleb x = true.
Proof.
  intros HI. unfold left_over.
  destruct (last_ St !! q) as [k|] eqn:Hk; [|by intros ?%not_elem_of_nil].
  intros Hx. pose proof (inv_core _ _ _ HI) as HC.
  assert (Hxlat : x ∈ lat q) by (by eapply subseteq_drop).
  apply (lat_not_anchor q x Hxlat).
  destruct (anchorb x) eqn:Hax; [|done]. exfalso.
  assert (Hxws : x ∈ ws) by (by apply elem_of_lat in Hxlat as [_ ?]).
  pose proof (inv_anchors _ _ _ HI x Hxws Hax) as HxE.
  apply (core_cursor _ _ HC q k x Hk Hxlat) in HxE.
  pose proof (lat_NoDup q) as Hnd. rewrite <- (take_drop k (lat q)) in Hnd.
  apply NoDup_app in Hnd as (_ & Hdisj & _). by apply (Hdisj x).
Qed.

Lemma orphan_spec St new q fused :
  Inv ws St new -> q < N ->
  exists newo,
    orphan lattice (last_ St) q fused = Some (fused ++ newo) /\
    members newo = left_over (last_ St) q /\
    Forall (fun f => pmaster f ∈ fgates f) newo.
Proof.
  intros HI Hq. pose proof (inv_core _ _ _ HI) as HC.
  destruct (lookup_lt_is_Some_2 (last_ St) q) as [k Hk].
  { by rewrite (core_len _ _ HC). }
  pose proof (left_over_fusible St new q) as Hfus.
  unfold orphan, left_over in *. rewrite Hk in *. simpl.
  rewrite lattice_lookup by done. simpl.
  pose proof (core_le _ _ HC q k Hk) as Hle.
  destruct (Nat.eqb_spec k (length (lat q))) as [->|Hneq].
  - exists []. rewrite app_nil_r. split; [done|]. split; [|constructor].
    by rewrite drop_all.
  - destruct (lookup_lt_is_Some_2 (lat q) k) as [h Hh]; [lia|].
    rewrite Hh. simpl.
    assert (Hdrop : drop k (lat q) = h :: drop (S k) (lat q)).
    { by apply drop_S. }
    rewrite (Advance_at_k (lat q) (take (k + 1) (lat q)) (drop (k + 1) (lat q)));
      [|by rewrite take_drop|rewrite length_take; lia].
    replace (k + 1) with (S k) by lia.
    rewrite fus_prefix_all; last first.
    { apply Forall_forall. intros x Hx. apply Hfus; [done|].
      rewrite Hdrop. by right. }
    eexists [_]. split; [done|]. split.
    + unfold members. simpl. rewrite app_nil_r. by rewrite Hdrop.
    + constructor; [|constructor]. simpl. by left.
Qed.

Lemma orphans_spec St new qs : forall fused,
  Inv ws St new -> Forall (fun q => q < N) qs ->
  exists newo,
    orphans lattice (last_ St) qs fused = Some (fused ++ newo) /\
    members newo = mjoin (left_over (last_ St) <$> qs) /\
    Forall (fun f => pmaster f ∈ fgates f) newo.
Proof.
  induction qs as [|q qs IH]; intros fused HI Hqs.
  - exists []. by rewrite app_nil_r.
  - apply Forall_cons in Hqs as [Hq Hqs]. cbn [orphans].
    destruct (orphan_spec St new q fused HI Hq) as (n1 & Ho & Hm1 & Hf1).
    rewrite Ho. simpl.
    destruct (IH (fused ++ n1) HI Hqs) as (n2 & Hos & Hm2 & Hf2).
    exists (n1 ++ n2). rewrite Hos, <- app_assoc. split; [done|]. split.
    + unfold members in *. rewrite fmap_app, join_app, Hm1, Hm2. done.
    + by apply Forall_app.
Qed.

Lemma left_over_NoDup St new qs :
  Inv ws St new -> NoDup qs -> NoDup (mjoin (left_over (last_ St) <$> qs)).
Proof.
  intros HI. induction qs as [|q qs IH]; intros Hnd; [constructor|].
  apply NoDup_cons in Hnd as [Hq Hnd]. rewrite fmap_cons. simpl.
  apply NoDup_app. split; [|split; [|by apply IH]].
  - unfold left_over. destruct (last_ St !! q); [|constructor].
    apply (sublist_NoDup _ _ (lat_NoDup q)), sublist_drop.
  - intros x Hx (l & Hxl & Hl)%list_elem_of_join.
    apply list_elem_of_fmap in Hl as (q' & -> & Hq').
    assert (q = q'); [|by subst].
    apply (one_line x).
    + apply fusible_one. by eapply left_over_fusible.
    + unfold left_over in Hx. destruct (last_ St !! q); [|by apply not_elem_of_nil in Hx].
      by eapply subseteq_drop.
    + unfold left_over in Hxl. destruct (last_ St !! q'); [|by apply not_elem_of_nil in Hxl].
      by eapply subseteq_drop.
Qed.

(** **** A whole window *)

Lemma window_members St new :
  Inv ws St new ->
  members new ++ mjoin (left_over (last_ St) <$> seq 0 N)
  ≡ₚ filter (fun p => unitaryb p = true) ws.
Proof.
  intros HI. pose proof (inv_core _ _ _ HI) as HC.
  apply NoDup_Permutation.
  - apply NoDup_app. split; [apply HC|]. split.
    + intros x HxE (l & Hxl & Hl)%list_elem_of_join.
      apply list_elem_of_fmap in Hl as (q & -> & Hq).
      unfold left_over in Hxl.
      destruct (last_ St !! q) as [k|] eqn:Hk; [|by apply not_elem_of_nil in Hxl].
      assert (Hxlat : x ∈ lat q) by (by eapply subseteq_drop).
      apply (core_cursor _ _ HC q k x Hk Hxlat) in HxE.
      pose proof (lat_NoDup q) as Hnd. rewrite <- (take_drop k (lat q)) in Hnd.
      apply NoDup_app in Hnd as (_ & Hdisj & _). by apply (Hdisj x).
    + eapply left_over_NoDup; [done|apply NoDup_seq].
  - apply NoDup_filter, ws_NoDup'.
  - intros x. rewrite list_elem_of_filter, elem_of_app. split.
    + intros [HxE|(l & Hxl & Hl)%list_elem_of_join].
      * destruct (core_sub _ _ HC x HxE). done.
      * apply list_elem_of_fmap in Hl as (q & -> & Hq).
        unfold left_over in Hxl.
        destruct (last_ St !! q) as [k|]; [|by apply not_elem_of_nil in Hxl].
        assert (Hxlat : x ∈ lat q) by (by eapply subseteq_drop).
        split; [by eapply lat_unitary|by apply elem_of_lat in Hxlat as [_ ?]].
    + intros [Hu Hx].
      assert (exists q, q < N /\ x ∈ lat q) as (q & Hq & Hxlat).
      { destruct (shape x Hx Hu) as [(q0 & Hqs & _ & Hq0)|(q0 & q1 & Hqs & _ & Hq0 & _)];
          exists q0; (split; [done|]); apply elem_of_lat; (split; [|done]);
          unfold onb; rewrite Hu, Hqs; simpl; apply bool_decide_eq_true; by left. }
      destruct (lookup_lt_is_Some_2 (last_ St) q) as [k Hk].
      { by rewrite (core_len _ _ HC). }
      rewrite <- (take_drop k (lat q)) in Hxlat.
      apply elem_of_app in Hxlat as [Hxt|Hxd].
      * left. apply (core_cursor _ _ HC q k x Hk); [|done].
        by eapply subseteq_take.
      * right. apply list_elem_of_join. exists (left_over (last_ St) q).
        split; [unfold left_over; by rewrite Hk|].
        apply list_elem_of_fmap. exists q. split; [done|].
        apply elem_of_seq. lia.
Qed.

(** The fused gates of a window. *)
Lemma window_fused seq :
  filter (fun p => unitaryb p = true) seq
    = filter (fun p => anchorb p = true) ws ->
  exists St fusedW,
    fuse_seq lattice seq (mkFuse (replicate N 0) None fused0) = Some St /\
    orphans lattice (last_ St) (List.seq 0 N) (gates_fused St)
      = Some (fused0 ++ fusedW) /\
    members fusedW ≡ₚ filter (fun p => unitaryb p = true) ws /\
    Forall (fun f => pmaster f ∈ fgates f) fusedW /\
    (forall pg, delayed_measurement_gate St = Some pg -> unitaryb pg = false).
Proof.
  intros Hseq.
  destruct (fuse_seq_spec seq [] ws (mkFuse (replicate N 0) None fused0) [])
    as (St & new & Hfuse & HI); [done|done|apply Inv_init|].
  destruct (orphans_spec St new (List.seq 0 N) (gates_fused St) HI)
    as (newo & Horph & Hmo & Hfo).
  { apply Forall_forall. intros q Hq%elem_of_seq. lia. }
  exists St, (new ++ newo). split; [done|]. split.
  { rewrite Horph, (inv_fused _ _ _ HI). by rewrite <- app_assoc. }
  split.
  { unfold members in *. rewrite fmap_app, join_app, Hmo.
    by apply window_members. }
  split; [apply Forall_app; split; [apply HI|done]|apply HI].
Qed.

End Window.

(** *** Filling the lattice *)

Section Fill.

Variable N : nat.

Lemma fmap_seq_ext {B : Type} (f g : nat -> B) :
  (forall q, q < N -> f q = g q) -> f <$> seq 0 N = g <$> seq 0 N.
Proof.
  intros Hfg. apply list_eq. intros i. rewrite !list_lookup_fmap.
  destruct (decide (i < N)) as [Hi|Hi].
  - rewrite lookup_seq_lt by done. simpl. by rewrite Hfg.
  - by rewrite lookup_seq_ge by lia.
Qed.

Lemma lat_push_fmap (f : nat -> list GatePtr) q0 p :
  q0 < N ->
  lat_push q0 p (f <$> seq 0 N)
  = Some ((fun q => if decide (q = q0) then f q ++ [p] else f q) <$> seq 0 N).
Proof.
  intros Hq0. unfold lat_push.
  rewrite list_lookup_fmap, lookup_seq_lt by done. simpl. f_equal.
  apply list_eq. intros i. rewrite list_lookup_fmap.
  destruct (decide (i = q0)) as [->|Hne].
  - rewrite list_lookup_insert_eq by (by rewrite length_fmap, length_seq).
    rewrite lookup_seq_lt by done. simpl. by rewrite decide_True.
  - rewrite list_lookup_insert_ne by done. rewrite list_lookup_fmap.
    destruct (seq 0 N !! i) as [q|] eqn:Hq; [|done]. simpl.
    apply lookup_seq in Hq as [-> _]. by rewrite decide_False.
Qed.

Lemma lat_snoc wsd p q :
  lat (wsd ++ [p]) q = lat wsd q ++ (if onb q p then [p] else []).
Proof.
  unfold lat. rewrite filter_app. f_equal. rewrite filter_cons.
  destruct (onb q p); by rewrite ?decide_True, ?decide_False by done.
Qed.

(** The lattice and the sequence that the loop over the gates of the window
    has built when it has seen the gates [wsd]. *)
Record LatOf (wsd : list GatePtr) (L : Lattice) : Prop := {
  latof_lat : gates_lat L = lattice N wsd;
  latof_seq : filter (fun p => unitaryb p = true) (gates_seq L)
              = filter (fun p => anchorb p = true) wsd
}.

Lemma classify_spec wsd p L :
  LatOf wsd L -> gate_ok N (pointee p) = true ->
  exists L', classify p L = Some L' /\ LatOf (wsd ++ [p]) L'.
Proof.
  intros [Hlat Hseq] Hok. unfold classify.
  destruct (is_measurement (kind (pointee p))) eqn:Hm.
  - assert (Hu : unitaryb p = false) by (unfold unitaryb; by rewrite Hm).
    assert (Ha : anchorb p = false) by (unfold anchorb; by rewrite Hu).
    eexists. split; [done|]. split; simpl.
    + rewrite Hlat. unfold lattice. apply fmap_seq_ext. intros q Hq.
      rewrite lat_snoc. unfold onb. rewrite Hu. simpl. by rewrite app_nil_r.
    + rewrite (filter_app _ wsd), (filter_cons_False _ p) by (by rewrite Ha).
      rewrite app_nil_r, <- Hseq.
      destruct (length _ =? 0); [|done].
      rewrite filter_app, (filter_cons_False _ p) by (by rewrite Hu).
      by rewrite app_nil_r.
  - assert (Hu : unitaryb p = true) by (unfold unitaryb; by rewrite Hm).
    destruct (gate_shape N p Hok Hu)
      as [(q0 & Hqs & Hn & Hq0)|(q0 & q1 & Hqs & Hn & Hq0 & Hq1 & Hne)].
    + rewrite Hn, Hqs. simpl. rewrite Hlat. unfold lattice.
      rewrite lat_push_fmap by done. simpl. eexists. split; [done|].
      split; simpl.
      * apply fmap_seq_ext. intros q Hq. rewrite lat_snoc. unfold onb.
        rewrite Hu, Hqs. simpl.
        destruct (decide (q = q0)) as [->|Hq'].
        -- rewrite bool_decide_eq_true_2; [done|by left].
        -- rewrite bool_decide_eq_false_2; [by rewrite app_nil_r|].
           intros Hin. apply list_elem_of_singleton in Hin. done.
      * rewrite (filter_app _ wsd), <- Hseq.
        destruct (unfusible (pointee p)) eqn:Hunf.
        -- assert (Ha : anchorb p = true).
           { unfold anchorb, fusibleb. by rewrite Hu, Hn, Hunf. }
           rewrite (filter_cons_True _ p) by done.
           rewrite filter_app, (filter_cons_True _ p) by done. done.
        -- assert (Ha : anchorb p = false).
           { unfold anchorb, fusibleb. by rewrite Hu, Hn, Hunf. }
           rewrite (filter_cons_False _ p) by (by rewrite Ha).
           by rewrite app_nil_r.
    + rewrite Hn, Hqs. simpl. rewrite Hlat. unfold lattice.
      rewrite lat_push_fmap by done. simpl.
      rewrite lat_push_fmap by done. simpl. eexists. split; [done|].
      split; simpl.
      * apply fmap_seq_ext. intros q Hq. rewrite lat_snoc. unfold onb.
        rewrite Hu, Hqs. simpl.
        destruct (decide (q = q0)) as [->|Hq0'].
        -- rewrite (decide_False (P := q0 = q1)) by done.
           rewrite bool_decide_eq_true_2; [done|by left].
        -- destruct (decide (q = q1)) as [->|Hq1'].
           ++ rewrite bool_decide_eq_true_2; [done|]. right. by left.
           ++ rewrite bool_decide_eq_false_2; [by rewrite app_nil_r|].
              intros Hin. rewrite !elem_of_cons in Hin.
              destruct Hin as [?|[?|Hin]]; try done.
              by apply not_elem_of_nil in Hin.
      * rewrite (filter_app _ wsd), <- Hseq.
        assert (Ha : anchorb p = true).
        { unfold anchorb, fusibleb. by rewrite Hu, Hn. }
        rewrite (filter_cons_True _ p) by done.
        rewrite filter_app, (filter_cons_True _ p) by done. done.
Qed.

Lemma fill_spec tl todo : forall wsd prev L,
  LatOf wsd L ->
  Forall (fun p => gate_ok N (pointee p) = true) todo ->
  Forall (fun p => prev <= time (pointee p)) todo ->
  Ordered todo ->
  exists ws2 rest L',
    fill tl todo prev L = Some (Filled L' rest) /\
    todo = ws2 ++ rest /\
    LatOf (wsd ++ ws2) L' /\
    (Forall (fun p => time (pointee p) <= tl) todo -> rest = []).
Proof.
  induction todo as [|p todo IH]; intros wsd prev L HL Hok Hprev Hord.
  - exists [], [], L. by rewrite !app_nil_r.
  - cbn [fill]. destruct (tl <? time (pointee p)) eqn:Htl.
    + exists [], (p :: todo), L. rewrite !app_nil_r.
      split; [done|]. split; [done|]. split; [done|].
      intros Hall. apply Forall_cons in Hall as [Hp _].
      apply Nat.ltb_lt in Htl. lia.
    + apply Forall_cons in Hprev as [Hp Hprev].
      destruct (time (pointee p) <? prev) eqn:Hlt; [apply Nat.ltb_lt in Hlt; lia|].
      apply Forall_cons in Hok as [Hokp Hok].
      destruct (classify_spec wsd p L HL Hokp) as (L1 & Hc & HL1).
      rewrite Hc. simpl.
      apply Ordered_cons in Hord as [Hle Hord].
      destruct (IH (wsd ++ [p]) (time (pointee p)) L1 HL1 Hok Hle Hord)
        as (ws2 & rest & L' & Hfill & -> & HL' & Hrest).
      exists (p :: ws2), rest, L'. split; [done|]. split; [done|].
      split; [by rewrite <- app_assoc in HL'|].
      intros Hall. apply Forall_cons in Hall as [_ Hall]. by apply Hrest.
Qed.

End Fill.

(** *** All windows *)

(** The anchor of a fused gate that is not a measurement is one of its
    members. *)
Definition master_ok (f : GateFused) : Prop :=
  is_measurement (fkind f) = false -> pmaster f ∈ fgates f.

Lemma fuse_measurement_fields mg pg :
  fgates (fuse_measurement mg pg) = [] /\
  fkind (fuse_measurement mg pg) = kind (pointee pg).
Proof.
  unfold fuse_measurement.
  set (step := fun (gate_f : GateFused) (p : GatePtr) =>
         mkFused (fkind gate_f) (ftime gate_f)
           (fnum_qubits gate_f + num_qubits (pointee p))
           (fqubits gate_f ++ qubits (pointee p))
           (pmaster gate_f) (fgates gate_f)).
  assert (Hgen : forall l g,
            fgates (foldl step g l) = fgates g /\ fkind (foldl step g l) = fkind g).
  { induction l as [|x l IH]; intros g; [done|]. simpl.
    destruct (IH (step g x)) as [-> ->]. done. }
  apply Hgen.
Qed.

Lemma lattice_nil N : lattice N [] = replicate N [].
Proof.
  unfold lattice. apply list_eq. intros i. rewrite list_lookup_fmap.
  destruct (decide (i < N)) as [Hi|Hi].
  - rewrite lookup_seq_lt by done. simpl. by rewrite lookup_replicate_2.
  - rewrite lookup_seq_ge by lia. simpl. symmetry.
    apply lookup_replicate_None. lia.
Qed.

Lemma windows_spec N times : forall done_ todo mg fused tlast,
  NoDup (addr <$> (done_ ++ todo)) ->
  Forall (fun p => gate_ok N (pointee p) = true) (done_ ++ todo) ->
  Ordered (done_ ++ todo) ->
  todo <> [] -> last times = Some tlast ->
  Forall (fun p => time (pointee p) <= tlast) todo ->
  members fused ≡ₚ filter (fun p => unitaryb p = true) done_ ->
  Forall master_ok fused ->
  exists fused',
    windows N times todo mg fused = Some (fused', []) /\
    members fused' ≡ₚ filter (fun p => unitaryb p = true) (done_ ++ todo) /\
    Forall master_ok fused'.
Proof.
  induction times as [|tl times IH];
    intros done_ todo mg fused tlast Hnd Hok Hord Htodo Hlast Hall Hmem Hmaster;
    [done|].
  destruct todo as [|first todo0]; [done|].
  set (todo := first :: todo0) in *.
  assert (Hcode : windows N (tl :: times) todo mg fused =
    out ← fill tl todo (time (pointee first))
             (mkLattice mg [] (replicate N []));
    match out with
    | OutOfOrder => Some ([], [error_unordered])
    | Filled L gate_it' =>
        S ← fuse_seq (gates_lat L) (gates_seq L)
              (mkFuse (replicate N 0) None fused);
        fused ← orphans (gates_lat L) (last_ S) (seq 0 N) (gates_fused S);
        let fused :=
          match delayed_measurement_gate S with
          | Some pgate => fused ++ [fuse_measurement (measurement_gates L) pgate]
          | None => fused
          end in
        match gate_it' with
        | [] => Some (fused, [])
        | _ :: _ => windows N times gate_it' (measurement_gates L) fused
        end
    end) by done.
  rewrite Hcode. clear Hcode.
  assert (Hord_todo : Ordered todo) by (by eapply Ordered_app_r).
  destruct (fill_spec N tl todo [] (time (pointee first))
              (mkLattice mg [] (replicate N [])))
    as (ws & rest & L & Hfill & Htodo_eq & HL & Hrest).
  { split; simpl; [by rewrite lattice_nil|done]. }
  { apply Forall_app in Hok as [_ ?]. done. }
  { apply Ordered_cons in Hord_todo as [Hle _]. by constructor. }
  { done. }
  simpl in HL. rewrite Hfill. simpl.
  rewrite Htodo_eq in Hnd, Hok, Hord.
  assert (Hnd_ws : NoDup (addr <$> ws)).
  { rewrite !fmap_app in Hnd. apply NoDup_app in Hnd as (_ & _ & Hnd).
    by apply NoDup_app in Hnd as (? & _ & _). }
  assert (Hok_ws : Forall (fun p => gate_ok N (pointee p) = true) ws).
  { apply Forall_app in Hok as [_ Hok]. by apply Forall_app in Hok as [? _]. }
  assert (Hord_ws : Ordered ws).
  { apply Ordered_app_r in Hord. by apply Ordered_app_l in Hord. }
  destruct (window_fused N ws Hnd_ws Hok_ws Hord_ws fused (gates_seq L))
    as (St & fusedW & Hfuse & Horph & HmW & HfW & Hdelayed).
  { apply HL. }
  rewrite (latof_lat _ _ _ HL). rewrite Hfuse. simpl. rewrite Horph. simpl.
  set (fused2 := match delayed_measurement_gate St with
                 | Some pgate =>
                     (fused ++ fusedW) ++ [fuse_measurement (measurement_gates L) pgate]
                 | None => fused ++ fusedW
                 end).
  assert (Hmem2 : members fused2
                  ≡ₚ filter (fun p => unitaryb p = true) (done_ ++ ws)).
  { assert (Hbase : members (fused ++ fusedW)
                    ≡ₚ filter (fun p => unitaryb p = true) (done_ ++ ws)).
    { unfold members in *. rewrite fmap_app, join_app, filter_app.
      by rewrite Hmem, HmW. }
    unfold fused2. destruct (delayed_measurement_gate St) as [pg|]; [|done].
    rewrite members_snoc.
    destruct (fuse_measurement_fields (measurement_gates L) pg) as [-> _].
    by rewrite app_nil_r. }
  assert (Hmaster2 : Forall master_ok fused2).
  { assert (Hbase : Forall master_ok (fused ++ fusedW)).
    { apply Forall_app. split; [done|].
      eapply Forall_impl; [exact HfW|]. intros f Hf _. done. }
    unfold fused2. destruct (delayed_measurement_gate St) as [pg|] eqn:Hpg;
      [|done].
    apply Forall_app. split; [done|]. constructor; [|constructor].
    intros Hkind.
    destruct (fuse_measurement_fields (measurement_gates L) pg) as [_ Hk].
    rewrite Hk in Hkind. pose proof (Hdelayed pg eq_refl) as Hu.
    unfold unitaryb in Hu. by rewrite Hkind in Hu. }
  destruct rest as [|p' rest'].
  - exists fused2. split; [done|]. split; [|done].
    by rewrite Htodo_eq, app_nil_r.
  - assert (Hlast' : last times = Some tlast).
    { destruct times as [|t' times']; [|done]. simpl in Hlast.
      injection Hlast as <-. by specialize (Hrest Hall). }
    destruct (IH (done_ ++ ws) (p' :: rest') (measurement_gates L) fused2 tlast)
      as (fused' & Hw & Hm' & Hf'); try done.
    + by rewrite <- app_assoc.
    + by rewrite <- app_assoc.
    + by rewrite <- app_assoc.
    + rewrite Htodo_eq in Hall. by apply Forall_app in Hall as [_ ?].
    + exists fused'. split; [done|]. split; [|done].
      by rewrite Htodo_eq, app_assoc.
Qed.

(** *** Well-formed circuits *)

Lemma pointers_pointee (gates : list Gate) : pointee <$> pointers gates = gates.
Proof.
  unfold pointers. apply list_eq. intros i.
  rewrite list_lookup_fmap, list_lookup_imap. by destruct (gates !! i).
Qed.

Lemma ordered_spec gates :
  ordered gates = true ->
  forall a g b h c,
    gates = a ++ g :: b ++ h :: c -> time g <= time h /\ clash g h = false.
Proof.
  induction gates as [|x gates IH]; intros Ho a g b h c Heq.
  - by destruct a.
  - simpl in Ho. apply andb_prop in Ho as [Hall Ho].
    destruct a as [|y a]; simpl in Heq.
    + injection Heq as -> ->. rewrite forallb_forall in Hall.
      specialize (Hall h). rewrite <- list_elem_of_In in Hall.
      destruct (andb_prop _ _ (Hall ltac:(rewrite elem_of_app; right; by left)))
        as [Hle Hcl].
      apply Nat.leb_le in Hle. by apply negb_true_iff in Hcl.
    + injection Heq as -> ->. by eapply IH.
Qed.

Lemma well_formed_Ordered N gates :
  well_formed N gates = true -> Ordered (pointers gates).
Proof.
  unfold well_formed. intros [_ Ho]%andb_prop u x v y w Heq.
  apply (ordered_spec gates Ho (pointee <$> u) (pointee x) (pointee <$> v)
           (pointee y) (pointee <$> w)).
  rewrite <- (pointers_pointee gates), Heq.
  by rewrite !fmap_app, !fmap_cons, !fmap_app, !fmap_cons.
Qed.

Lemma well_formed_ok N gates :
  well_formed N gates = true ->
  Forall (fun p => gate_ok N (pointee p) = true) (pointers gates).
Proof.
  unfold well_formed. intros [Hok _]%andb_prop.
  rewrite forallb_forall in Hok. apply Forall_forall. intros p Hp.
  apply Hok, list_elem_of_In. rewrite <- (pointers_pointee gates).
  apply list_elem_of_fmap. by exists p.
Qed.

Lemma merge_last gates times glast :
  last gates = Some glast ->
  exists times2 tlast,
    MergeWithMeasurementTimes gates times = Some times2 /\
    last times2 = Some tlast /\ time glast <= tlast.
Proof.
  intros Hl. unfold MergeWithMeasurementTimes. rewrite Hl. simpl.
  set (t2 := fst (foldl merge_step ([], times) gates)).
  destruct (last t2) as [b|] eqn:Hb.
  - destruct (b <? time glast) eqn:Hlt.
    + eexists _, _. split; [done|]. by rewrite last_snoc.
    + apply Nat.ltb_ge in Hlt. by eexists _, _.
  - eexists _, _. split; [done|]. by rewrite last_snoc.
Qed.

Lemma NoDup_fmap_filter {A B : Type} (f : A -> B) (P : A -> Prop)
    `{forall x, Decision (P x)} (l : list A) :
  NoDup (f <$> l) -> NoDup (f <$> filter P l).
Proof.
  induction l as [|x l IH]; [done|]. rewrite fmap_cons, filter_cons.
  intros [Hx Hnd]%NoDup_cons. destruct (decide (P x)); [|by apply IH].
  rewrite fmap_cons. apply NoDup_cons. split; [|by apply IH].
  intros (y & Hy & Hin)%list_elem_of_fmap. apply Hx.
  apply list_elem_of_fmap. exists y. split; [done|].
  by apply list_elem_of_filter in Hin as [_ ?].
Qed.

(** *** The anchor loop terminates *)

Lemma Advance_ge k wl gates : k <= (Advance k wl gates).1.
Proof. unfold Advance. rewrite advance_from_spec. simpl. lia. Qed.

(** Every round of the loop of a two-qubit anchor moves [last[q0]] forward. *)
Lemma fuse_round_progress q0 q1 lat last gates last' gates' wl0 k0 :
  fuse_round q0 q1 lat last gates = Some (last', gates') ->
  lat !! q0 = Some wl0 -> last !! q0 = Some k0 ->
  exists k0', last' !! q0 = Some k0' /\ k0 < k0' /\ k0 < length wl0.
Proof.
  intros Hr Hl Hk. unfold fuse_round in Hr. rewrite Hl in Hr. simpl in Hr.
  destruct (lat !! q1) as [wl1|] eqn:Hl1; [|done]. simpl in Hr.
  rewrite Hk in Hr. simpl in Hr.
  pose proof (lookup_lt_Some _ _ _ Hk) as Hq0.
  pose proof (Advance_ge k0 wl0 gates) as Ha.
  destruct (Advance k0 wl0 gates) as [a g1]. simpl in Ha.
  destruct (decide (q0 = q1)) as [<-|Hne].
  - assert (wl1 = wl0) as -> by congruence.
    rewrite list_lookup_insert_eq in Hr by done. simpl in Hr.
    pose proof (Advance_ge a wl0 g1) as Hb.
    destruct (Advance a wl0 g1) as [b g2]. simpl in Hb.
    rewrite list_lookup_insert_eq in Hr by (by rewrite length_insert).
    simpl in Hr. destruct (wl0 !! b) as [g|] eqn:Hg; [|done]. simpl in Hr.
    apply lookup_lt_Some in Hg.
    pose proof (Advance_ge (b + 1) wl0 (g2 ++ [g])) as Hc.
    destruct (Advance (b + 1) wl0 (g2 ++ [g])) as [c g3]. simpl in Hc.
    rewrite list_lookup_insert_eq in Hr by (by rewrite !length_insert).
    simpl in Hr.
    pose proof (Advance_ge (c + 1) wl0 g3) as Hd.
    destruct (Advance (c + 1) wl0 g3) as [d g4]. simpl in Hd.
    injection Hr as <- <-. exists d.
    rewrite list_lookup_insert_eq by (by rewrite !length_insert).
    split; [done|]. lia.
  - rewrite list_lookup_insert_ne in Hr by done.
    destruct (last !! q1) as [k1|] eqn:Hk1; [|done]. simpl in Hr.
    pose proof (lookup_lt_Some _ _ _ Hk1) as Hq1.
    destruct (Advance k1 wl1 g1) as [b g2].
    rewrite list_lookup_insert_ne in Hr by done.
    rewrite list_lookup_insert_eq in Hr by done. simpl in Hr.
    destruct (wl0 !! a) as [g|] eqn:Hg; [|done]. simpl in Hr.
    apply lookup_lt_Some in Hg.
    pose proof (Advance_ge (a + 1) wl0 (g2 ++ [g])) as Hc.
    destruct (Advance (a + 1) wl0 (g2 ++ [g])) as [c g3]. simpl in Hc.
    rewrite list_lookup_insert_ne in Hr by done.
    rewrite list_lookup_insert_eq in Hr by (by rewrite !length_insert).
    simpl in Hr.
    destruct (Advance (b + 1) wl1 g3) as [d g4].
    injection Hr as <- <-. exists c.
    rewrite list_lookup_insert_ne by done.
    rewrite list_lookup_insert_eq by (by rewrite !length_insert).
    split; [done|]. lia.
Qed.

(** X29.  The loop of a two-qubit anchor ends within [gates_lat[q0].size()]
    rounds: any two amounts of fuel above the number of gates left on [q0]
    give the same result, so that [None] never stands for a loop that goes
    on. *)
Lemma fuse_pair_fuel q0 q1 lat wl0 :
  lat !! q0 = Some wl0 ->
  forall fuel fuel' last gates k0,
    last !! q0 = Some k0 ->
    length wl0 - k0 < fuel -> length wl0 - k0 < fuel' ->
    fuse_pair fuel q0 q1 lat last gates = fuse_pair fuel' q0 q1 lat last gates.
Proof.
  intros Hl. induction fuel as [|fuel IH]; intros fuel' last gates k0 Hk Hf Hf';
    [lia|].
  destruct fuel' as [|fuel']; [lia|]. cbn [fuse_pair].
  destruct (fuse_round q0 q1 lat last gates) as [[last' gates']|] eqn:Hr;
    [|done].
  destruct (fuse_round_progress _ _ _ _ _ _ _ _ _ Hr Hl Hk) as (k0' & Hk' & ? & ?).
  simpl. rewrite Hl. simpl. destruct (lat !! q1) as [wl1|]; [|done]. simpl.
  rewrite Hk'. simpl. destruct (last' !! q1) as [k1|]; [|done]. simpl.
  destruct (NextGate k0' wl0 k1 wl1); [|done].
  apply (IH _ _ _ k0'); [done|lia..].
Qed.

(** C5, as stated: a gate on three qubits that is not a measurement is in no
    fused gate. *)
Lemma FuseGates_drops_three_qubit_gate :
  exists fused,
    FuseGates 3 three_qubit_gate [] = Some (fused, []) /\
    is_measurement (kind (mkGate (kGate 0) 0 3 [0; 1; 2] false)) = false /\
    mkPtr 0 (mkGate (kGate 0) 0 3 [0; 1; 2] false) ∉ members fused.
Proof.
  eexists. split; [vm_compute; reflexivity|]. split; [reflexivity|].
  apply not_elem_of_nil.
Qed.

(** C5, amended.  For a sequence of gates with times that never decrease, in
    which every gate that is not a measurement acts on one qubit of the
    circuit or on two different ones and no two such gates act on a common
    qubit at the same time, [FuseGates] reports no error, and the members of
    the fused gates it returns are, up to their order, the gates of the
    sequence that are not measurements: each of them is a member of exactly
    one fused gate, once, no pointer occurs twice, and the anchor of every
    fused gate that is not a measurement is one of its own members. *)
Theorem FuseGates_partition (num_qubits : nat) (gates : list Gate)
    (times_to_split_at : list nat) :
  well_formed num_qubits gates = true ->
  exists fused,
    FuseGates num_qubits gates times_to_split_at = Some (fused, []) /\
    members fused ≡ₚ unitary_gates gates /\
    NoDup (addr <$> members fused) /\
    Forall (fun f => is_measurement (fkind f) = false -> pmaster f ∈ fgates f)
           fused.
Proof.
  intros Hwf. unfold unitary_gates.
  destruct gates as [|g0 gates0].
  { exists []. split; [done|]. split; [done|]. split; constructor. }
  set (gates := g0 :: gates0) in *.
  assert (Hcode : FuseGates num_qubits gates times_to_split_at =
                  times ← MergeWithMeasurementTimes gates times_to_split_at;
                  windows num_qubits times (pointers gates) ∅ []) by done.
  rewrite Hcode. clear Hcode.
  assert (exists glast, last gates = Some glast) as [glast Hglast].
  { destruct (last gates) eqn:Hl; [by eexists|]. by apply last_None in Hl. }
  destruct (merge_last gates times_to_split_at glast Hglast)
    as (times & tlast & Hmerge & Htl & Hle).
  rewrite Hmerge. simpl.
  pose proof (well_formed_Ordered _ _ Hwf) as Hord.
  pose proof (well_formed_ok _ _ Hwf) as Hok.
  destruct (windows_spec num_qubits times [] (pointers gates) ∅ [] tlast)
    as (fused & Hw & Hmem & Hmaster); try done.
  - apply pointers_NoDup.
  - apply Forall_forall. intros p Hp.
    assert (Hg : pointee p ∈ gates).
    { rewrite <- (pointers_pointee gates). apply list_elem_of_fmap. by exists p. }
    apply last_Some in Hglast as [front Hfront].
    rewrite Hfront in Hg. apply elem_of_app in Hg as [Hg|Hg].
    + apply list_elem_of_split in Hg as (a & b & ->).
      unfold well_formed in Hwf. apply andb_prop in Hwf as [_ Ho].
      destruct (ordered_spec gates Ho a (pointee p) b glast []) as [? _]; [|lia].
      rewrite Hfront. by rewrite <- app_assoc.
    + apply list_elem_of_singleton in Hg as ->. done.
  - assert (Hfilter : filter (fun p => unitaryb p = true) (pointers gates)
                      = filter (fun p => is_measurement (kind (pointee p)) = false)
                               (pointers gates)).
    { apply list_filter_iff. intros p. unfold unitaryb.
      by rewrite negb_true_iff. }
    simpl in Hmem. rewrite Hfilter in Hmem.
    exists fused. split; [done|]. split; [done|]. split; [|done].
    assert (Hperm : addr <$> members fused
                    ≡ₚ addr <$> filter (fun p => is_measurement (kind (pointee p)) = false)
                                  (pointers gates)).
    { by rewrite Hmem. }
    rewrite Hperm. apply NoDup_fmap_filter, pointers_NoDup.
Qed.

Lemma FuseGates_partition_witness :
  exists fused,
    FuseGates 2 chain_then_pair [] = Some (fused, []) /\
    members fused ≡ₚ unitary_gates chain_then_pair /\
    NoDup (addr <$> members fused) /\
    Forall (fun f => is_measurement (fkind f) = false -> pmaster f ∈ fgates f)
           fused.
Proof.
  apply (FuseGates_partition 2 chain_then_pair []).
  vm_compute. reflexivity.
Defined.

End FuserPartition.

(** ** The runner *)

Module RunnerFacts.

Import QSimRunner Scenario.

Section Generic.

Context {State : Type}.
Variable CreateState : nat -> nat -> State.
Variable IsNull : State -> bool.
Variable SetStateZero : State -> bool * State.
Variable ApplyFusedGate : GateFused -> State -> State.
Variable FuseGates : nat -> list Gate -> list nat -> option (list GateFused * list string).
Variable FuseGates_maxtime : nat -> list Gate -> nat -> option (list GateFused * list string).
Variable measure : nat -> State -> State.

(** The only [return false] of the first entry point is the one after a
    failed allocation. *)
Lemma Run_false_only_if_null param times circuit state trace :
  Run CreateState IsNull SetStateZero ApplyFusedGate FuseGates measure
      param times circuit = Some (false, state, trace) ->
  IsNull (CreateState (c_num_qubits circuit) (num_threads param)) = true.
Proof.
  unfold Run. destruct (IsNull _); [done|].
  intros Hrun. destruct (FuseGates _ _ _) as [[fused errors]|]; [|done].
  simpl in Hrun. destruct (apply_and_measure _ _ _ _ _ _ _ _ _) as [[s t]|];
    simpl in Hrun; congruence.
Qed.

(** The second entry point has no [return false] at all. *)
Lemma Run_state_true param maxtime circuit state0 flag state trace :
  Run_state ApplyFusedGate FuseGates_maxtime param maxtime circuit state0
    = Some (flag, state, trace) ->
  flag = true.
Proof.
  unfold Run_state. destruct (FuseGates_maxtime _ _ _) as [[fused errors]|]; [|done].
  simpl. destruct (apply_all _ _ _ _ _ _). intros [= <- _ _]. done.
Qed.

End Generic.

(** C2.  On the circuit with gate times [1, 0, 1] the fuser reports
    "gate times should be ordered" and returns no fused gate; the runner
    applies nothing, never calls back, and returns [true]. *)
Theorem Run_true_after_fuser_error {State : Type}
    (CreateState : nat -> nat -> State) (IsNull : State -> bool)
    (SetStateZero : State -> bool * State)
    (ApplyFusedGate : GateFused -> State -> State)
    (measure : nat -> State -> State) (threads : nat) :
  IsNull (CreateState 1 threads) = false ->
  Run CreateState IsNull SetStateZero ApplyFusedGate BasicGateFuser.FuseGates
      measure (mkParam threads 0) [1] (mkCircuit 1 unordered_101)
  = Some (true, snd (SetStateZero (CreateState 1 threads)),
          [EvError BasicGateFuser.error_unordered]).
Proof.
  intros Hnull. unfold Run. simpl. rewrite Hnull.
  replace (BasicGateFuser.FuseGates 1 unordered_101 [1])
    with (Some (@nil GateFused, [BasicGateFuser.error_unordered]))
    by (vm_compute; reflexivity).
  reflexivity.
Qed.

Lemma Run_true_after_fuser_error_witness :
  Run (fun _ _ => tt) (fun _ => false) (fun s => (true, s)) (fun _ s => s)
      BasicGateFuser.FuseGates (fun _ s => s)
      (mkParam 1 0) [1] (mkCircuit 1 unordered_101)
  = Some (true, tt, [EvError BasicGateFuser.error_unordered]).
Proof.
  apply (Run_true_after_fuser_error (fun _ _ => tt) (fun _ => false)
           (fun s => (true, s)) (fun _ s => s) (fun _ s => s) 1).
  reflexivity.
Defined.

End RunnerFacts.

Module RunnerWindows.

Import QSimRunner Scenario Windows.

Lemma measurements_app a b :
  measurements (a ++ b) = measurements a ++ measurements b.
Proof. apply omap_app. Qed.

Lemma applied_app a b : applied (a ++ b) = applied a ++ applied b.
Proof. apply omap_app. Qed.

Lemma measurements_measure c l :
  measurements (EvMeasure c :: l) = c :: measurements l.
Proof. done. Qed.

Lemma applied_measure c l : applied (EvMeasure c :: l) = applied l.
Proof. done. Qed.

Lemma windows_ok_cons_inv t times g rest :
  windows_ok (t :: times) (g :: rest) = true ->
  ftime g <= t /\
  ((match rest with [] => true | g' :: _ => t <? ftime g' end) = true ->
     windows_ok times rest = true /\ Forall (fun g' => t < ftime g') rest) /\
  ((match rest with [] => true | g' :: _ => t <? ftime g' end) = false ->
     windows_ok (t :: times) rest = true).
Proof.
  simpl. destruct (ftime g <=? t) eqn:Hg; [|done].
  apply Nat.leb_le in Hg. intros Hok. split; [done|].
  destruct rest as [|g' rest]; simpl in *.
  - split; [|done]. intros _. split; [done|constructor].
  - destruct (t <? ftime g') eqn:Hg'.
    + apply Nat.ltb_lt in Hg'.
      destruct (ftime g' <=? t) eqn:Hle; [apply Nat.leb_le in Hle; lia|].
      split; [|done]. intros _.
      apply andb_prop in Hok as [Hok Hw]. apply andb_prop in Hok as [_ Hall].
      split; [done|]. apply Forall_forall. intros x Hx.
      rewrite forallb_forall in Hall. apply Nat.ltb_lt, Hall.
      by apply list_elem_of_In.
    + apply Nat.ltb_ge in Hg'.
      destruct (ftime g' <=? t) eqn:Hle; [|apply Nat.leb_gt in Hle; lia].
      split; [done|]. intros _.
      destruct (window t rest) as [w r]. simpl in *. done.
Qed.

Lemma windows_ok_nil_inv times : windows_ok times [] = true -> times = [].
Proof. destruct times; [done|]. simpl. done. Qed.

Lemma windows_ok_increasing t times fused :
  windows_ok (t :: times) fused = true -> Forall (fun t' => t < t') times.
Proof.
  revert t fused. induction times as [|t1 times IH]; intros t fused Hok;
    [constructor|].
  simpl in Hok. destruct (window t fused) as [w r].
  apply andb_prop in Hok as [Hok Hrec]. apply andb_prop in Hok as [_ Hall].
  assert (Hlt : t < t1).
  { simpl in Hrec. destruct r as [|g r]; simpl in Hrec; [done|].
    simpl in Hall. apply andb_prop in Hall as [Hg _]. apply Nat.ltb_lt in Hg.
    destruct (ftime g <=? t1) eqn:Hle; [apply Nat.leb_le in Hle; lia|done]. }
  constructor; [done|].
  eapply Forall_impl; [apply (IH t1 r Hrec)|]. simpl. lia.
Qed.

Section Loop.

Context {State : Type}.
Variable ApplyFusedGate : GateFused -> State -> State.
Variable measure : nat -> State -> State.
Variable param : Param.

Abbreviation loop := (apply_and_measure ApplyFusedGate measure param).

(** The events of one round of the loop before the comparison with the next
    fused gate. *)
Definition applied_now (i : nat) (g : GateFused) : list Event :=
  if 1 <? verbosity param then [EvApply i g; EvMessage message_gate]
  else [EvApply i g].

Lemma applied_applied_now i g : applied (applied_now i g) = [i].
Proof. unfold applied_now. by destruct (1 <? verbosity param). Qed.

Lemma measurements_applied_now i g : measurements (applied_now i g) = [].
Proof. unfold applied_now. by destruct (1 <? verbosity param). Qed.

Lemma loop_step times g rest i cur state trace t :
  times !! cur = Some t ->
  loop times (g :: rest) i cur state trace =
    if match rest with [] => true | g' :: _ => t <? ftime g' end
    then loop times rest (S i) (S cur) (measure cur (ApplyFusedGate g state))
           ((trace ++ applied_now i g) ++ [EvMeasure cur])
    else loop times rest (S i) cur (ApplyFusedGate g state)
           (trace ++ applied_now i g).
Proof.
  intros Ht. simpl. rewrite Ht. simpl. unfold applied_now.
  destruct (1 <? verbosity param); simpl; rewrite <- ?app_assoc; done.
Qed.

Lemma loop_windows rest :
  forall done_ todo i state trace,
    windows_ok todo rest = true ->
    exists state' ext,
      loop (done_ ++ todo) rest i (length done_) state trace
        = Some (state', trace ++ ext) /\
      measurements ext = seq (length done_) (length todo) /\
      applied ext = seq i (length rest) /\
      forall c t, todo !! c = Some t ->
        exists pre post,
          ext = pre ++ EvMeasure (length done_ + c) :: post /\
          (forall j g, rest !! j = Some g -> ftime g <= t -> i + j ∈ applied pre) /\
          (forall j g, rest !! j = Some g -> t < ftime g -> i + j ∈ applied post).
Proof.
  induction rest as [|g rest IH]; intros done_ todo i state trace Hok.
  - apply windows_ok_nil_inv in Hok as ->. exists state, [].
    rewrite !app_nil_r. simpl. split; [done|]. split; [done|]. split; [done|].
    intros c t Hc. by rewrite lookup_nil in Hc.
  - destruct todo as [|t todo]; [done|].
    pose proof (windows_ok_increasing _ _ _ Hok) as Hinc.
    apply windows_ok_cons_inv in Hok as (Hg & Hfire & Hstay).
    rewrite (loop_step _ _ _ _ _ _ _ t); last first.
    { rewrite lookup_app_r by lia. by rewrite Nat.sub_diag. }
    destruct (match rest with [] => true | g' :: _ => t <? ftime g' end) eqn:Hnext.
    + destruct (Hfire eq_refl) as [Hok' Hlater]. clear Hfire Hstay.
      destruct (IH (done_ ++ [t]) todo (S i)
                  (measure (length done_) (ApplyFusedGate g state))
                  ((trace ++ applied_now i g) ++ [EvMeasure (length done_)]) Hok')
        as (state' & ext & Hrun & Hmeas & Happ & Hpos).
      rewrite <- app_assoc in Hrun. simpl in Hrun.
      rewrite length_app in Hrun, Hmeas, Hpos. simpl in Hrun, Hmeas, Hpos.
      rewrite Nat.add_1_r in Hrun, Hmeas, Hpos.
      exists state', (applied_now i g ++ EvMeasure (length done_) :: ext).
      split; [rewrite Hrun; by rewrite <- !app_assoc|].
      split.
      { by rewrite measurements_app, measurements_applied_now,
          measurements_measure, Hmeas. }
      split.
      { by rewrite applied_app, applied_applied_now, applied_measure, Happ. }
      intros [|c] t' Ht'; simpl in Ht'.
      * injection Ht' as <-. exists (applied_now i g), ext.
        rewrite Nat.add_0_r. split; [done|]. split.
        -- intros [|j] g' Hj Hle; simpl in Hj.
           ++ rewrite applied_applied_now, Nat.add_0_r. set_solver.
           ++ rewrite Forall_forall in Hlater.
              specialize (Hlater g' (list_elem_of_lookup_2 _ _ _ Hj)). lia.
        -- intros [|j] g' Hj Hlt; simpl in Hj.
           ++ injection Hj as <-. lia.
           ++ rewrite Happ. apply elem_of_seq.
              apply lookup_lt_Some in Hj. lia.
      * destruct (Hpos c t' Ht') as (pre & post & -> & Hpre & Hpost).
        exists (applied_now i g ++ EvMeasure (length done_) :: pre), post.
        split.
        { replace (length done_ + S c) with (S (length done_ + c)) by lia.
          by rewrite <- app_assoc. }
        split.
        -- intros [|j] g' Hj Hle; simpl in Hj.
           ++ rewrite applied_app, applied_applied_now, Nat.add_0_r. set_solver.
           ++ rewrite applied_app, applied_measure.
              apply elem_of_app. right.
              replace (i + S j) with (S i + j) by lia. by eapply Hpre.
        -- intros [|j] g' Hj Hlt; simpl in Hj.
           ++ injection Hj as <-. rewrite Forall_forall in Hinc.
              specialize (Hinc t' (list_elem_of_lookup_2 _ _ _ Ht')). lia.
           ++ replace (i + S j) with (S i + j) by lia. by eapply Hpost.
    + specialize (Hstay eq_refl). clear Hfire.
      destruct (IH done_ (t :: todo) (S i) (ApplyFusedGate g state)
                  (trace ++ applied_now i g) Hstay)
        as (state' & ext & Hrun & Hmeas & Happ & Hpos).
      exists state', (applied_now i g ++ ext).
      split; [rewrite Hrun; by rewrite <- !app_assoc|].
      split.
      { by rewrite measurements_app, measurements_applied_now, Hmeas. }
      split.
      { by rewrite applied_app, applied_applied_now, Happ. }
      intros c t' Ht'.
      destruct (Hpos c t' Ht') as (pre & post & -> & Hpre & Hpost).
      exists (applied_now i g ++ pre), post.
      split; [by rewrite <- app_assoc|]. split.
      * intros [|j] g' Hj Hle; simpl in Hj.
        -- rewrite applied_app, applied_applied_now, Nat.add_0_r. set_solver.
        -- rewrite applied_app. apply elem_of_app. right.
           replace (i + S j) with (S i + j) by lia. by eapply Hpre.
      * intros [|j] g' Hj Hlt; simpl in Hj.
        -- injection Hj as <-. destruct c as [|c]; simpl in Ht'.
           ++ injection Ht' as <-. lia.
           ++ rewrite Forall_forall in Hinc.
              specialize (Hinc t' (list_elem_of_lookup_2 _ _ _ Ht')). lia.
        -- replace (i + S j) with (S i + j) by lia. by eapply Hpost.
Qed.

End Loop.

(** C6, as stated: with the entries [5, 10] and a circuit whose gates have
    the times 0 and 3 the run succeeds and calls back once, not twice. *)
Lemma Run_one_callback_for_two_entries :
  exists trace,
    Run (fun _ _ => tt) (fun _ => false) (fun s => (true, s)) (fun _ s => s)
        BasicGateFuser.FuseGates (fun _ s => s) (mkParam 1 0) [5; 10]
        (mkCircuit 1 [gate1 0 0 0 false; gate1 0 3 0 false])
      = Some (true, tt, trace) /\
    length (measurements trace) <> length [5; 10].
Proof. eexists. split; [vm_compute; reflexivity|]. simpl. lia. Qed.

(** C6, amended.  When the entries of [times_to_measure_at] cut the list of
    fused gates into consecutive windows, none of them empty (for every entry
    there is a fused gate with a time at most the entry and above the entry
    before, the fused gates of a window stand in front of all later ones, and
    no fused gate is later than the last entry), a run with memory for the
    state returns [true], applies every fused gate once and in order, and
    calls back exactly once per entry, in order; at the callback of the entry
    [t] every fused gate with a time at most [t] has been applied and every
    fused gate with a later time has not. *)
Theorem Run_measures_every_window {State : Type}
    (CreateState : nat -> nat -> State) (IsNull : State -> bool)
    (SetStateZero : State -> bool * State)
    (ApplyFusedGate : GateFused -> State -> State)
    (FuseGates : nat -> list Gate -> list nat -> option (list GateFused * list string))
    (measure : nat -> State -> State)
    (param : Param) (times : list nat) (circuit : Circuit)
    (fused : list GateFused) (errors : list string) :
  IsNull (CreateState (c_num_qubits circuit) (num_threads param)) = false ->
  FuseGates (c_num_qubits circuit) (c_gates circuit) times = Some (fused, errors) ->
  windows_ok times fused = true ->
  exists state trace,
    Run CreateState IsNull SetStateZero ApplyFusedGate FuseGates measure
        param times circuit = Some (true, state, trace) /\
    measurements trace = seq 0 (length times) /\
    applied trace = seq 0 (length fused) /\
    forall cur t, times !! cur = Some t ->
      exists pre post,
        trace = pre ++ EvMeasure cur :: post /\
        (forall i g, fused !! i = Some g -> ftime g <= t -> i ∈ applied pre) /\
        (forall i g, fused !! i = Some g -> t < ftime g -> i ∈ applied post).
Proof.
  intros Hnull Hfuse Hok. unfold Run. rewrite Hnull, Hfuse. simpl.
  destruct (loop_windows ApplyFusedGate measure param fused [] times 0
              (snd (SetStateZero
                      (CreateState (c_num_qubits circuit) (num_threads param))))
              (map EvError errors) Hok)
    as (state & ext & Hrun & Hmeas & Happ & Hpos).
  simpl in Hrun, Hmeas, Hpos. rewrite Hrun. simpl.
  assert (Herr_m : measurements (map EvError errors) = []).
  { clear. by induction errors. }
  assert (Herr_a : applied (map EvError errors) = []).
  { clear. by induction errors. }
  set (tail := if 0 <? verbosity param then [EvMessage message_elapsed] else []).
  assert (Htail_m : measurements tail = []) by (unfold tail; by destruct (0 <? _)).
  assert (Htail_a : applied tail = []) by (unfold tail; by destruct (0 <? _)).
  exists state, ((map EvError errors ++ ext) ++ tail).
  split.
  { unfold tail. destruct (0 <? verbosity param); [done|by rewrite app_nil_r]. }
  split.
  { by rewrite !measurements_app, Herr_m, Htail_m, Hmeas, app_nil_r. }
  split.
  { by rewrite !applied_app, Herr_a, Htail_a, Happ, app_nil_r. }
  intros cur t Ht. destruct (Hpos cur t Ht) as (pre & post & -> & Hpre & Hpost).
  exists (map EvError errors ++ pre), (post ++ tail).
  split; [by rewrite <- !app_assoc|]. split.
  - intros i g Hi Hle. rewrite applied_app, Herr_a. simpl. by eapply (Hpre i).
  - intros i g Hi Hlt. rewrite applied_app, Htail_a, app_nil_r.
    by eapply (Hpost i).
Qed.

Lemma Run_measures_every_window_witness :
  exists state trace,
    Run (fun _ _ => tt) (fun _ => false) (fun s => (true, s)) (fun _ s => s)
        BasicGateFuser.FuseGates (fun _ s => s) (mkParam 1 0) [0; 1]
        (mkCircuit 1 two_steps)
      = Some (true, state, trace) /\
    measurements trace = seq 0 (length [0; 1]) /\
    applied trace = seq 0 (length two_steps_fused) /\
    forall cur t, [0; 1] !! cur = Some t ->
      exists pre post,
        trace = pre ++ EvMeasure cur :: post /\
        (forall i g, two_steps_fused !! i = Some g ->
                     ftime g <= t -> i ∈ applied pre) /\
        (forall i g, two_steps_fused !! i = Some g ->
                     t < ftime g -> i ∈ applied post).
Proof.
  apply (Run_measures_every_window (fun _ _ => tt) (fun _ => false)
           (fun s => (true, s)) (fun _ s => s) BasicGateFuser.FuseGates
           (fun _ s => s) (mkParam 1 0) [0; 1]
           (mkCircuit 1 two_steps) two_steps_fused []).
  - reflexivity.
  - vm_compute. reflexivity.
  - vm_compute. reflexivity.
Defined.

End RunnerWindows.

Module LayoutFacts.

Import StateSpaceAVX Scenario.

(** C7, as stated: for one qubit the round trip clears the padding lanes. *)
Lemma round_trip_clears_padding :
  length padded_state = raw_size_ 1 /\
  exists normal back,
    InternalToNormalOrder 1 padded_state = (true, normal) /\
    NormalToInternalOrder 1 normal = (true, back) /\
    back <> padded_state.
Proof.
  split; [reflexivity|]. eexists _, _.
  split; [vm_compute; reflexivity|]. split; [vm_compute; reflexivity|].
  discriminate.
Qed.

Section Blocks.

Context {F : Type} `{Scalar F}.

(** What [for_.Run] makes of a state when the body of round [i] rewrites
    block [i]: the blocks are rewritten one after the other. *)
Fixpoint bmap (g : nat -> list F -> list F) (k m : nat) (s : list F) : list F :=
  match m with
  | 0 => s
  | S m' => g k (take 16 s) ++ bmap g (S k) m' (drop 16 s)
  end.

Lemma foldl_ext_eq {A B : Type} (f g : A -> B -> A) (l : list B) :
  (forall a x, f a x = g a x) -> forall a, foldl f a l = foldl g a l.
Proof.
  intros Hfg. induction l as [|x l IH]; intros a; [done|].
  simpl. by rewrite Hfg, IH.
Qed.

Lemma on_block_0 g (s : list F) : on_block 0 g s = g (take 16 s) ++ drop 16 s.
Proof. done. Qed.

Lemma on_block_S i g (a s : list F) :
  length a = 16 -> on_block (S i) g (a ++ s) = a ++ on_block i g s.
Proof.
  intros Ha. unfold on_block.
  replace (16 * S i) with (length a + 16 * i) by lia.
  rewrite take_app_add, drop_app_add.
  replace (length a + 16 * i + 16) with (length a + (16 * i + 16)) by lia.
  rewrite drop_app_add. by rewrite <- app_assoc.
Qed.

Lemma foldl_on_block_shift (g : nat -> list F -> list F) (a s : list F) l :
  length a = 16 ->
  foldl (fun p i => on_block (S i) (g i) p) (a ++ s) l
  = a ++ foldl (fun p i => on_block i (g i) p) s l.
Proof.
  intros Ha. revert s. induction l as [|i l IH]; intros s; [done|].
  simpl. rewrite on_block_S by done. apply IH.
Qed.

Lemma for_Run_bmap (g : nat -> list F -> list F) m : forall k (s : list F),
  (forall j b, length b = 16 -> length (g j b) = 16) ->
  16 * m <= length s ->
  foldl (fun p i => on_block i (g (k + i)) p) s (seq 0 m) = bmap g k m s.
Proof.
  induction m as [|m IH]; intros k s Hg Hlen; [done|].
  rewrite <- cons_seq, <- fmap_S_seq. simpl.
  rewrite on_block_0, Nat.add_0_r.
  rewrite foldl_fmap.
  rewrite (foldl_on_block_shift (fun i => g (k + S i))).
  2:{ apply Hg. rewrite length_take. lia. }
  f_equal. rewrite <- (IH (S k)); [|done|rewrite length_drop; lia].
  apply foldl_ext_eq. intros p i. by replace (k + S i) with (S k + i) by lia.
Qed.

Lemma bmap_length (g : nat -> list F -> list F) m : forall k (s : list F),
  (forall j b, length b = 16 -> length (g j b) = 16) ->
  16 * m <= length s ->
  length (bmap g k m s) = length s.
Proof.
  induction m as [|m IH]; intros k s Hg Hlen; [done|].
  simpl. rewrite length_app, Hg, IH; try done.
  - rewrite length_drop. lia.
  - rewrite length_drop. lia.
  - rewrite length_take. lia.
Qed.

Lemma bmap_inverse (g1 g2 : nat -> list F -> list F) m : forall k (s : list F),
  (forall j b, length b = 16 -> length (g1 j b) = 16 /\ g2 j (g1 j b) = b) ->
  16 * m <= length s ->
  bmap g2 k m (bmap g1 k m s) = s.
Proof.
  induction m as [|m IH]; intros k s Hg Hlen; [done|].
  simpl.
  assert (Hb : length (take 16 s) = 16) by (rewrite length_take; lia).
  destruct (Hg k _ Hb) as [Hl Hinv].
  rewrite take_app_length' by done. rewrite drop_app_length' by done.
  rewrite Hinv, IH; [apply take_drop|done|rewrite length_drop; lia].
Qed.

(** A list of sixteen values, spelt out. *)
Lemma list16 (b : list F) :
  length b = 16 ->
  exists x0 x1 x2 x3 x4 x5 x6 x7 x8 x9 x10 x11 x12 x13 x14 x15,
    b = [x0; x1; x2; x3; x4; x5; x6; x7; x8; x9; x10; x11; x12; x13; x14; x15].
Proof.
  intros Hb.
  do 16 (destruct b as [|? b]; [discriminate Hb|]).
  destruct b; [|discriminate Hb]. by repeat eexists.
Qed.

Lemma i2n_block_inverse (b : list F) :
  length b = 16 -> length (i2n_block b) = 16 /\ n2i_block (i2n_block b) = b.
Proof.
  intros Hb. apply list16 in Hb
    as (x0&x1&x2&x3&x4&x5&x6&x7&x8&x9&x10&x11&x12&x13&x14&x15&->).
  split; reflexivity.
Qed.

(** C7, amended.  For every number of qubits and every state of the raw
    size, which for one and for two qubits has zero in the lanes of the
    amplitudes from [2^N] on, [InternalToNormalOrder] followed by
    [NormalToInternalOrder] succeeds and gives the state back. *)
Theorem layout_round_trip (n : nat) (state : list F) :
  length state = raw_size_ n ->
  (n = 1 \/ n = 2 ->
   forall i, 2 ^ n <= i < 8 -> GetAmpl state i = (fzero, fzero)) ->
  exists normal,
    InternalToNormalOrder n state = (true, normal) /\
    NormalToInternalOrder n normal = (true, state).
Proof.
  intros Hlen Hpad. unfold InternalToNormalOrder, NormalToInternalOrder.
  rewrite Hlen, Nat.eqb_refl. simpl.
  destruct (n =? 1) eqn:H1; [|destruct (n =? 2) eqn:H2].
  - apply Nat.eqb_eq in H1 as ->. change (raw_size_ 1) with 16 in *.
    specialize (Hpad (or_introl eq_refl)).
    pose proof (Hpad 2 ltac:(simpl; lia)) as P2.
    pose proof (Hpad 3 ltac:(simpl; lia)) as P3.
    pose proof (Hpad 4 ltac:(simpl; lia)) as P4.
    pose proof (Hpad 5 ltac:(simpl; lia)) as P5.
    pose proof (Hpad 6 ltac:(simpl; lia)) as P6.
    pose proof (Hpad 7 ltac:(simpl; lia)) as P7.
    clear Hpad. apply list16 in Hlen
      as (x0&x1&x2&x3&x4&x5&x6&x7&x8&x9&x10&x11&x12&x13&x14&x15&->).
    vm_compute in P2, P3, P4, P5, P6, P7.
    injection P2 as -> ->. injection P3 as -> ->. injection P4 as -> ->.
    injection P5 as -> ->. injection P6 as -> ->. injection P7 as -> ->.
    eexists. split; reflexivity.
  - apply Nat.eqb_eq in H2 as ->. change (raw_size_ 2) with 16 in *.
    specialize (Hpad (or_intror eq_refl)).
    pose proof (Hpad 4 ltac:(simpl; lia)) as P4.
    pose proof (Hpad 5 ltac:(simpl; lia)) as P5.
    pose proof (Hpad 6 ltac:(simpl; lia)) as P6.
    pose proof (Hpad 7 ltac:(simpl; lia)) as P7.
    clear Hpad. apply list16 in Hlen
      as (x0&x1&x2&x3&x4&x5&x6&x7&x8&x9&x10&x11&x12&x13&x14&x15&->).
    vm_compute in P4, P5, P6, P7.
    injection P4 as -> ->. injection P5 as -> ->.
    injection P6 as -> ->. injection P7 as -> ->.
    eexists. split; reflexivity.
  - clear Hpad. eexists. split; [reflexivity|].
    assert (Hm : 16 * (raw_size_ n / 16) <= length state).
    { rewrite Hlen. apply Nat.Div0.mul_div_le. }
    unfold for_Run.
    rewrite (for_Run_bmap (fun _ => i2n_block) _ 0 state);
      [|intros; by apply i2n_block_inverse|done].
    rewrite bmap_length; [|intros; by apply i2n_block_inverse|done].
    rewrite Hlen, Nat.eqb_refl. simpl.
    rewrite (for_Run_bmap (fun _ => n2i_block) _ 0).
    + by rewrite (bmap_inverse (fun _ => i2n_block) (fun _ => n2i_block))
        by (try done; intros; by apply i2n_block_inverse).
    + intros j b Hb. apply list16 in Hb
        as (x0&x1&x2&x3&x4&x5&x6&x7&x8&x9&x10&x11&x12&x13&x14&x15&->).
      reflexivity.
    + rewrite bmap_length; [done|intros; by apply i2n_block_inverse|done].
Qed.

End Blocks.

Lemma layout_round_trip_witness :
  exists normal,
    InternalToNormalOrder 1 ket0 = (true, normal) /\
    NormalToInternalOrder 1 normal = (true, ket0).
Proof.
  apply (layout_round_trip 1 ket0).
  - reflexivity.
  - intros _ i Hi. simpl in Hi.
    assert (Hc : i = 2 \/ i = 3 \/ i = 4 \/ i = 5 \/ i = 6 \/ i = 7) by lia.
    destruct Hc as [->|[->|[->|[->|[->| ->]]]]]; reflexivity.
Defined.

End LayoutFacts.

Module CollapseFacts.

Import StateSpaceAVX Mass Scenario LayoutFacts.

(** *** The raw size *)

Lemma raw_size_blocks (n : nat) :
  exists m, raw_size_ n = 16 * m /\ 0 < m /\ (Z.of_nat (16 * m) < 2 ^ 64)%Z.
Proof.
  unfold raw_size_, MinimumRawSize, u64.
  set (X := ((2 * (Z.shiftl 1 (Z.of_nat n) mod 2 ^ 64)) mod 2 ^ 64)%Z).
  assert (HX : (0 <= X < 2 ^ 64)%Z) by (apply Z.mod_pos_bound; lia).
  destruct (Z.max_spec 16 X) as [[Hlt ->]|[Hle ->]].
  - assert (Hdiv : (X mod 16 = 0)%Z).
    { unfold X. rewrite Z.mod_mod_divide by (exists (2 ^ 60)%Z; lia).
      rewrite Z.shiftl_1_l.
      destruct (Nat.lt_ge_cases n 3) as [Hn|Hn].
      - exfalso. unfold X in Hlt. rewrite Z.shiftl_1_l in Hlt.
        assert (Hc : n = 0 \/ n = 1 \/ n = 2) by lia.
        destruct Hc as [->|[->| ->]]; vm_compute in Hlt; discriminate.
      - replace (Z.of_nat n) with (3 + Z.of_nat (n - 3))%Z by lia.
        rewrite Z.pow_add_r by lia.
        assert (H8 : ((2 ^ 3 * 2 ^ Z.of_nat (n - 3)) mod 2 ^ 64 mod 8 = 0)%Z).
        { rewrite Z.mod_mod_divide by (exists (2 ^ 61)%Z; lia).
          rewrite Z.mul_comm. apply Z.mod_mul. lia. }
        apply Z.mod_divide in H8 as [q Hq]; [|lia]. rewrite Hq.
        replace (2 * (q * 8))%Z with (q * 16)%Z by lia.
        apply Z.mod_mul. lia. }
    apply Z.mod_divide in Hdiv as [q Hq]; [|lia].
    exists (Z.to_nat q). split; [lia|]. split; lia.
  - exists 1. split; [reflexivity|]. split; [lia|]. vm_compute. reflexivity.
Qed.

(** *** The mask of a block *)

Lemma land_low_high (x m b : Z) :
  (0 <= x < 2 ^ 64)%Z -> (0 <= m < 2 ^ 64)%Z -> (0 <= b < 2 ^ 64)%Z ->
  ((Z.land (x mod 2 ^ 32) (m mod 2 ^ 32) =? b mod 2 ^ 32)%Z
   && (Z.land (x / 2 ^ 32) (m / 2 ^ 32) =? b / 2 ^ 32)%Z)
  = (Z.land x m =? b)%Z.
Proof.
  intros Hx Hm Hb.
  assert (Hlo : (Z.land (x mod 2 ^ 32) (m mod 2 ^ 32)
                 = Z.land x m mod 2 ^ 32)%Z).
  { rewrite <- !Z.land_ones by lia. apply Z.bits_inj'. intros k Hk.
    rewrite !Z.land_spec.
    destruct (Z.testbit x k), (Z.testbit m k), (Z.testbit (Z.ones 32) k);
      reflexivity. }
  assert (Hhi : (Z.land (x / 2 ^ 32) (m / 2 ^ 32) = Z.land x m / 2 ^ 32)%Z).
  { rewrite <- !Z.shiftr_div_pow2 by lia. by rewrite Z.shiftr_land. }
  rewrite Hlo, Hhi. set (y := Z.land x m).
  pose proof (Z.div_mod y (2 ^ 32) ltac:(lia)) as Hy.
  pose proof (Z.div_mod b (2 ^ 32) ltac:(lia)) as Hb'.
  destruct (Z.eqb_spec y b) as [->|Hne].
  - by rewrite !Z.eqb_refl.
  - destruct (Z.eqb_spec (y mod 2 ^ 32) (b mod 2 ^ 32)) as [E1|]; [|done].
    destruct (Z.eqb_spec (y / 2 ^ 32) (b / 2 ^ 32)) as [E2|]; [|done].
    exfalso. apply Hne. rewrite Hy, Hb'. by rewrite E1, E2.
Qed.

(** Element [e] of the mask of a block is set in all its bits when the index
    [i + e] survives, and is zero otherwise. *)
Definition lane (i mask bits e : Z) : Z :=
  if (Z.land (u64 (i + e)) (u64 mask) =? u64 bits)%Z then (2 ^ 32 - 1)%Z else 0%Z.

Lemma u64_bounds x : (0 <= u64 x < 2 ^ 64)%Z.
Proof. apply Z.mod_pos_bound. lia. Qed.

Lemma GetZeroMaskAVX_lanes (i mask bits : Z) :
  GetZeroMaskAVX i mask bits = map (lane i mask bits) [0; 1; 2; 3; 4; 5; 6; 7]%Z.
Proof.
  unfold GetZeroMaskAVX, _mm256_setr_epi64x, _mm256_set1_epi64x,
    _mm256_and_si256, _mm256_blend_epi32, epi64.
  cbn [app zip_with _mm256_cmpeq_epi64 zip imap map].
  rewrite !land_low_high by apply u64_bounds.
  reflexivity.
Qed.

Section Generic.

Context {F : Type} `{ScalarSqrt F}.
Variable mr : MeasurementResult.
Hypothesis Hmask : (0 <= mask mr < 2 ^ 64)%Z.
Hypothesis Hbits : (0 <= bits mr < 2 ^ 64)%Z.

(** A value in the lane of the amplitude [i] as the masked load sees it. *)
Definition keep (i : nat) (x : F) : F := if survives mr i then x else fzero.

Lemma lane_survives (k j : nat) :
  (Z.of_nat (8 * k + j) < 2 ^ 64)%Z ->
  Z.testbit (lane (u64 (8 * Z.of_nat k)) (mask mr) (bits mr) (Z.of_nat j)) 31
  = survives mr (8 * k + j).
Proof.
  intros Hk. unfold lane, survives, u64.
  rewrite (Z.mod_small (8 * Z.of_nat k)) by lia.
  rewrite (Z.mod_small (8 * Z.of_nat k + Z.of_nat j)) by lia.
  rewrite (Z.mod_small (mask mr)), (Z.mod_small (bits mr)) by lia.
  replace (8 * Z.of_nat k + Z.of_nat j)%Z with (Z.of_nat (8 * k + j)) by lia.
  by destruct (Z.land _ _ =? _)%Z.
Qed.

Lemma load_at (p : list F) (off : nat) :
  off + 8 <= length p ->
  _mm256_load_ps p off = map (fun j => at_ p (off + j)) (seq 0 8).
Proof.
  intros Hlen. unfold _mm256_load_ps, at_. apply list_eq. intros i.
  destruct (decide (i < 8)) as [Hi|Hi].
  - rewrite lookup_take_lt, lookup_drop by done.
    rewrite list_lookup_fmap, lookup_seq_lt by done. simpl.
    destruct (lookup_lt_is_Some_2 p (off + i) ltac:(lia)) as [x Hx].
    rewrite Hx. f_equal. symmetry. rewrite nth_lookup, Hx. done.
  - rewrite lookup_take_ge by lia.
    rewrite list_lookup_fmap, lookup_seq_ge by lia. done.
Qed.

Lemma maskload_at (p : list F) (k off : nat) :
  off + 8 <= length p ->
  (Z.of_nat (8 * k + 7) < 2 ^ 64)%Z ->
  _mm256_maskload_ps p off
    (GetZeroMaskAVX (u64 (8 * Z.of_nat k)) (mask mr) (bits mr))
  = map (fun j => keep (8 * k + j) (at_ p (off + j))) (seq 0 8).
Proof.
  intros Hlen Hk. unfold _mm256_maskload_ps.
  rewrite GetZeroMaskAVX_lanes, load_at by done.
  cbn [map seq zip_with]. unfold keep.
  rewrite <- (lane_survives k 0), <- (lane_survives k 1),
    <- (lane_survives k 2), <- (lane_survives k 3), <- (lane_survives k 4),
    <- (lane_survives k 5), <- (lane_survives k 6), <- (lane_survives k 7)
    by lia.
  reflexivity.
Qed.

(** The norm that [f1] finds in block [k]. *)
Definition block_norm (p : list F) (k : nat) : F :=
  HorizontalSumAVX
    (map (fun j =>
            let re := keep (8 * k + j) (at_ p (16 * k + j)) in
            let im := keep (8 * k + j) (at_ p (16 * k + 8 + j)) in
            fadd (fmul im im) (fmul re re)) (seq 0 8)).

Lemma f1_block (p : list F) (k : nat) :
  16 * k + 16 <= length p ->
  (Z.of_nat (8 * k + 7) < 2 ^ 64)%Z ->
  CollapseState_f1 k (mask mr) (bits mr) p = block_norm p k.
Proof.
  intros Hlen Hk. unfold CollapseState_f1, block_norm.
  rewrite !maskload_at by (done || lia). reflexivity.
Qed.

(** What [f2] writes into block [k], from the sixteen values [b] of the
    block. *)
Definition block_scaled (r : F) (k : nat) (b : list F) : list F :=
  map (fun j => fmul (keep (8 * k + j) (at_ b j)) r) (seq 0 8)
  ++ map (fun j => fmul (keep (8 * k + j) (at_ b (8 + j))) r) (seq 0 8).

Lemma at_block (p : list F) (k j : nat) :
  j < 16 -> at_ (take 16 (drop (16 * k) p)) j = at_ p (16 * k + j).
Proof.
  intros Hj. unfold at_. rewrite !nth_lookup.
  by rewrite lookup_take_lt, lookup_drop by done.
Qed.

Lemma store_store (p re im : list F) (off : nat) :
  off + 16 <= length p -> length re = 8 -> length im = 8 ->
  _mm256_store_ps (_mm256_store_ps p off re) (off + 8) im
  = take off p ++ (re ++ im) ++ drop (off + 16) p.
Proof.
  intros Hp Hre Him. unfold _mm256_store_ps.
  assert (Hpre : length (take off p ++ re) = off + 8).
  { rewrite length_app, length_take. lia. }
  rewrite (app_assoc (take off p) re).
  rewrite take_app_length' by done.
  replace (off + 8 + 8) with (length (take off p ++ re) + 8) by lia.
  rewrite drop_app_add, drop_drop.
  rewrite <- !app_assoc. by replace (off + 8 + 8) with (off + 16) by lia.
Qed.

Lemma f2_block (r : F) (p : list F) (k : nat) :
  16 * k + 16 <= length p ->
  (Z.of_nat (8 * k + 7) < 2 ^ 64)%Z ->
  CollapseState_f2 k (mask mr) (bits mr) (_mm256_set1_ps r) p
  = on_block k (block_scaled r k) p.
Proof.
  intros Hlen Hk. unfold CollapseState_f2, on_block.
  rewrite !maskload_at by (done || lia).
  rewrite store_store by (done || reflexivity).
  do 2 f_equal. unfold block_scaled.
  cbn [map seq]. rewrite !at_block by lia.
  replace (16 * k + 8) with (16 * k + (8 + 0)) by lia.
  rewrite <- !Nat.add_assoc. reflexivity.
Qed.

Lemma block_scaled_length r k b : length (block_scaled r k b) = 16.
Proof. reflexivity. Qed.

Lemma at_bmap (g : nat -> list F -> list F) m : forall k0 (s : list F) k j,
  (forall i b, length b = 16 -> length (g i b) = 16) ->
  16 * m <= length s -> k < m -> j < 16 ->
  at_ (bmap g k0 m s) (16 * k + j)
  = at_ (g (k0 + k) (take 16 (drop (16 * k) s))) j.
Proof.
  induction m as [|m IH]; intros k0 s k j Hg Hlen Hk Hj; [lia|].
  cbn [bmap]. assert (Hb : length (g k0 (take 16 s)) = 16).
  { apply Hg. rewrite length_take. lia. }
  unfold at_ in *. destruct k as [|k].
  - replace (16 * 0 + j) with j by lia. replace (k0 + 0) with k0 by lia.
    replace (16 * 0) with 0 by lia. rewrite drop_0.
    rewrite app_nth1 by lia. done.
  - rewrite app_nth2 by lia. rewrite Hb.
    replace (16 * S k + j - 16) with (16 * k + j) by lia.
    rewrite IH; [|done|rewrite length_drop; lia|lia|done].
    rewrite drop_drop.
    replace (16 + 16 * k) with (16 * S k) by lia.
    by replace (S k0 + k) with (k0 + S k) by lia.
Qed.

(** After the second pass an amplitude is what the masked load kept of it,
    times the factor. *)
Lemma GetAmpl_bmap_scaled (r : F) (state : list F) (m i : nat) :
  16 * m <= length state -> i < 8 * m ->
  GetAmpl (bmap (block_scaled r) 0 m state) i
  = (fmul (keep i (fst (GetAmpl state i))) r,
     fmul (keep i (snd (GetAmpl state i))) r).
Proof.
  intros Hlen Hi. unfold GetAmpl. cbn [fst snd].
  assert (Hk : i / 8 < m) by (apply Nat.Div0.div_lt_upper_bound; lia).
  assert (Hj : i mod 8 < 8) by (apply Nat.mod_upper_bound; lia).
  pose proof (Nat.div_mod_eq i 8) as Hi8.
  replace (16 * (i / 8) + i mod 8 + 8) with (16 * (i / 8) + (8 + i mod 8)) by lia.
  rewrite !at_bmap by (done || lia || (intros; apply block_scaled_length)).
  rewrite !Nat.add_0_l. set (b := take 16 (drop (16 * (i / 8)) state)).
  assert (E1 : at_ (block_scaled r (i / 8) b) (i mod 8)
               = fmul (keep (8 * (i / 8) + i mod 8) (at_ b (i mod 8))) r).
  { clear -Hj. remember (i mod 8) as j. clear Heqj. remember (i / 8) as k.
    clear Heqk. do 8 (destruct j as [|j]; [reflexivity|]). lia. }
  assert (E2 : at_ (block_scaled r (i / 8) b) (8 + i mod 8)
               = fmul (keep (8 * (i / 8) + i mod 8) (at_ b (8 + i mod 8))) r).
  { clear -Hj. remember (i mod 8) as j. clear Heqj. remember (i / 8) as k.
    clear Heqk. do 8 (destruct j as [|j]; [reflexivity|]). lia. }
  rewrite E1, E2. unfold b. rewrite !at_block by lia.
  replace (8 * (i / 8) + i mod 8) with i by lia.
  by replace (16 * (i / 8) + i mod 8 + 8) with (16 * (i / 8) + (8 + i mod 8)) by lia.
Qed.

End Generic.

Lemma slot_div (k j : nat) : j < 8 -> (8 * k + j) / 8 = k.
Proof.
  intros Hj. rewrite (Nat.mul_comm 8 k), Nat.div_add_l by lia.
  rewrite Nat.div_small by done. lia.
Qed.

Lemma slot_mod (k j : nat) : j < 8 -> (8 * k + j) mod 8 = j.
Proof.
  intros Hj. rewrite Nat.add_comm, (Nat.mul_comm 8 k), Nat.Div0.mod_add.
  by apply Nat.mod_small.
Qed.

(** *** Exact arithmetic *)

Section Exact.

Local Open Scope R_scope.

Variable mr : MeasurementResult.
Hypothesis Hmask : (0 <= mask mr < 2 ^ 64)%Z.
Hypothesis Hbits : (0 <= bits mr < 2 ^ 64)%Z.

Definition sumR (l : list R) : R := foldr Rplus 0 l.

Lemma sumR_app a b : sumR (a ++ b) = sumR a + sumR b.
Proof. induction a as [|x a IH]; simpl; [lra|]. rewrite IH. lra. Qed.

(** The survivors among the amplitudes below [n], summed. *)
Definition mass_below (state : list R) (n : nat) : R :=
  sumR (map (fun i => norm2 (GetAmpl state i))
            (filter (fun i => survives mr i = true) (seq 0 n))).

Lemma surviving_mass_below (state : list R) :
  surviving_mass mr state = mass_below state (length state / 2).
Proof. reflexivity. Qed.

Lemma sumR_filter (h : nat -> R) (l : list nat) :
  sumR (map h (filter (fun i => survives mr i = true) l))
  = sumR (map (fun i => if survives mr i then h i else 0) l).
Proof.
  induction l as [|i l IH]; [done|].
  rewrite filter_cons. simpl. destruct (survives mr i) eqn:Hs.
  - rewrite decide_True by done. simpl. by rewrite IH.
  - rewrite decide_False by done. rewrite IH. lra.
Qed.

Lemma GetAmpl_lane (state : list R) (k j : nat) :
  (j < 8)%nat ->
  GetAmpl state (8 * k + j)
  = (at_ state (16 * k + j), at_ state (16 * k + 8 + j)).
Proof.
  intros Hj. unfold GetAmpl.
  rewrite slot_div, slot_mod by done.
  by replace (16 * k + j + 8)%nat with (16 * k + 8 + j)%nat by lia.
Qed.

Lemma lane_norm (i : nat) (re im : R) :
  fadd (fmul (keep mr i im) (keep mr i im)) (fmul (keep mr i re) (keep mr i re))
  = if survives mr i then norm2 (re, im) else 0.
Proof.
  unfold keep, norm2. simpl. destruct (survives mr i); simpl; lra.
Qed.

Lemma mass_below_block (state : list R) (m : nat) :
  mass_below state (8 * S m) = mass_below state (8 * m) + block_norm mr state m.
Proof.
  unfold mass_below.
  replace (8 * S m)%nat with (8 * m + 8)%nat by lia.
  rewrite seq_app, filter_app, map_app, sumR_app. f_equal.
  rewrite sumR_filter. simpl (0 + 8 * m)%nat.
  rewrite <- (Nat.add_0_r (8 * m)) at 1. rewrite <- fmap_add_seq.
  unfold block_norm, HorizontalSumAVX, at_. cbn [seq map fmap list_fmap nth sumR foldr].
  fold (at_ state).
  rewrite !lane_norm. rewrite !GetAmpl_lane by lia.
  unfold at_. change (@fadd R R_scalar) with Rplus. lra.
Qed.

Lemma reduce_mass (state : list R) (m : nat) :
  (16 * m <= length state)%nat ->
  (Z.of_nat (16 * m) < 2 ^ 64)%Z ->
  for_RunReduce m (fun i => CollapseState_f1 i (mask mr) (bits mr) state)
  = mass_below state (8 * m).
Proof.
  intros Hlen Hm. unfold for_RunReduce.
  induction m as [|m IH]; [reflexivity|].
  rewrite seq_S, foldl_snoc. simpl (0 + m)%nat.
  rewrite IH by lia. rewrite f1_block by (done || lia).
  by rewrite mass_below_block.
Qed.

Lemma mass_below_nonneg (state : list R) (n : nat) : 0 <= mass_below state n.
Proof.
  unfold mass_below, sumR.
  induction (filter _ (seq 0 n)) as [|i l IH]; cbn [map foldr]; [lra|].
  destruct (GetAmpl state i) as [a b]. unfold norm2. cbn [fst snd].
  change (@fadd R R_scalar) with Rplus. change (@fmul R R_scalar) with Rmult.
  pose proof (Rle_0_sqr a) as Ha. pose proof (Rle_0_sqr b) as Hb.
  unfold Rsqr in Ha, Hb. unfold norm2 in IH. cbn [fst snd] in IH.
  change (@fadd R R_scalar) with Rplus in IH.
  change (@fmul R R_scalar) with Rmult in IH. lra.
Qed.

Lemma mass_below_scaled (r : R) (state : list R) (m n : nat) :
  (16 * m <= length state)%nat -> (n <= 8 * m)%nat ->
  mass_below (bmap (block_scaled mr r) 0 m state) n
  = r * r * mass_below state n.
Proof.
  intros Hlen Hn. unfold mass_below.
  assert (Hall : Forall (fun i => (i < 8 * m)%nat) (seq 0 n)).
  { apply Forall_forall. intros i Hi%elem_of_seq. lia. }
  induction (seq 0 n) as [|i l IH]; [simpl; lra|].
  apply Forall_cons in Hall as [Hi Hall].
  rewrite filter_cons. destruct (survives mr i) eqn:Hs.
  - rewrite decide_True by done. unfold sumR in *. cbn [map foldr].
    rewrite IH by done. rewrite GetAmpl_bmap_scaled by done.
    unfold keep. rewrite Hs.
    generalize (foldr Rplus 0
                  (map (fun i => norm2 (GetAmpl state i))
                       (filter (fun i => survives mr i = true) l))).
    intros S0. destruct (GetAmpl state i) as [a b]. unfold norm2.
    cbn [fst snd].
    change (@fadd R R_scalar) with Rplus. change (@fmul R R_scalar) with Rmult.
    ring.
  - rewrite decide_False by (simpl; congruence). by apply IH.
Qed.

End Exact.

Section Passes.

Context {F : Type} `{ScalarSqrt F}.

Lemma for_Run_f2 (mr : MeasurementResult) (r : F) (state : list F) (m : nat) :
  (0 <= mask mr < 2 ^ 64)%Z -> (0 <= bits mr < 2 ^ 64)%Z ->
  16 * m <= length state -> (Z.of_nat (16 * m) < 2 ^ 64)%Z ->
  for_Run m (fun i p => CollapseState_f2 i (mask mr) (bits mr) (_mm256_set1_ps r) p)
          state
  = bmap (block_scaled mr r) 0 m state.
Proof.
  intros Hmask Hbits Hlen Hm. unfold for_Run.
  rewrite <- (for_Run_bmap (block_scaled mr r) m 0 state)
    by (done || intros; apply block_scaled_length).
  cbn [Nat.add].
  assert (Hpre : forall m', m' <= m ->
    foldl (fun a i => CollapseState_f2 i (mask mr) (bits mr) (_mm256_set1_ps r) a)
          state (seq 0 m')
    = foldl (fun p i => on_block i (block_scaled mr r i) p) state (seq 0 m')).
  { induction m' as [|m' IH]; intros Hm'; [done|].
    rewrite seq_S, !foldl_snoc. cbn [Nat.add]. rewrite IH by lia.
    apply f2_block; try done; [|lia].
    rewrite (for_Run_bmap (block_scaled mr r) m' 0 state)
      by (lia || intros; apply block_scaled_length).
    rewrite bmap_length by (lia || intros; apply block_scaled_length). lia. }
  by apply Hpre.
Qed.

(** C3, amended.  [CollapseState] returns [true] exactly when the state has
    the raw size of the state space; it does not look at the surviving
    mass, and a surviving mass of zero is not reported. *)
Theorem CollapseState_true_iff_size (n : nat) (mr : MeasurementResult)
    (state : list F) :
  fst (CollapseState n mr state) = true <-> length state = raw_size_ n.
Proof.
  unfold CollapseState. destruct (Nat.eqb_spec (length state) (raw_size_ n));
    simpl; split; intros; done.
Qed.

End Passes.

(** C3, as stated: the zero state has the raw size of one qubit and no
    surviving mass for the outcome [1] of qubit 0, and [CollapseState]
    returns [true]. *)
Lemma CollapseState_zero_mass_succeeds :
  length zero_state = raw_size_ 1 /\
  surviving_mass (mkMeasurementResult 1 1) zero_state = 0%R /\
  fst (CollapseState 1 (mkMeasurementResult 1 1) zero_state) = true.
Proof.
  split; [reflexivity|]. split.
  - vm_compute. lra.
  - reflexivity.
Qed.

(** In exact arithmetic and with all lanes of the buffer counted, those
    behind the amplitudes of the basis states as well: for a state of the
    raw size whose surviving mass is not zero, [CollapseState] succeeds,
    leaves zero in every lane whose index does not survive, and the squared
    magnitudes of the surviving lanes sum to one. *)
Lemma CollapseState_normalises_lanes (n : nat) (mr : MeasurementResult)
    (state : list R) :
  (0 <= mask mr < 2 ^ 64)%Z -> (0 <= bits mr < 2 ^ 64)%Z ->
  length state = raw_size_ n ->
  surviving_mass mr state <> 0%R ->
  exists state',
    CollapseState n mr state = (true, state') /\
    length state' = raw_size_ n /\
    (forall i, i < raw_size_ n / 2 -> survives mr i = false ->
               GetAmpl state' i = (0%R, 0%R)) /\
    surviving_mass mr state' = 1%R.
Proof.
  intros Hmask Hbits Hlen Hmass.
  destruct (raw_size_blocks n) as (m & Hraw & Hm0 & Hm).
  unfold CollapseState. rewrite Hlen, Nat.eqb_refl. cbn [negb].
  assert (Hdiv16 : raw_size_ n / 16 = m).
  { rewrite Hraw, Nat.mul_comm. apply Nat.div_mul. lia. }
  assert (Hdiv2 : raw_size_ n / 2 = 8 * m).
  { rewrite Hraw. replace (16 * m) with ((8 * m) * 2) by lia.
    apply Nat.div_mul. lia. }
  rewrite Hdiv16.
  rewrite (reduce_mass mr Hmask Hbits state m) by (rewrite ?Hlen; lia || done).
  rewrite surviving_mass_below, Hlen, Hdiv2 in Hmass.
  set (S0 := mass_below mr state (8 * m)) in *.
  rewrite (for_Run_f2 mr _ state m) by (rewrite ?Hlen; lia || done).
  eexists. split; [reflexivity|].
  assert (Hlen' : length (bmap (block_scaled mr (fdiv fone (fsqrt S0))) 0 m state)
                  = raw_size_ n).
  { rewrite bmap_length by (rewrite ?Hlen; lia || intros; apply block_scaled_length).
    done. }
  split; [done|]. split.
  - intros i Hi Hs. rewrite GetAmpl_bmap_scaled by (rewrite ?Hlen; lia).
    unfold keep. rewrite Hs. cbn. f_equal; lra.
  - rewrite surviving_mass_below, Hlen', Hdiv2.
    rewrite mass_below_scaled by (rewrite ?Hlen; lia). fold S0.
    pose proof (mass_below_nonneg mr state (8 * m)) as Hnn. fold S0 in Hnn.
    assert (Hpos : (0 < S0)%R) by lra.
    pose proof (sqrt_lt_R0 S0 Hpos) as Hsq.
    pose proof (sqrt_sqrt S0 Hnn) as Hss.
    change (@fdiv R R_scalar R_sqrt) with Rdiv.
    change (@fone R R_scalar R_sqrt) with 1%R.
    change (@fsqrt R R_scalar R_sqrt) with sqrt.
    rewrite <- Hss at 3. field. lra.
Qed.

(** *** The amplitudes of the basis states *)

Lemma raw_size_holds_basis (n : nat) : n < 63 -> 2 ^ n <= raw_size_ n / 2.
Proof.
  intros Hn. unfold raw_size_, MinimumRawSize, u64.
  rewrite Z.shiftl_1_l.
  assert (Hp : (2 ^ Z.of_nat n < 2 ^ 63)%Z)
    by (apply Z.pow_lt_mono_r; lia).
  assert (Hp0 : (0 < 2 ^ Z.of_nat n)%Z) by (apply Z.pow_pos_nonneg; lia).
  rewrite (Z.mod_small (2 ^ Z.of_nat n)) by lia.
  rewrite (Z.mod_small (2 * 2 ^ Z.of_nat n)) by lia.
  assert (Hle : (2 * 2 ^ Z.of_nat n <= Z.max 16 (2 * 2 ^ Z.of_nat n))%Z) by lia.
  apply Z2Nat.inj_le in Hle; [|lia..].
  replace (2 * 2 ^ Z.of_nat n)%Z with (Z.of_nat (2 * 2 ^ n)) in Hle at 1
    by (rewrite Nat2Z.inj_mul, Nat2Z.inj_pow; done).
  rewrite Nat2Z.id in Hle.
  apply Nat.div_le_lower_bound; lia.
Qed.

Lemma basis_mass_below (n : nat) (mr : MeasurementResult) (state : list R) :
  basis_mass n mr state = mass_below mr state (2 ^ n).
Proof. reflexivity. Qed.

(** Lanes that hold zero add nothing to the mass. *)
Lemma mass_below_zero_tail (mr : MeasurementResult) (state : list R) (a b : nat) :
  a <= b ->
  (forall i, a <= i < b -> GetAmpl state i = (0%R, 0%R)) ->
  mass_below mr state b = mass_below mr state a.
Proof.
  intros Hab Hz. unfold mass_below.
  replace b with (a + (b - a)) by lia.
  rewrite seq_app, filter_app, map_app, sumR_app. simpl (0 + a).
  assert (Hall : Forall (fun i => a <= i < b) (seq a (b - a))).
  { apply Forall_forall. intros i Hi%elem_of_seq. lia. }
  assert (H0 : sumR (map (fun i => norm2 (GetAmpl state i))
                      (filter (fun i => survives mr i = true) (seq a (b - a))))
               = 0%R).
  { induction (seq a (b - a)) as [|i l IH]; [done|].
    apply Forall_cons in Hall as [Hi Hall]. rewrite filter_cons.
    destruct (decide (survives mr i = true)); [|by apply IH].
    cbn [map sumR foldr]. fold (sumR (map (fun i => norm2 (GetAmpl state i))
                      (filter (fun i => survives mr i = true) l))).
    rewrite IH by done. rewrite (Hz i Hi). unfold norm2. simpl. lra. }
  rewrite H0. lra.
Qed.

(** C4, amended.  In exact arithmetic, for less than 63 qubits and a state
    of the raw size that has zero in the lanes behind its [2^n] amplitudes
    and whose surviving mass is not zero, [CollapseState] succeeds, leaves
    zero in every amplitude whose index does not survive and in the lanes
    behind the amplitudes, and the squared magnitudes of the surviving
    amplitudes of the basis states sum to one. *)
Theorem CollapseState_normalises_basis (n : nat) (mr : MeasurementResult)
    (state : list R) :
  (0 <= mask mr < 2 ^ 64)%Z -> (0 <= bits mr < 2 ^ 64)%Z ->
  n < 63 ->
  length state = raw_size_ n ->
  (forall i, 2 ^ n <= i < raw_size_ n / 2 -> GetAmpl state i = (0%R, 0%R)) ->
  basis_mass n mr state <> 0%R ->
  exists state',
    CollapseState n mr state = (true, state') /\
    length state' = raw_size_ n /\
    (forall i, i < raw_size_ n / 2 -> survives mr i = false ->
               GetAmpl state' i = (0%R, 0%R)) /\
    (forall i, 2 ^ n <= i < raw_size_ n / 2 -> GetAmpl state' i = (0%R, 0%R)) /\
    basis_mass n mr state' = 1%R.
Proof.
  intros Hmask Hbits Hn Hlen Hpad Hmass.
  pose proof (raw_size_holds_basis n Hn) as Hbasis.
  destruct (raw_size_blocks n) as (m & Hraw & Hm0 & Hm).
  unfold CollapseState. rewrite Hlen, Nat.eqb_refl. cbn [negb].
  assert (Hdiv16 : raw_size_ n / 16 = m).
  { rewrite Hraw, Nat.mul_comm. apply Nat.div_mul. lia. }
  assert (Hdiv2 : raw_size_ n / 2 = 8 * m).
  { rewrite Hraw. replace (16 * m) with ((8 * m) * 2) by lia.
    apply Nat.div_mul. lia. }
  rewrite Hdiv16, Hdiv2 in *.
  rewrite (reduce_mass mr Hmask Hbits state m) by (rewrite ?Hlen; lia || done).
  rewrite (mass_below_zero_tail mr state (2 ^ n) (8 * m)) by done.
  rewrite basis_mass_below in Hmass.
  set (S0 := mass_below mr state (2 ^ n)) in *.
  rewrite (for_Run_f2 mr _ state m) by (rewrite ?Hlen; lia || done).
  eexists. split; [reflexivity|].
  split.
  { rewrite bmap_length by (rewrite ?Hlen; lia || intros; apply block_scaled_length).
    by rewrite Hlen. }
  split; [|split].
  - intros i Hi Hs. rewrite GetAmpl_bmap_scaled by (rewrite ?Hlen; lia).
    unfold keep. rewrite Hs. cbn. f_equal; lra.
  - intros i Hi. rewrite GetAmpl_bmap_scaled by (rewrite ?Hlen; lia).
    rewrite (Hpad i Hi). unfold keep. destruct (survives mr i); cbn; f_equal; lra.
  - rewrite basis_mass_below.
    rewrite mass_below_scaled by (rewrite ?Hlen; lia). fold S0.
    pose proof (mass_below_nonneg mr state (2 ^ n)) as Hnn. fold S0 in Hnn.
    assert (Hpos : (0 < S0)%R) by lra.
    pose proof (sqrt_lt_R0 S0 Hpos) as Hsq.
    pose proof (sqrt_sqrt S0 Hnn) as Hss.
    change (@fdiv R R_scalar R_sqrt) with Rdiv.
    change (@fone R R_scalar R_sqrt) with 1%R.
    change (@fsqrt R R_scalar R_sqrt) with sqrt.
    rewrite <- Hss at 3. field. lra.
Qed.

(** C4, as stated: a buffer of the raw size of one qubit with 1 in the lanes
    0, 2, 4 and 6 has surviving mass for the outcome [0] of qubit 0;
    [CollapseState] succeeds and leaves zero where the index does not
    survive, but it has taken the norm over all eight lanes, and the
    squared magnitudes of the surviving amplitudes of the state sum to 1/4. *)
Lemma CollapseState_counts_padding :
  length padded_ones = raw_size_ 1 /\
  basis_mass 1 (mkMeasurementResult 1 0) padded_ones = 1%R /\
  exists state',
    CollapseState 1 (mkMeasurementResult 1 0) padded_ones = (true, state') /\
    (forall i, i < raw_size_ 1 / 2 ->
               survives (mkMeasurementResult 1 0) i = false ->
               GetAmpl state' i = (0%R, 0%R)) /\
    basis_mass 1 (mkMeasurementResult 1 0) state' = (1 / 4)%R /\
    basis_mass 1 (mkMeasurementResult 1 0) state' <> 1%R.
Proof.
  set (mr := mkMeasurementResult 1 0).
  assert (Hmask : (0 <= mask mr < 2 ^ 64)%Z) by (simpl; lia).
  assert (Hbits : (0 <= bits mr < 2 ^ 64)%Z) by (simpl; lia).
  split; [reflexivity|]. split; [vm_compute; lra|].
  unfold CollapseState. change (raw_size_ 1) with 16.
  change (length padded_ones =? 16) with true. cbn [negb].
  change (16 / 16) with 1. change (16 / 2) with 8.
  rewrite (reduce_mass mr Hmask Hbits padded_ones 1) by (simpl; lia).
  rewrite (for_Run_f2 mr _ padded_ones 1) by (simpl; lia || done).
  assert (H4 : mass_below mr padded_ones (8 * 1) = 4%R) by (vm_compute; lra).
  rewrite H4.
  assert (Hquarter : basis_mass 1 mr
            (bmap (block_scaled mr (fdiv fone (fsqrt 4%R))) 0 1 padded_ones)
          = (1 / 4)%R).
  { rewrite basis_mass_below.
    rewrite mass_below_scaled by (simpl; lia).
    assert (H1 : mass_below mr padded_ones (2 ^ 1) = 1%R) by (vm_compute; lra).
    rewrite H1.
    change (@fdiv R R_scalar R_sqrt) with Rdiv.
    change (@fone R R_scalar R_sqrt) with 1%R.
    change (@fsqrt R R_scalar R_sqrt) with sqrt.
    assert (Hs : sqrt 4 = 2%R).
    { replace 4%R with (2 * 2)%R by lra. apply sqrt_square. lra. }
    rewrite Hs. lra. }
  eexists. split; [reflexivity|]. split; [|split].
  - intros i Hi Hs. rewrite GetAmpl_bmap_scaled by (simpl; lia).
    unfold keep. rewrite Hs. cbn. f_equal; lra.
  - exact Hquarter.
  - rewrite Hquarter. lra.
Qed.

Lemma CollapseState_normalises_basis_witness :
  exists state',
    CollapseState 1 (mkMeasurementResult 1 0) ket0R = (true, state') /\
    length state' = raw_size_ 1 /\
    (forall i, i < raw_size_ 1 / 2 ->
               survives (mkMeasurementResult 1 0) i = false ->
               GetAmpl state' i = (0%R, 0%R)) /\
    (forall i, 2 ^ 1 <= i < raw_size_ 1 / 2 -> GetAmpl state' i = (0%R, 0%R)) /\
    basis_mass 1 (mkMeasurementResult 1 0) state' = 1%R.
Proof.
  apply (CollapseState_normalises_basis 1 (mkMeasurementResult 1 0) ket0R).
  - simpl. lia.
  - simpl. lia.
  - lia.
  - reflexivity.
  - intros i Hi. change (raw_size_ 1 / 2) with 8 in Hi. simpl in Hi.
    assert (Hc : i = 2 \/ i = 3 \/ i = 4 \/ i = 5 \/ i = 6 \/ i = 7) by lia.
    destruct Hc as [->|[->|[->|[->|[->| ->]]]]]; reflexivity.
  - vm_compute. lra.
Defined.

(** *** The arithmetic of [float] *)

(** In [float] the padded buffer gives the same: every operation of the run
    is exact, the amplitudes of the state end as [1/2] and [0], and their
    squared magnitudes sum to [1/4]. *)
Lemma CollapseState_counts_padding_float :
  exists state',
    @CollapseState binary32 binary32_scalar binary32_sqrt 1
      (mkMeasurementResult 1 0) padded_ones32 = (true, state') /\
    @GetAmpl binary32 binary32_scalar state' 0 = (f32_half, f32_0) /\
    @GetAmpl binary32 binary32_scalar state' 1 = (f32_0, f32_0) /\
    @basis_mass binary32 binary32_scalar 1 (mkMeasurementResult 1 0) state'
      = f32_quarter.
Proof. eexists. split; [vm_compute; reflexivity|]. by vm_compute. Qed.

(** In [float] a surviving amplitude can be so small that its square is
    zero: for the state whose amplitude 0 is [2^-100] the norm is [0], the
    factor [1 / sqrt(0)] is infinite, and the amplitude 1, which does not
    survive the outcome [0] of qubit 0, ends as [0 * inf], which is NaN and
    not zero. *)
Lemma CollapseState_underflow_float :
  survives (mkMeasurementResult 1 0) 0 = true /\
  @GetAmpl binary32 binary32_scalar tiny_ket32 0 = (f32_tiny, f32_0) /\
  survives (mkMeasurementResult 1 0) 1 = false /\
  exists state',
    @CollapseState binary32 binary32_scalar binary32_sqrt 1
      (mkMeasurementResult 1 0) tiny_ket32 = (true, state') /\
    @GetAmpl binary32 binary32_scalar state' 0
      = (SpecFloat.S754_infinity false, SpecFloat.S754_nan) /\
    @GetAmpl binary32 binary32_scalar state' 1
      = (SpecFloat.S754_nan, SpecFloat.S754_nan).
Proof.
  split; [reflexivity|]. split; [reflexivity|]. split; [reflexivity|].
  eexists. split; [vm_compute; reflexivity|]. by vm_compute.
Qed.

End CollapseFacts.

Module SampleFacts.

Import StateSpaceAVX Scenario LayoutFacts CollapseFacts.

Section Generic.

Context {F : Type} `{Scalar F}.
Variable GenerateRandomValues : nat -> nat -> F -> list F.

(** The loop never runs out of fuel: more fuel than there are samples left
    to emit makes no difference. *)
Lemma emit_enough_fuel beyond rs num_samples csum idx :
  forall fuel fuel' e,
    num_samples - m_ e < fuel -> num_samples - m_ e < fuel' ->
    emit beyond fuel rs num_samples csum idx e
    = emit beyond fuel' rs num_samples csum idx e.
Proof.
  induction fuel as [|fuel IH]; intros fuel' e Hf Hf'; [lia|].
  destruct fuel' as [|fuel']; [lia|]. simpl.
  destruct (fltb _ _ && (m_ e <? num_samples)) eqn:Hc; [|done].
  apply andb_prop in Hc as [_ Hm]. apply Nat.ltb_lt in Hm.
  apply IH; simpl; lia.
Qed.

(** The samples and the reads do not depend on what lies beyond the draws,
    as long as there are [num_samples] draws. *)
Lemma emit_beyond beyond1 beyond2 rs num_samples csum idx :
  num_samples <= length rs ->
  forall fuel e,
    emit beyond1 fuel rs num_samples csum idx e
    = emit beyond2 fuel rs num_samples csum idx e.
Proof.
  intros Hrs. induction fuel as [|fuel IH]; intros e; [done|]. simpl.
  destruct (m_ e <? num_samples) eqn:Hm.
  - apply Nat.ltb_lt in Hm. unfold rs_at.
    destruct (lookup_lt_is_Some_2 rs (m_ e) ltac:(lia)) as [r ->].
    destruct (fltb r csum); simpl; [apply IH|done].
  - by rewrite !andb_false_r.
Qed.

(** C9.  Two runs of [Sample] on the same state with the same number of
    samples and the same seed return the same samples, whatever the two runs
    find in memory beyond the draws, provided the generator delivers at
    least [num_samples] draws. *)
Theorem Sample_deterministic (beyond1 beyond2 : nat -> F) (num_qubits : nat)
    (state : list F) (num_samples seed : nat) :
  (forall norm, num_samples <= length (GenerateRandomValues num_samples seed norm)) ->
  fst (Sample GenerateRandomValues beyond1 num_qubits state num_samples seed)
  = fst (Sample GenerateRandomValues beyond2 num_qubits state num_samples seed).
Proof.
  intros Hgen. unfold Sample.
  destruct ((length state =? raw_size_ num_qubits) && (0 <? num_samples)); [|done].
  set (norm := foldl _ fzero _). specialize (Hgen norm).
  rewrite (foldl_ext_eq _
             (fun '(csum, e) kj =>
                let csum := fadd csum (slot_norm state kj) in
                (csum,
                 emit beyond2 (S num_samples)
                   (GenerateRandomValues num_samples seed norm) num_samples csum
                   (8 * kj.1 + kj.2) e))); [done|].
  intros [csum e] kj. by rewrite (emit_beyond beyond1 beyond2).
Qed.

(** Every run of the loop ends with a read of [rs] at the final [m]. *)
Lemma emit_last_read beyond rs num_samples csum idx :
  forall fuel e,
    num_samples - m_ e < fuel ->
    let e' := emit beyond fuel rs num_samples csum idx e in
    last (rs_reads e') = Some (m_ e') /\
    m_ e' - m_ e = length (bitstrings e') - length (bitstrings e) /\
    m_ e <= m_ e' /\ length (bitstrings e) <= length (bitstrings e').
Proof.
  induction fuel as [|fuel IH]; intros e Hf; [lia|]. simpl.
  destruct (fltb _ _ && (m_ e <? num_samples)) eqn:Hc.
  - apply andb_prop in Hc as [_ Hm]. apply Nat.ltb_lt in Hm.
    edestruct (IH (mkEmission (S (m_ e)) (bitstrings e ++ [idx])
                     (rs_reads e ++ [m_ e]))) as (Hl & Hd & Hm' & Hb').
    { simpl. lia. }
    simpl in *. rewrite length_app in *. simpl in *.
    split; [done|]. split; lia.
  - simpl. rewrite last_snoc. split; [done|]. split; lia.
Qed.

(** X18.  Whenever [Sample] runs its loops, the last read of [rs] is at the
    index that equals the number of samples emitted: once all [num_samples]
    samples are out, [rs[num_samples]] is read. *)
Lemma Sample_last_read (beyond : nat -> F) (num_qubits : nat) (state : list F)
    (num_samples seed : nat) :
  length state = raw_size_ num_qubits -> 0 < num_samples ->
  let r := Sample GenerateRandomValues beyond num_qubits state num_samples seed in
  last (snd r) = Some (length (fst r)).
Proof.
  intros Hlen Hns. unfold Sample.
  rewrite Hlen, Nat.eqb_refl. destruct (Nat.ltb_spec 0 num_samples); [|lia].
  cbn [andb]. set (norm := foldl _ fzero _).
  set (rs := GenerateRandomValues num_samples seed norm).
  set (step := fun '(csum, e) (kj : nat * nat) =>
         let csum := fadd csum (slot_norm state kj) in
         (csum, emit beyond (S num_samples) rs num_samples csum
                  (8 * kj.1 + kj.2) e)).
  assert (Hstep : forall csum e kj,
            m_ e = length (bitstrings e) ->
            let e' := snd (step (csum, e) kj) in
            last (rs_reads e') = Some (m_ e') /\ m_ e' = length (bitstrings e')).
  { intros csum e kj Hm. unfold step. cbn [snd].
    edestruct (emit_last_read beyond rs num_samples
                 (fadd csum (slot_norm state kj)) (8 * kj.1 + kj.2)
                 (S num_samples) e) as (Hl & Hd & Hm' & Hb'); [lia|].
    split; [done|]. lia. }
  assert (Hfold : forall l csum e,
            last (rs_reads e) = Some (m_ e) -> m_ e = length (bitstrings e) ->
            let e' := snd (foldl step (csum, e) l) in
            last (rs_reads e') = Some (m_ e') /\ m_ e' = length (bitstrings e')).
  { induction l as [|kj l IH]; intros csum e Hl Hm; [done|].
    cbn [foldl]. destruct (Hstep csum e kj Hm) as [Hl' Hm'].
    destruct (step (csum, e) kj) as [csum' e'] eqn:Hs. cbn [snd] in Hl', Hm'.
    by apply IH. }
  destruct (raw_size_blocks num_qubits) as (m & Hraw & Hm0 & _).
  assert (Hsize : raw_size_ num_qubits / 16 = S (m - 1)).
  { rewrite Hraw, Nat.mul_comm, Nat.div_mul by lia. lia. }
  rewrite Hsize.
  assert (Hne : exists kj l, slots (S (m - 1)) = kj :: l).
  { unfold slots. rewrite <- cons_seq. by eexists _, _. }
  destruct Hne as (kj & l & ->). fold step.
  change (foldl step ?a (kj :: l)) with (foldl step (step a kj) l).
  destruct (Hstep fzero (mkEmission 0 [] []) kj eq_refl) as [Hl1 Hm1].
  destruct (step (fzero, mkEmission 0 [] []) kj) as [csum1 e1] eqn:Hs1.
  cbn [snd] in Hl1, Hm1.
  destruct (Hfold l csum1 e1 Hl1 Hm1) as [Hl2 Hm2].
  destruct (foldl step (csum1, e1) l) as [csum2 e2].
  cbn [snd fst] in *. by rewrite Hl2, Hm2.
Qed.

End Generic.

Lemma Sample_deterministic_witness :
  fst (Sample spread_values (fun _ => 0%Q) 1 ket0 3 7)
  = fst (Sample spread_values (fun _ => 5%Q) 1 ket0 3 7).
Proof.
  apply (Sample_deterministic spread_values (fun _ => 0%Q) (fun _ => 5%Q)
           1 ket0 3 7).
  intros norm. unfold spread_values. rewrite length_map, length_seq. lia.
Defined.

(** C10.  One sample of the state [|0>] of one qubit: the draw is below the
    mass of the first amplitude, the sample is emitted and [m] becomes 1; the
    loop condition is evaluated again, and then once for each of the other
    seven lanes, and each time it reads [rs[1]] in front of the test
    [m < num_samples]. *)
Theorem Sample_reads_beyond_draws :
  Sample spread_values (fun _ => 0%Q) 1 ket0 1 0
  = ([0], [0; 1; 1; 1; 1; 1; 1; 1; 1]).
Proof. vm_compute. reflexivity. Qed.

End SampleFacts.

(** * Further properties of the code *)

(** ** Measurement gates and split times in the fuser *)

Module FuserTimesFacts.

Import BasicGateFuser Circuits Times Scenario FuserPartition.

(** *** Measurement gates of one time *)

Lemma merge_measurements (t : nat) (gates : list Gate) :
  Forall (measures_at t) gates ->
  foldl merge_step ([t], []) gates = ([t], []).
Proof.
  induction 1 as [|g gates [Hm Ht] _ IH]; [done|].
  cbn [foldl merge_step]. rewrite Hm, Ht. cbn [last].
  rewrite Nat.ltb_irrefl. done.
Qed.

Lemma MergeWithMeasurementTimes_measurements (t : nat) (g : Gate)
    (gates : list Gate) :
  Forall (measures_at t) (g :: gates) ->
  MergeWithMeasurementTimes (g :: gates) [] = Some [t].
Proof.
  intros [[Hm Ht] Hall]%Forall_cons. unfold MergeWithMeasurementTimes.
  cbn [foldl merge_step]. rewrite Hm, Ht. cbn [last andb app].
  rewrite merge_measurements by done. cbn [fst].
  assert (Hl : exists glast, last (g :: gates) = Some glast /\ time glast = t).
  { destruct (last gates) as [x|] eqn:Hx.
    - exists x. split; [by rewrite last_cons, Hx|].
      apply last_Some in Hx as [l' ->].
      rewrite Forall_app, Forall_singleton in Hall. by destruct Hall as [_ [_ ?]].
    - exists g. split; [by rewrite last_cons, Hx|done]. }
  destruct Hl as (glast & -> & Hgl). simpl. by rewrite Hgl, Nat.ltb_irrefl.
Qed.

Lemma fill_measurements (t : nat) (ps : list GatePtr) :
  forall mg sq lat,
    Forall (fun p => measures_at t (pointee p)) ps ->
    exists mg',
      fill t ps t (mkLattice mg sq lat)
        = Some (Filled
                  (mkLattice mg'
                     (match ps with
                      | p :: _ => if length (mg !!! t) =? 0 then sq ++ [p] else sq
                      | [] => sq
                      end) lat) []) /\
      mg' !!! t = mg !!! t ++ ps.
Proof.
  induction ps as [|p ps IH]; intros mg sq lat Hall.
  - exists mg. by rewrite app_nil_r.
  - apply Forall_cons in Hall as [[Hm Ht] Hall].
    cbn [fill]. rewrite Ht, Nat.ltb_irrefl. unfold classify. rewrite Hm, Ht.
    cbn [mbind option_bind measurement_gates gates_seq gates_lat].
    destruct (IH (<[t := mg !!! t ++ [p]]> mg)
                (if length (mg !!! t) =? 0 then sq ++ [p] else sq) lat Hall)
      as (mg' & Hfill & Hmg').
    exists mg'. rewrite Hfill, Hmg', lookup_total_insert_eq.
    rewrite <- app_assoc. split; [|done]. do 3 f_equal.
    destruct ps as [|p' ps]; [done|].
    rewrite length_app. simpl. by rewrite Nat.add_1_r.
Qed.

Lemma orphans_none (N : nat) (fused : list GateFused) (qs : list nat) :
  Forall (fun q => q < N) qs ->
  orphans (replicate N []) (replicate N 0) qs fused = Some fused.
Proof.
  induction 1 as [|q qs Hq _ IH]; [done|].
  cbn [orphans]. unfold orphan. rewrite !lookup_replicate_2 by done.
  simpl. exact IH.
Qed.

Lemma fuse_measurement_fold (ps : list GatePtr) :
  forall f,
    foldl (fun gate_f p =>
             mkFused (fkind gate_f) (ftime gate_f)
               (fnum_qubits gate_f + num_qubits (pointee p))
               (fqubits gate_f ++ qubits (pointee p))
               (pmaster gate_f) (fgates gate_f)) f ps
    = mkFused (fkind f) (ftime f)
        (fnum_qubits f + sum_list (num_qubits ∘ pointee <$> ps))
        (fqubits f ++ mjoin (qubits ∘ pointee <$> ps))
        (pmaster f) (fgates f).
Proof.
  induction ps as [|p ps IH]; intros f.
  - simpl. rewrite Nat.add_0_r, app_nil_r. by destruct f.
  - cbn [foldl]. rewrite IH. simpl.
    f_equal; [symmetry; apply Nat.add_assoc|symmetry; apply app_assoc].
Qed.

(** X25.  A circuit made of measurement gates of one and the same time, fused
    without split times, gives one fused gate: it has their kind and time,
    the first gate as its anchor, the sum of their [num_qubits], their qubits
    in order, and no member. *)
Theorem FuseGates_measurements (N t : nat) (g : Gate) (gates : list Gate) :
  Forall (measures_at t) (g :: gates) ->
  FuseGates N (g :: gates) [] =
    Some ([mkFused kMeasurement t
             (sum_list (num_qubits <$> g :: gates))
             (mjoin (qubits <$> g :: gates))
             (mkPtr 0 g) []], []).
Proof.
  intros Hall. unfold FuseGates.
  rewrite (MergeWithMeasurementTimes_measurements t) by done.
  cbn [mbind option_bind].
  assert (Hps : Forall (fun p => measures_at t (pointee p)) (pointers (g :: gates))).
  { apply Forall_forall. intros p Hp. rewrite Forall_forall in Hall.
    apply Hall. apply (list_elem_of_fmap_2 pointee) in Hp.
    by rewrite pointers_pointee in Hp. }
  assert (Hhd : exists ps, pointers (g :: gates) = mkPtr 0 g :: ps).
  { by eexists. }
  destruct Hhd as [ps Hptr]. rewrite Hptr in Hps |- *.
  pose proof Hall as [[Hm Ht] _]%Forall_cons.
  cbn [windows head mbind option_bind pointee]. rewrite Ht.
  destruct (fill_measurements t (mkPtr 0 g :: ps) ∅ [] (replicate N []) Hps)
    as (mg' & -> & Hmg').
  rewrite lookup_total_empty in Hmg' |- *.
  change (@inhabitant (list GatePtr) _) with (@nil GatePtr) in Hmg' |- *.
  cbn [mbind option_bind gates_lat gates_seq measurement_gates length Nat.eqb app].
  cbn [fuse_seq]. unfold fuse_anchor. cbn [pointee]. rewrite Hm.
  cbn [mbind option_bind last_ gates_fused delayed_measurement_gate].
  rewrite orphans_none by (apply Forall_forall; intros q Hq%elem_of_seq; lia).
  cbn [mbind option_bind app]. do 3 f_equal.
  unfold fuse_measurement. cbn [pointee]. rewrite Ht, Hmg'. cbn [app].
  rewrite fuse_measurement_fold. simpl.
  assert (Hpt : pointee <$> ps = gates).
  { pose proof (pointers_pointee (g :: gates)) as E. rewrite Hptr in E.
    by injection E. }
  rewrite !list_fmap_compose, Hpt.
  by destruct (kind g).
Qed.

(** *** A descent inside the first window *)

Lemma rising_bound (l : list nat) :
  forall prev t,
    rising prev l = true -> default prev (last l) <= t ->
    prev <= t /\ Forall (fun x => x <= t) l.
Proof.
  induction l as [|x l IH]; intros prev t Hrise Hlast; [done|].
  simpl in Hrise. apply andb_prop in Hrise as [Hx%Nat.leb_le Hrise].
  rewrite last_cons in Hlast.
  destruct (IH x t Hrise) as [Hxt Hall].
  { by destruct (last l). }
  split; [lia|]. by constructor.
Qed.

Lemma fill_descent (N tl : nat) (ph : GatePtr) (rest : list GatePtr)
    (ws : list GatePtr) :
  forall prev wsd L,
    LatOf N wsd L ->
    Forall (fun p => gate_ok N (pointee p) = true) ws ->
    rising prev (time ∘ pointee <$> ws) = true ->
    prev <= tl -> Forall (fun p => time (pointee p) <= tl) ws ->
    time (pointee ph) < default prev (last (time ∘ pointee <$> ws)) ->
    fill tl (ws ++ ph :: rest) prev L = Some OutOfOrder.
Proof.
  induction ws as [|p ws IH]; intros prev wsd L HL Hok Hrise Hprev Htl Hlt.
  - simpl in *. destruct (Nat.ltb_spec tl (time (pointee ph))); [lia|].
    destruct (Nat.ltb_spec (time (pointee ph)) prev); [done|lia].
  - apply Forall_cons in Hok as [Hokp Hok], Htl as [Htlp Htl].
    simpl in Hrise. apply andb_prop in Hrise as [Hp%Nat.leb_le Hrise].
    cbn [app fill].
    destruct (Nat.ltb_spec tl (time (pointee p))); [lia|].
    destruct (Nat.ltb_spec (time (pointee p)) prev); [lia|].
    destruct (classify_spec N wsd p L HL Hokp) as (L1 & -> & HL1).
    cbn [mbind option_bind].
    apply (IH _ (wsd ++ [p])); try done.
    rewrite fmap_cons, last_cons in Hlt.
    by destruct (last (time ∘ pointee <$> ws)).
Qed.

(** X26.  When the times of the gates go down at a gate that still belongs to
    the first window, the gates in front of it being well formed and not
    later than the end of that window, [FuseGates] returns no fused gate and
    reports that the gate times should be ordered. *)
Theorem FuseGates_reports_descent (N : nat) (pre : list Gate) (g h : Gate)
    (post : list Gate) (times_to_split_at : list nat) (tl : nat)
    (times' : list nat) :
  let gates := pre ++ g :: h :: post in
  MergeWithMeasurementTimes gates times_to_split_at = Some (tl :: times') ->
  Forall (fun x => gate_ok N x = true) (pre ++ [g]) ->
  rising 0 (time <$> pre ++ [g]) = true ->
  time g <= tl -> time h < time g ->
  FuseGates N gates times_to_split_at = Some ([], [error_unordered]).
Proof.
  intros gates Hmerge Hok Hrise Hg Hh. unfold FuseGates.
  assert (Hne : exists x l, gates = x :: l).
  { subst gates. destruct pre; by eexists _, _. }
  destruct Hne as (x0 & l0 & Hgates). rewrite Hgates, <- Hgates, Hmerge.
  cbn [mbind option_bind].
  pose proof (pointers_pointee gates) as Hpt. unfold gates in Hpt at 2.
  replace (pre ++ g :: h :: post) with ((pre ++ [g]) ++ h :: post) in Hpt
    by (by rewrite <- app_assoc).
  apply fmap_app_inv in Hpt as (ws & rest0 & Hws & Hrest & Hptrs).
  symmetry in Hrest. apply fmap_cons_inv in Hrest as (ph & rest & Hph & _ & ->).
  rewrite Hptrs.
  assert (Hws_ne : exists first ws', ws = first :: ws').
  { destruct ws; [by destruct pre|by eexists _, _]. }
  destruct Hws_ne as (first & ws' & ->).
  cbn [windows app head mbind option_bind].
  assert (Hfirst : rising (time (pointee first))
                     (time ∘ pointee <$> first :: ws') = true).
  { rewrite list_fmap_compose. rewrite Hws in Hrise.
    simpl in Hrise |- *. by rewrite Nat.leb_refl. }
  assert (Hlast : last (time ∘ pointee <$> first :: ws') = Some (time g)).
  { rewrite list_fmap_compose, <- Hws, fmap_app. apply last_snoc. }
  assert (Htl : Forall (fun p => time (pointee p) <= tl) (first :: ws')).
  { destruct (rising_bound _ _ tl Hfirst) as [_ Hall]; [by rewrite Hlast|].
    by apply Forall_fmap in Hall. }
  rewrite (fill_descent N tl ph rest (first :: ws') _ []); try done.
  - split; [simpl; by rewrite lattice_nil|done].
  - apply Forall_forall. intros p Hp. rewrite Forall_forall in Hok.
    apply Hok. rewrite Hws. by apply list_elem_of_fmap_2.
  - by apply Forall_cons in Htl as [? _].
  - rewrite Hlast, <- Hph. done.
Qed.

(** *** Split times without measurement gates *)

Lemma increasing_snoc (l : list nat) (x : nat) :
  increasing l -> (forall b, last l = Some b -> b < x) ->
  increasing (l ++ [x]).
Proof.
  intros Hl Hlast i j a b Hij Ha Hb.
  apply lookup_app_Some in Hb as [Hb|[Hj Hb]].
  - rewrite lookup_app_l in Ha by (apply lookup_lt_Some in Hb; lia).
    by eapply Hl.
  - apply list_lookup_singleton_Some in Hb as [Hj' <-].
    rewrite lookup_app_l in Ha by lia.
    destruct (last l) as [c|] eqn:Hc.
    + specialize (Hlast c eq_refl). rewrite last_lookup in Hc.
      destruct (decide (i = pred (length l))) as [->|Hne].
      * congruence.
      * assert (a < c); [|lia]. eapply (Hl i (pred (length l))); [lia|done..].
    + apply last_None in Hc. subst l. done.
Qed.

(** The state of the loop of [MergeWithMeasurementTimes]: what has been
    merged goes up strictly and stays below the split time that is next, and
    all of it comes from the split times [T]. *)
Definition merged (T times2 times : list nat) : Prop :=
  increasing times2 /\
  (forall b t, last times2 = Some b -> head times = Some t -> b < t) /\
  Forall (fun t => t ∈ T) times2 /\ Forall (fun t => t ∈ T) times.

Lemma merge_splits_merged (T : list nat) (gtime n : nat) :
  forall times times2,
    length times <= n -> merged T times2 times ->
    merged T (merge_splits gtime times times2).1 (merge_splits gtime times times2).2.
Proof.
  induction n as [|n IH]; intros times times2 Hn HJ.
  - destruct times; [done|simpl in Hn; lia].
  - destruct times as [|prev times']; [done|].
    cbn [merge_splits]. destruct (prev <=? gtime); [|done].
    destruct HJ as (Hinc & Hnext & HT2 & HT).
    apply Forall_cons in HT as [Hprev HT].
    assert (Hinc' : increasing (times2 ++ [prev])).
    { apply increasing_snoc; [done|]. intros b Hb. by apply Hnext. }
    assert (HT2' : Forall (fun t => t ∈ T) (times2 ++ [prev])).
    { apply Forall_app. by split; [|constructor]. }
    simpl in Hn. clear Hnext.
    assert (Hlen : length times' <= n) by lia. clear Hn.
    induction times' as [|u l IHl].
    + split; [done|]. split; [by intros b t _ ?|]. by split.
    + apply Forall_cons in HT as [Hu HT].
      destruct (Nat.leb_spec u prev).
      * apply IHl; [done|simpl in Hlen; lia].
      * apply IH; [done|]. split; [done|]. split.
        { intros b t Hb Ht. rewrite last_snoc in Hb. simpl in Ht.
          injection Hb as <-. injection Ht as <-. done. }
        split; [done|]. by constructor.
Qed.

Lemma merge_step_merged (T : list nat) (gate : Gate) (times2 times : list nat) :
  is_measurement (kind gate) = false ->
  merged T times2 times ->
  merged T (merge_step (times2, times) gate).1 (merge_step (times2, times) gate).2.
Proof.
  intros Hm HJ. unfold merge_step. rewrite Hm. cbn [andb].
  destruct times as [|t times']; [done|].
  destruct (t <? time gate); [|done].
  by apply (merge_splits_merged T _ (length (t :: times'))).
Qed.

Lemma merge_fold_merged (T : list nat) (gates : list Gate) :
  forall times2 times,
    Forall (fun g => is_measurement (kind g) = false) gates ->
    merged T times2 times ->
    merged T (foldl merge_step (times2, times) gates).1
             (foldl merge_step (times2, times) gates).2.
Proof.
  induction gates as [|g gates IH]; intros times2 times Hall HJ; [done|].
  apply Forall_cons in Hall as [Hg Hall]. cbn [foldl].
  pose proof (merge_step_merged T g times2 times Hg HJ) as HJ'.
  destruct (merge_step (times2, times) g) as [t2 ts]. by apply IH.
Qed.

(** X27.  For a circuit without measurement gates, whatever the order of its
    gates and of the split times, the times that [MergeWithMeasurementTimes]
    returns go up strictly; each of them is one of the split times or the
    time of the last gate, and the last of them is not below the time of the
    last gate. *)
Theorem MergeWithMeasurementTimes_increasing (gates : list Gate)
    (times_to_split_at : list nat) (glast : Gate) :
  Forall (fun g => is_measurement (kind g) = false) gates ->
  last gates = Some glast ->
  exists times2 tlast,
    MergeWithMeasurementTimes gates times_to_split_at = Some times2 /\
    increasing times2 /\
    Forall (fun t => t ∈ times_to_split_at \/ t = time glast) times2 /\
    last times2 = Some tlast /\ time glast <= tlast.
Proof.
  intros Hall Hlast. unfold MergeWithMeasurementTimes. rewrite Hlast.
  cbn [mbind option_bind].
  assert (H0 : merged times_to_split_at [] times_to_split_at).
  { split; [by intros i j x y _ ?|]. split; [done|].
    split; [done|]. apply Forall_forall. done. }
  pose proof (merge_fold_merged _ gates [] _ Hall H0) as (Hinc & _ & HT & _).
  set (t2 := (foldl merge_step ([], times_to_split_at) gates).1) in *.
  assert (HT' : Forall (fun t => t ∈ times_to_split_at \/ t = time glast) t2).
  { eapply Forall_impl; [done|]. by left. }
  destruct (last t2) as [b|] eqn:Hb.
  - destruct (Nat.ltb_spec b (time glast)).
    + eexists _, _. split; [done|]. split.
      { apply increasing_snoc; [done|]. intros c Hc. congruence. }
      split; [|by rewrite last_snoc].
      apply Forall_app. split; [done|]. constructor; [by right|done].
    + by eexists _, _.
  - eexists _, _. split; [done|]. apply last_None in Hb. rewrite Hb.
    split.
    { intros i j x y Hij Hx Hy. apply lookup_lt_Some in Hx, Hy.
      simpl in Hx, Hy. lia. }
    split; [|done]. constructor; [by right|done].
Qed.

(** *** A measurement gate behind a split time *)

Lemma merge_splits_prefix (gtime n : nat) :
  forall times times2,
    length times <= n ->
    exists ext, (merge_splits gtime times times2).1 = times2 ++ ext.
Proof.
  induction n as [|n IH]; intros times times2 Hn.
  - destruct times; [|simpl in Hn; lia]. exists []. by rewrite app_nil_r.
  - destruct times as [|prev times']; [exists []; by rewrite app_nil_r|].
    cbn [merge_splits].
    destruct (prev <=? gtime); [|exists []; by rewrite app_nil_r].
    simpl in Hn. assert (Hlen : length times' <= n) by lia. clear Hn.
    induction times' as [|u l IHl].
    + by exists [prev].
    + destruct (u <=? prev).
      * apply IHl. simpl in Hlen. lia.
      * destruct (IH (u :: l) (times2 ++ [prev]) Hlen) as [ext ->].
        exists (prev :: ext). by rewrite <- app_assoc.
Qed.

Lemma merge_splits_head (gtime s : nat) (times times2 : list nat) :
  s <= gtime ->
  exists ext, (merge_splits gtime (s :: times) times2).1 = times2 ++ s :: ext.
Proof.
  intros Hs. cbn [merge_splits]. destruct (Nat.leb_spec s gtime); [|lia].
  induction times as [|u l IHl].
  - by exists [].
  - destruct (u <=? s); [done|].
    destruct (merge_splits_prefix gtime (length (u :: l)) (u :: l)
                (times2 ++ [s]) ltac:(done)) as [ext ->].
    exists ext. by rewrite <- app_assoc.
Qed.

Lemma merge_step_prefix (gate : Gate) (times2 times : list nat) :
  exists ext, (merge_step (times2, times) gate).1 = times2 ++ ext.
Proof.
  unfold merge_step.
  set (t2 := if _ && _ then times2 ++ [time gate] else times2).
  assert (Ht2 : exists e, t2 = times2 ++ e).
  { subst t2. destruct (_ && _); [by eexists|]. exists []. by rewrite app_nil_r. }
  destruct Ht2 as [e ->].
  destruct times as [|t times']; [by eexists|].
  destruct (t <? time gate); [|by eexists].
  destruct (merge_splits_prefix (time gate) (length (t :: times')) (t :: times')
              (times2 ++ e) ltac:(done)) as [ext ->].
  exists (e ++ ext). by rewrite <- app_assoc.
Qed.

Lemma merge_fold_prefix (gates : list Gate) :
  forall times2 times,
    exists ext, (foldl merge_step (times2, times) gates).1 = times2 ++ ext.
Proof.
  induction gates as [|g gates IH]; intros times2 times.
  - exists []. by rewrite app_nil_r.
  - cbn [foldl]. destruct (merge_step_prefix g times2 times) as [e He].
    destruct (merge_step (times2, times) g) as [t2 ts]. simpl in He. subst t2.
    destruct (IH (times2 ++ e) ts) as [ext ->].
    exists (e ++ ext). by rewrite <- app_assoc.
Qed.

Lemma merge_fold_idle (s : nat) (times : list nat) (pre : list Gate) :
  Forall (fun g => is_measurement (kind g) = false /\ time g <= s) pre ->
  foldl merge_step ([], s :: times) pre = ([], s :: times).
Proof.
  induction 1 as [|g pre [Hm Hg] _ IH]; [done|].
  cbn [foldl merge_step]. rewrite Hm. cbn [andb].
  destruct (Nat.ltb_spec s (time g)); [lia|]. exact IH.
Qed.

(** X28.  When the first gate that is later than the first split time is a
    measurement gate, [MergeWithMeasurementTimes] puts the time of that gate
    in front of the split time: the first window then ends at the
    measurement and not at the split time. *)
Theorem MergeWithMeasurementTimes_measurement_first (pre : list Gate)
    (m : Gate) (post : list Gate) (s : nat) (times : list nat) :
  Forall (fun g => is_measurement (kind g) = false /\ time g <= s) pre ->
  is_measurement (kind m) = true -> s < time m ->
  exists rest,
    MergeWithMeasurementTimes (pre ++ m :: post) (s :: times)
      = Some (time m :: s :: rest).
Proof.
  intros Hpre Hm Hs. unfold MergeWithMeasurementTimes.
  rewrite foldl_app, merge_fold_idle by done. cbn [foldl].
  assert (Hstep : exists ext ts,
            merge_step ([], s :: times) m = (time m :: s :: ext, ts)).
  { unfold merge_step. rewrite Hm. cbn [last andb app].
    destruct (Nat.ltb_spec s (time m)); [|lia].
    destruct (merge_splits_head (time m) s times [time m] ltac:(lia)) as [ext He].
    destruct (merge_splits (time m) (s :: times) [time m]) as [t2 ts].
    simpl in He. subst t2. by eexists _, _. }
  destruct Hstep as (ext & ts & ->).
  destruct (merge_fold_prefix post (time m :: s :: ext) ts) as [ext2 ->].
  assert (Hl : exists glast, last (pre ++ m :: post) = Some glast).
  { rewrite last_app. destruct (last (m :: post)) eqn:E; [by eexists|].
    by apply last_None in E. }
  destruct Hl as [glast ->]. cbn [mbind option_bind].
  destruct (match last _ with None => true | Some b => b <? time glast end);
    rewrite <- ?app_comm_cons; by eexists.
Qed.

Lemma FuseGates_measurements_witness :
  FuseGates 2 [measure1 3 0; measure1 3 1] [] =
    Some ([mkFused kMeasurement 3
             (sum_list (num_qubits <$> [measure1 3 0; measure1 3 1]))
             (mjoin (qubits <$> [measure1 3 0; measure1 3 1]))
             (mkPtr 0 (measure1 3 0)) []], []).
Proof.
  apply (FuseGates_measurements 2 3 (measure1 3 0) [measure1 3 1]).
  repeat constructor.
Defined.

Lemma FuseGates_reports_descent_witness :
  FuseGates 1 ([] ++ gate1 0 1 0 false :: gate1 0 0 0 false :: [gate1 0 1 0 false]) []
  = Some ([], [error_unordered]).
Proof.
  apply (FuseGates_reports_descent 1 [] (gate1 0 1 0 false) (gate1 0 0 0 false)
           [gate1 0 1 0 false] [] 1 []).
  - vm_compute. reflexivity.
  - repeat constructor.
  - reflexivity.
  - simpl. lia.
  - simpl. lia.
Defined.

Lemma MergeWithMeasurementTimes_increasing_witness :
  exists times2 tlast,
    MergeWithMeasurementTimes two_steps [5; 0] = Some times2 /\
    increasing times2 /\
    Forall (fun t => t ∈ [5; 0] \/ t = time (gate1 0 1 0 false)) times2 /\
    last times2 = Some tlast /\ time (gate1 0 1 0 false) <= tlast.
Proof.
  apply (MergeWithMeasurementTimes_increasing two_steps [5; 0]
           (gate1 0 1 0 false)).
  - repeat constructor.
  - reflexivity.
Defined.

Lemma MergeWithMeasurementTimes_measurement_first_witness :
  exists rest,
    MergeWithMeasurementTimes ([gate1 0 0 0 false] ++ measure1 3 0 :: []) [1; 2]
      = Some (time (measure1 3 0) :: 1 :: rest).
Proof.
  apply (MergeWithMeasurementTimes_measurement_first [gate1 0 0 0 false]
           (measure1 3 0) [] 1 [2]).
  - repeat constructor.
  - reflexivity.
  - simpl. lia.
Defined.

Lemma fuse_pair_fuel_witness :
  fuse_pair 2 0 1 [[pair_gate]; [pair_gate]] [0; 0] []
  = fuse_pair 5 0 1 [[pair_gate]; [pair_gate]] [0; 0] [].
Proof.
  apply (fuse_pair_fuel 0 1 [[pair_gate]; [pair_gate]] [pair_gate] eq_refl
           2 5 [0; 0] [] 0 eq_refl); simpl; lia.
Defined.

End FuserTimesFacts.

(** ** The fused gates are made of input gates *)

Module FuserInputFacts.

Import BasicGateFuser Circuits Scenario FuserPartition.

Section Pointers.

(** The pointers to the gates of the input. *)
Variable ptrs : list GatePtr.

Abbreviation known := (Forall (fun p : GatePtr => p ∈ ptrs)).

(** A fused gate whose anchor and members are gates of the input. *)
Definition from_input (f : GateFused) : Prop :=
  pmaster f ∈ ptrs /\ known (fgates f).

(** What the loop over the gates of a window has stored are gates of the
    input. *)
Record lattice_known (L : Lattice) : Prop := {
  known_lat : Forall known (gates_lat L);
  known_seq : known (gates_seq L);
  known_mea : forall t, known (measurement_gates L !!! t)
}.

Lemma lat_push_known q p lat lat' :
  p ∈ ptrs -> Forall known lat -> lat_push q p lat = Some lat' ->
  Forall known lat'.
Proof.
  intros Hp Hlat. unfold lat_push.
  destruct (lat !! q) as [wl|] eqn:Hq; [|done]. intros [= <-].
  apply Forall_insert; [done|]. apply Forall_app. split; [|by constructor].
  rewrite Forall_forall in Hlat. apply Hlat. by eapply list_elem_of_lookup_2.
Qed.

Lemma known_mea_insert (mg : gmap nat (list GatePtr)) t l :
  (forall t', known (mg !!! t')) -> known l ->
  forall t', known (<[t := l]> mg !!! t').
Proof.
  intros Hmg Hl t'. destruct (decide (t = t')) as [->|Hne].
  - by rewrite lookup_total_insert_eq.
  - by rewrite lookup_total_insert_ne.
Qed.

Lemma classify_known p L L' :
  p ∈ ptrs -> lattice_known L -> classify p L = Some L' -> lattice_known L'.
Proof.
  intros Hp [Hlat Hseq Hmea]. unfold classify.
  assert (Hseq' : known (gates_seq L ++ [p])).
  { apply Forall_app. split; [done|by constructor]. }
  destruct (is_measurement (kind (pointee p))).
  - intros [= <-]. split; simpl; [done| |].
    + by destruct (length _ =? 0).
    + apply known_mea_insert; [done|]. apply Forall_app.
      split; [done|by constructor].
  - destruct (num_qubits (pointee p) =? 1).
    + destruct (qubits (pointee p) !! 0) as [q0|]; [|done]. simpl.
      destruct (lat_push q0 p (gates_lat L)) as [lat|] eqn:Hpush; [|done].
      intros [= <-]. split; simpl; [|by destruct (unfusible _)|done].
      by eapply lat_push_known.
    + destruct (num_qubits (pointee p) =? 2); [|by intros [= <-]].
      destruct (qubits (pointee p) !! 0) as [q0|]; [|done]. simpl.
      destruct (lat_push q0 p (gates_lat L)) as [lat|] eqn:Hpush; [|done].
      simpl. destruct (qubits (pointee p) !! 1) as [q1|]; [|done]. simpl.
      destruct (lat_push q1 p lat) as [lat1|] eqn:Hpush1; [|done].
      intros [= <-]. split; simpl; [|done..].
      eapply lat_push_known; [done| |done]. by eapply lat_push_known.
Qed.

Lemma fill_known tl gate_it :
  forall prev L L' rest,
    known gate_it -> lattice_known L ->
    fill tl gate_it prev L = Some (Filled L' rest) ->
    lattice_known L' /\ known rest.
Proof.
  induction gate_it as [|p gate_it IH]; intros prev L L' rest Hit HL.
  - intros [= <- <-]. done.
  - cbn [fill]. destruct (tl <? time (pointee p)); [by intros [= <- <-]|].
    destruct (time (pointee p) <? prev); [done|].
    apply Forall_cons in Hit as [Hp Hit].
    destruct (classify p L) as [L1|] eqn:Hc; [|done]. simpl.
    apply IH; [done|]. by eapply classify_known.
Qed.

Lemma Advance_known k wl gates :
  known wl -> known gates -> known (Advance k wl gates).2.
Proof.
  intros Hwl Hg. unfold Advance. rewrite advance_from_spec. simpl.
  apply Forall_app. split; [done|].
  assert (Hd : known (drop k wl)) by (by apply Forall_drop).
  induction (drop k wl) as [|p l IH]; [done|].
  apply Forall_cons in Hd as [Hp Hd]. simpl.
  destruct (fusibleb p); [|done]. constructor; [done|by apply IH].
Qed.

Lemma lookup_known (lat : list (list GatePtr)) q wl :
  Forall known lat -> lat !! q = Some wl -> known wl.
Proof.
  intros Hlat Hq. rewrite Forall_forall in Hlat. apply Hlat.
  by eapply list_elem_of_lookup_2.
Qed.

Lemma lookup_known_1 (wl : list GatePtr) k g :
  known wl -> wl !! k = Some g -> g ∈ ptrs.
Proof.
  intros Hwl Hk. rewrite Forall_forall in Hwl. apply Hwl.
  by eapply list_elem_of_lookup_2.
Qed.

Lemma fuse_round_known q0 q1 lat last gates last' gates' :
  Forall known lat -> known gates ->
  fuse_round q0 q1 lat last gates = Some (last', gates') -> known gates'.
Proof.
  intros Hlat Hg. unfold fuse_round.
  destruct (lat !! q0) as [wl0|] eqn:H0; [|done]. simpl.
  destruct (lat !! q1) as [wl1|] eqn:H1; [|done]. simpl.
  pose proof (lookup_known _ _ _ Hlat H0) as Hwl0.
  pose proof (lookup_known _ _ _ Hlat H1) as Hwl1.
  destruct (last !! q0) as [k0|]; [|done]. simpl.
  pose proof (Advance_known k0 wl0 gates Hwl0 Hg) as Ha.
  destruct (Advance k0 wl0 gates) as [a g1]. simpl in Ha.
  destruct (<[q0:=a]> last !! q1) as [k1|]; [|done]. simpl.
  pose proof (Advance_known k1 wl1 g1 Hwl1 Ha) as Hb.
  destruct (Advance k1 wl1 g1) as [b g2]. simpl in Hb.
  destruct (<[q1:=b]> (<[q0:=a]> last) !! q0) as [k|]; [|done]. simpl.
  destruct (wl0 !! k) as [g|] eqn:Hk; [|done]. simpl.
  assert (Hg2 : known (g2 ++ [g])).
  { apply Forall_app. split; [done|]. constructor; [|done].
    exact (lookup_known_1 _ _ _ Hwl0 Hk). }
  pose proof (Advance_known (k + 1) wl0 (g2 ++ [g]) Hwl0 Hg2) as Hc.
  destruct (Advance (k + 1) wl0 (g2 ++ [g])) as [c g3]. simpl in Hc.
  destruct (<[q0:=c]> (<[q1:=b]> (<[q0:=a]> last)) !! q1) as [k'|]; [|done].
  simpl.
  pose proof (Advance_known (k' + 1) wl1 g3 Hwl1 Hc) as Hd.
  destruct (Advance (k' + 1) wl1 g3) as [d g4]. simpl in Hd.
  by intros [= _ <-].
Qed.

Lemma fuse_pair_known fuel q0 q1 lat :
  Forall known lat ->
  forall last gates last' gates',
    known gates ->
    fuse_pair fuel q0 q1 lat last gates = Some (last', gates') -> known gates'.
Proof.
  intros Hlat. induction fuel as [|fuel IH]; intros last gates last' gates' Hg;
    [done|].
  cbn [fuse_pair].
  destruct (fuse_round q0 q1 lat last gates) as [[l1 g1]|] eqn:Hr; [|done].
  simpl. pose proof (fuse_round_known _ _ _ _ _ _ _ Hlat Hg Hr) as Hg1.
  destruct (lat !! q0) as [wl0|]; [|done]. simpl.
  destruct (lat !! q1) as [wl1|]; [|done]. simpl.
  destruct (l1 !! q0) as [k0|]; [|done]. simpl.
  destruct (l1 !! q1) as [k1|]; [|done]. simpl.
  destruct (NextGate k0 wl0 k1 wl1).
  - by apply IH.
  - by intros [= _ <-].
Qed.

Lemma snoc_from_input (fused : list GateFused) (f : GateFused) :
  Forall from_input fused -> from_input f -> Forall from_input (fused ++ [f]).
Proof. intros Hf Hx. apply Forall_app. split; [done|by constructor]. Qed.

Lemma fuse_anchor_known lat pgate S S' :
  Forall known lat -> pgate ∈ ptrs ->
  Forall from_input (gates_fused S) ->
  (forall p, delayed_measurement_gate S = Some p -> p ∈ ptrs) ->
  fuse_anchor lat pgate S = Some S' ->
  Forall from_input (gates_fused S') /\
  (forall p, delayed_measurement_gate S' = Some p -> p ∈ ptrs).
Proof.
  intros Hlat Hp Hf Hd. unfold fuse_anchor.
  destruct (is_measurement (kind (pointee pgate))).
  { intros [= <-]. simpl. split; [done|]. by intros p [= <-]. }
  destruct (num_qubits (pointee pgate) =? 1).
  { destruct (qubits (pointee pgate) !! 0) as [q0|]; [|done]. simpl.
    destruct (lat !! q0) as [wl|] eqn:Hq; [|done]. simpl.
    pose proof (lookup_known _ _ _ Hlat Hq) as Hwl.
    destruct (last_ S !! q0) as [k|]; [|done]. simpl.
    pose proof (Advance_known k wl [] Hwl ltac:(done)) as Ha.
    destruct (Advance k wl []) as [a g1]. simpl in Ha.
    destruct (wl !! a) as [g|] eqn:Hg; [|done]. simpl.
    assert (Hg1 : known (g1 ++ [g])).
    { apply Forall_app. split; [done|]. constructor; [|done].
      exact (lookup_known_1 _ _ _ Hwl Hg). }
    pose proof (Advance_known (a + 1) wl (g1 ++ [g]) Hwl Hg1) as Hb.
    destruct (Advance (a + 1) wl (g1 ++ [g])) as [b g2]. simpl in Hb.
    intros [= <-]. simpl. split; [|done]. by apply snoc_from_input. }
  destruct (num_qubits (pointee pgate) =? 2); [|by intros [= <-]].
  destruct (qubits (pointee pgate) !! 0) as [q0|]; [|done]. simpl.
  destruct (qubits (pointee pgate) !! 1) as [q1|]; [|done]. simpl.
  destruct (lat !! q0) as [wl0|]; [|done]. simpl.
  destruct (last_ S !! q0) as [k0|]; [|done]. simpl.
  destruct (Done k0 (time (pointee pgate)) wl0); [by intros [= <-]|].
  destruct (fuse_pair _ q0 q1 lat (last_ S) []) as [[l g]|] eqn:Hpair; [|done].
  simpl. intros [= <-]. simpl. split; [|done].
  apply snoc_from_input; [done|]. split; [done|]. simpl.
  by eapply (fuse_pair_known _ _ _ _ Hlat _ _ _ _ ltac:(done) Hpair).
Qed.

Lemma fuse_seq_known lat sq :
  Forall known lat ->
  forall S S',
    known sq -> Forall from_input (gates_fused S) ->
    (forall p, delayed_measurement_gate S = Some p -> p ∈ ptrs) ->
    fuse_seq lat sq S = Some S' ->
    Forall from_input (gates_fused S') /\
    (forall p, delayed_measurement_gate S' = Some p -> p ∈ ptrs).
Proof.
  intros Hlat. induction sq as [|pgate sq IH]; intros S S' Hsq Hf Hd.
  - by intros [= <-].
  - cbn [fuse_seq]. apply Forall_cons in Hsq as [Hp Hsq].
    destruct (fuse_anchor lat pgate S) as [S1|] eqn:Ha; [|done]. simpl.
    destruct (fuse_anchor_known _ _ _ _ Hlat Hp Hf Hd Ha) as [Hf1 Hd1].
    by apply IH.
Qed.

Lemma orphans_known lat last qs :
  Forall known lat ->
  forall fused fused',
    Forall from_input fused ->
    orphans lat last qs fused = Some fused' -> Forall from_input fused'.
Proof.
  intros Hlat. induction qs as [|q qs IH]; intros fused fused' Hf.
  - by intros [= <-].
  - cbn [orphans]. destruct (orphan lat last q fused) as [f1|] eqn:Ho; [|done].
    simpl. apply IH. unfold orphan in Ho.
    destruct (last !! q) as [l|]; [|done]. simpl in Ho.
    destruct (lat !! q) as [wl|] eqn:Hq; [|done]. simpl in Ho.
    pose proof (lookup_known _ _ _ Hlat Hq) as Hwl.
    destruct (l =? length wl); [by injection Ho as <-|].
    destruct (wl !! l) as [pgate|] eqn:Hl; [|done]. simpl in Ho.
    pose proof (lookup_known_1 _ _ _ Hwl Hl) as Hp.
    pose proof (Advance_known (l + 1) wl [pgate] Hwl
                  ltac:(by constructor)) as Ha.
    destruct (Advance (l + 1) wl [pgate]) as [a g]. simpl in Ha.
    injection Ho as <-. by apply snoc_from_input.
Qed.

Lemma fuse_measurement_known mg pgate :
  pgate ∈ ptrs -> from_input (fuse_measurement mg pgate).
Proof.
  intros Hp. unfold fuse_measurement.
  rewrite FuserTimesFacts.fuse_measurement_fold. by split.
Qed.

Lemma windows_known N times :
  forall gate_it mg fused fused' errors,
    known gate_it -> (forall t, known (mg !!! t)) ->
    Forall from_input fused ->
    windows N times gate_it mg fused = Some (fused', errors) ->
    Forall from_input fused'.
Proof.
  induction times as [|tl times IH]; intros gate_it mg fused fused' errors
    Hit Hmg Hf.
  - by intros [= <- _].
  - cbn [windows]. destruct (head gate_it) as [first|]; [|done]. simpl.
    destruct (fill tl gate_it (time (pointee first)) _) as [[L rest|]|] eqn:Hfill;
      [|by intros [= <- _]|done].
    simpl.
    assert (HL : lattice_known (mkLattice mg [] (replicate N []))).
    { split; simpl; [by apply Forall_replicate|done|done]. }
    destruct (fill_known _ _ _ _ _ _ Hit HL Hfill) as [[Hlat Hseq Hmea] Hrest].
    destruct (fuse_seq (gates_lat L) (gates_seq L) _) as [S|] eqn:Hs; [|done].
    simpl.
    apply fuse_seq_known in Hs as [Hf1 Hd1]; [|done..].
    destruct (orphans (gates_lat L) (last_ S) (seq 0 N) (gates_fused S))
      as [f2|] eqn:Ho; [|done].
    simpl. pose proof (orphans_known _ _ _ Hlat _ _ Hf1 Ho) as Hf2.
    assert (Hf3 : Forall from_input
              match delayed_measurement_gate S with
              | Some pgate => f2 ++ [fuse_measurement (measurement_gates L) pgate]
              | None => f2
              end).
    { destruct (delayed_measurement_gate S) as [pgate|] eqn:Hd; [|done].
      apply snoc_from_input; [done|]. apply fuse_measurement_known.
      by apply Hd1. }
    destruct rest as [|r rest]; [by intros [= <- _]|].
    by apply IH.
Qed.

End Pointers.

(** X30.  Whenever [FuseGates] returns, on whatever input, the anchor and the
    members of every fused gate are pointers to gates of the input: the fuser
    makes up no gate. *)
Theorem FuseGates_from_input (N : nat) (gates : list Gate)
    (times_to_split_at : list nat) (fused : list GateFused)
    (errors : list string) :
  FuseGates N gates times_to_split_at = Some (fused, errors) ->
  Forall (fun f => pmaster f ∈ pointers gates /\
                   Forall (fun p => p ∈ pointers gates) (fgates f)) fused.
Proof.
  unfold FuseGates. destruct gates as [|g gates]; [by intros [= <- _]|].
  destruct (MergeWithMeasurementTimes _ _) as [times|]; [|done]. simpl.
  apply windows_known; [|done..].
  apply Forall_forall. done.
Qed.

Lemma FuseGates_from_input_witness :
  Forall (fun f => pmaster f ∈ pointers two_steps /\
                   Forall (fun p => p ∈ pointers two_steps) (fgates f))
         two_steps_fused.
Proof.
  apply (FuseGates_from_input 1 two_steps [0; 1] two_steps_fused []).
  vm_compute. reflexivity.
Defined.

End FuserInputFacts.

(** ** What every run does *)

Module RunnerLoopFacts.

Import QSimRunner Scenario Windows RunnerWindows.

Section Generic.

Context {State : Type}.
Variable CreateState : nat -> nat -> State.
Variable IsNull : State -> bool.
Variable SetStateZero : State -> bool * State.
Variable ApplyFusedGate : GateFused -> State -> State.
Variable FuseGates : nat -> list Gate -> list nat -> option (list GateFused * list string).
Variable FuseGates_maxtime : nat -> list Gate -> nat -> option (list GateFused * list string).
Variable measure : nat -> State -> State.
Variable param : Param.

Lemma measurements_errors (errors : list string) :
  measurements (map EvError errors) = [].
Proof. by induction errors. Qed.

Lemma applied_errors (errors : list string) : applied (map EvError errors) = [].
Proof. by induction errors. Qed.

(** The message at the end of a run. *)
Definition elapsed : list Event :=
  if 0 <? verbosity param then [EvMessage message_elapsed] else [].

Lemma with_elapsed (trace : list Event) :
  (if 0 <? verbosity param then trace ++ [EvMessage message_elapsed] else trace)
  = trace ++ elapsed.
Proof. unfold elapsed. destruct (0 <? verbosity param); by rewrite ?app_nil_r. Qed.

Lemma measurements_elapsed : measurements elapsed = [].
Proof. unfold elapsed. by destruct (0 <? verbosity param). Qed.

Lemma applied_elapsed : applied elapsed = [].
Proof. unfold elapsed. by destruct (0 <? verbosity param). Qed.

(** *** The loop of the first entry point *)

Lemma loop_counts (times : list nat) (rest : list GateFused) :
  forall i cur state trace state' trace',
    cur <= length times ->
    apply_and_measure ApplyFusedGate measure param times rest i cur state trace
      = Some (state', trace') ->
    exists ext k,
      trace' = trace ++ ext /\
      measurements ext = seq cur k /\
      cur + k <= length times /\
      applied ext = seq i (length rest) /\
      (rest <> [] ->
       exists ext0, ext = ext0 ++ [EvMeasure (cur + k - 1)] /\ 0 < k).
Proof.
  induction rest as [|g rest IH]; intros i cur state trace state' trace' Hcur Hrun.
  - injection Hrun as <- <-. exists [], 0. rewrite app_nil_r.
    split; [done|]. split; [done|]. split; [lia|]. split; [done|]. done.
  - destruct (times !! cur) as [t|] eqn:Ht; [|by simpl in Hrun; rewrite Ht in Hrun].
    pose proof (lookup_lt_Some _ _ _ Ht) as Hlt.
    rewrite (loop_step ApplyFusedGate measure param times g rest i cur state
               trace t Ht) in Hrun.
    destruct (match rest with [] => true | g' :: _ => t <? ftime g' end) eqn:Hnext.
    + pose proof Hrun as Hrun0.
      apply IH in Hrun as (ext & k & -> & Hmeas & Hk & Happ & Hlast); [|lia].
      exists (applied_now param i g ++ EvMeasure cur :: ext), (S k).
      split; [by rewrite <- !app_assoc|]. split.
      { by rewrite measurements_app, measurements_applied_now,
          measurements_measure, Hmeas. }
      split; [lia|]. split.
      { by rewrite applied_app, applied_applied_now, applied_measure, Happ. }
      intros _. destruct rest as [|g' rest].
      * injection Hrun0 as _ Hext. apply (f_equal length) in Hext.
        rewrite !length_app in Hext. simpl in Hext.
        destruct ext; [|simpl in Hext; lia]. simpl in Hmeas.
        destruct k; [|done].
        exists (applied_now param i g). split; [|lia].
        by replace (cur + 1 - 1) with cur by lia.
      * destruct (Hlast ltac:(done)) as (ext0 & -> & Hk0).
        exists (applied_now param i g ++ EvMeasure cur :: ext0).
        split; [|lia]. rewrite <- !app_assoc. simpl.
        by replace (cur + S k - 1) with (S cur + k - 1) by lia.
    + destruct rest as [|g' rest]; [done|].
      apply IH in Hrun as (ext & k & -> & Hmeas & Hk & Happ & Hlast); [|lia].
      destruct (Hlast ltac:(done)) as (ext0 & -> & Hk0).
      exists (applied_now param i g ++ ext0 ++ [EvMeasure (cur + k - 1)]), k.
      split; [by rewrite <- !app_assoc|]. split.
      { by rewrite measurements_app, measurements_applied_now, Hmeas. }
      split; [lia|]. split.
      { by rewrite applied_app, applied_applied_now, Happ. }
      intros _. exists (applied_now param i g ++ ext0).
      split; [by rewrite <- app_assoc|done].
Qed.

(** X21.  Whatever the fuser returns and whatever the entries of
    [times_to_measure_at] are, a run that has memory for the state and comes
    to its end returns [true], has applied every fused gate once and in
    order, and has called back [k] times, with the indices [0] to [k - 1] in
    order, where [k] is at most the number of entries; when there is a fused
    gate at all, [k] is not zero and the last callback comes behind the last
    fused gate. *)
Theorem Run_callbacks (times : list nat) (circuit : Circuit)
    (fused : list GateFused) (errors : list string)
    (flag : bool) (state : State) (trace : list Event) :
  IsNull (CreateState (c_num_qubits circuit) (num_threads param)) = false ->
  FuseGates (c_num_qubits circuit) (c_gates circuit) times = Some (fused, errors) ->
  Run CreateState IsNull SetStateZero ApplyFusedGate FuseGates measure
      param times circuit = Some (flag, state, trace) ->
  flag = true /\
  applied trace = seq 0 (length fused) /\
  exists k,
    measurements trace = seq 0 k /\ k <= length times /\
    (fused <> [] ->
     0 < k /\
     exists pre post,
       trace = pre ++ EvMeasure (k - 1) :: post /\
       applied pre = seq 0 (length fused)).
Proof.
  intros Hnull Hfuse. unfold Run. rewrite Hnull, Hfuse. simpl.
  destruct (apply_and_measure _ _ _ _ _ _ _ _ _) as [[state' trace']|] eqn:Hrun;
    [|done].
  simpl. rewrite with_elapsed. intros [= <- <- <-]. split; [done|].
  apply loop_counts in Hrun as (ext & k & -> & Hmeas & Hk & Happ & Hlast);
    [|lia].
  split.
  { by rewrite !applied_app, applied_errors, applied_elapsed, Happ, app_nil_r. }
  exists k. split.
  { by rewrite !measurements_app, measurements_errors, measurements_elapsed,
      Hmeas, app_nil_r. }
  split; [lia|]. intros Hne.
  destruct (Hlast Hne) as (ext0 & -> & Hk0). split; [done|].
  exists (map EvError errors ++ ext0), elapsed.
  split; [by rewrite <- !app_assoc|].
  rewrite applied_app, applied_errors. simpl.
  rewrite applied_app in Happ. simpl in Happ. by rewrite app_nil_r in Happ.
Qed.

(** With no entry in [times_to_measure_at] and a fused gate to apply, the run
    reads [times_to_measure_at[0]], which is not there. *)
Lemma Run_without_entries (circuit : Circuit) (g : GateFused)
    (fused : list GateFused) (errors : list string) :
  IsNull (CreateState (c_num_qubits circuit) (num_threads param)) = false ->
  FuseGates (c_num_qubits circuit) (c_gates circuit) [] = Some (g :: fused, errors) ->
  Run CreateState IsNull SetStateZero ApplyFusedGate FuseGates measure
      param [] circuit = None.
Proof. intros Hnull Hfuse. unfold Run. by rewrite Hnull, Hfuse. Qed.

(** *** The entry point with [maxtime] and a callback *)

Lemma window_all (t : nat) (fused : list GateFused) :
  Forall (fun g => ftime g <= t) fused -> window t fused = (fused, []).
Proof.
  induction 1 as [|g fused Hg _ IH]; [done|]. simpl.
  destruct (Nat.leb_spec (ftime g) t); [|lia]. by rewrite IH.
Qed.

(** X22.  When no fused gate is later than [maxtime] and there is one at
    least, the entry point with [maxtime] and a callback returns [true],
    applies every fused gate once and in order and calls back once, with
    index 0 and behind the last fused gate. *)
Theorem Run_maxtime_measures_once (maxtime : nat) (circuit : Circuit)
    (fused : list GateFused) (errors : list string) :
  IsNull (CreateState (c_num_qubits circuit) (num_threads param)) = false ->
  FuseGates (c_num_qubits circuit) (c_gates circuit) [maxtime]
    = Some (fused, errors) ->
  fused <> [] -> Forall (fun g => ftime g <= maxtime) fused ->
  exists state trace,
    Run_maxtime CreateState IsNull SetStateZero ApplyFusedGate FuseGates measure
      param maxtime circuit = Some (true, state, trace) /\
    measurements trace = [0] /\
    applied trace = seq 0 (length fused) /\
    exists pre post,
      trace = pre ++ EvMeasure 0 :: post /\
      forall i, i < length fused -> i ∈ applied pre.
Proof.
  intros Hnull Hfuse Hne Hall. unfold Run_maxtime, Run.
  rewrite Hnull, Hfuse. simpl.
  assert (Hok : windows_ok [maxtime] fused = true).
  { simpl. rewrite window_all by done. destruct fused; done. }
  destruct (loop_windows ApplyFusedGate measure param fused [] [maxtime] 0
              (SetStateZero
                 (CreateState (c_num_qubits circuit) (num_threads param))).2
              (map EvError errors) Hok)
    as (state' & ext & Hrun & Hmeas & Happ & Hpos).
  simpl in Hrun. rewrite Hrun. simpl. rewrite with_elapsed.
  eexists _, _. split; [done|]. split.
  { by rewrite !measurements_app, measurements_errors, measurements_elapsed, Hmeas. }
  split.
  { by rewrite !applied_app, applied_errors, applied_elapsed, Happ, app_nil_r. }
  destruct (Hpos 0 maxtime eq_refl) as (pre & post & -> & Hpre & _).
  exists (map EvError errors ++ pre), (post ++ elapsed).
  split; [by rewrite <- !app_assoc|].
  intros i Hi. destruct (lookup_lt_is_Some_2 fused i Hi) as [g Hg].
  rewrite applied_app, applied_errors. simpl.
  apply (Hpre i g Hg). rewrite Forall_forall in Hall.
  apply Hall. by eapply list_elem_of_lookup_2.
Qed.

Lemma loop_beyond (maxtime : nat) (rest : list GateFused) :
  forall i state trace j g,
    rest !! S j = Some g -> maxtime < ftime g ->
    apply_and_measure ApplyFusedGate measure param [maxtime] rest i 0 state trace
      = None.
Proof.
  induction rest as [|g0 rest IH]; intros i state trace j g Hg Hlt; [done|].
  rewrite (loop_step ApplyFusedGate measure param [maxtime] g0 rest i 0 state
             trace maxtime eq_refl).
  destruct rest as [|g1 rest]; [done|].
  destruct (Nat.ltb_spec maxtime (ftime g1)) as [Hg1|Hg1].
  - done.
  - destruct j as [|j]; simpl in Hg.
    + injection Hg as ->. lia.
    + by eapply IH.
Qed.

(** The loop that keeps its state and trace has the result of
    [apply_and_measure] when it comes to the end of the fused gates, and ends
    at a read outside [times_to_measure_at] exactly when [apply_and_measure]
    has no result. *)
Lemma apply_and_measure_upto_spec (times : list nat) (rest : list GateFused) :
  forall i cur state trace,
    apply_and_measure ApplyFusedGate measure param times rest i cur state trace
    = match apply_and_measure_upto ApplyFusedGate measure param times rest i
              cur state trace with
      | (state', trace', Completed) => Some (state', trace')
      | (_, _, ReadBeyond _) => None
      end.
Proof.
  induction rest as [|g rest IH]; intros i cur state trace; [done|].
  cbn [apply_and_measure apply_and_measure_upto].
  destruct (times !! cur) as [t|]; [|done]. simpl.
  destruct (match rest with [] => true | g' :: _ => t <? ftime g' end);
    apply IH.
Qed.

Lemma loop_upto_step times g rest i cur state trace t :
  times !! cur = Some t ->
  apply_and_measure_upto ApplyFusedGate measure param times (g :: rest) i cur
    state trace
  = if match rest with [] => true | g' :: _ => t <? ftime g' end
    then apply_and_measure_upto ApplyFusedGate measure param times rest (S i)
           (S cur) (measure cur (ApplyFusedGate g state))
           ((trace ++ applied_now param i g) ++ [EvMeasure cur])
    else apply_and_measure_upto ApplyFusedGate measure param times rest (S i)
           cur (ApplyFusedGate g state) (trace ++ applied_now param i g).
Proof.
  intros Ht. cbn [apply_and_measure_upto]. rewrite Ht. unfold applied_now.
  destruct (1 <? verbosity param); by rewrite <- ?app_assoc.
Qed.

Lemma loop_upto_beyond (maxtime : nat) :
  forall j rest i state trace g,
    rest !! S j = Some g -> maxtime < ftime g ->
    (forall k h, 0 < k <= j -> rest !! k = Some h -> ftime h <= maxtime) ->
    exists front back,
      apply_and_measure_upto ApplyFusedGate measure param [maxtime] rest i 0
        state trace
      = (ApplyFusedGate g
           (measure 0 (foldl (fun s h => ApplyFusedGate h s) state
                         (take (S j) rest))),
         trace ++ front ++ EvMeasure 0 :: back, ReadBeyond 1) /\
      applied front = seq i (S j) /\ measurements front = [] /\
      applied back = [i + S j] /\ measurements back = [].
Proof.
  induction j as [|j IH]; intros rest i state trace g Hg Hlt Hfirst.
  - destruct rest as [|g0 [|g1 rest]]; [done..|]. simpl in Hg.
    injection Hg as ->.
    rewrite (loop_upto_step [maxtime] g0 (g :: rest) i 0 state trace maxtime
               eq_refl).
    destruct (Nat.ltb_spec maxtime (ftime g)); [|lia].
    cbn [apply_and_measure_upto lookup list_lookup].
    exists (applied_now param i g0), (applied_now param (S i) g).
    split.
    { simpl. unfold applied_now.
      destruct (1 <? verbosity param); by rewrite <- ?app_assoc. }
    rewrite !applied_applied_now, !measurements_applied_now.
    repeat split; try done. f_equal. lia.
  - destruct rest as [|g0 [|g1 rest]]; [done..|].
    rewrite (loop_upto_step [maxtime] g0 (g1 :: rest) i 0 state trace maxtime
               eq_refl).
    pose proof (Hfirst 1 g1 ltac:(lia) eq_refl) as Hg1.
    destruct (Nat.ltb_spec maxtime (ftime g1)); [lia|].
    destruct (IH (g1 :: rest) (S i) (ApplyFusedGate g0 state)
                (trace ++ applied_now param i g0) g Hg Hlt)
      as (front & back & -> & Happ & Hmeas & Hback & Hbackm).
    { intros k h Hk Hh. apply (Hfirst (S k) h); [lia|done]. }
    exists (applied_now param i g0 ++ front), back.
    split; [by rewrite <- !app_assoc|].
    rewrite applied_app, measurements_app, applied_applied_now,
      measurements_applied_now, Happ, Hmeas, Hback.
    repeat split; try done. f_equal. lia.
Qed.

(** Among the fused gates that are later than [maxtime] there is a first. *)
Lemma first_beyond (maxtime : nat) (rest : list GateFused) :
  forall j g,
    rest !! j = Some g -> maxtime < ftime g ->
    exists j0 g0,
      j0 <= j /\ rest !! j0 = Some g0 /\ maxtime < ftime g0 /\
      forall k h, k < j0 -> rest !! k = Some h -> ftime h <= maxtime.
Proof.
  induction rest as [|h0 rest IH]; intros j g Hg Hlt; [done|].
  destruct (Nat.lt_ge_cases maxtime (ftime h0)) as [Hh0|Hh0].
  - exists 0, h0. split; [lia|]. split; [done|]. split; [done|].
    intros k h Hk. lia.
  - destruct j as [|j]; simpl in Hg.
    { injection Hg as ->. lia. }
    destruct (IH j g Hg Hlt) as (j0 & g0 & Hj0 & Hg0 & Hlt0 & Hfirst).
    exists (S j0), g0. split; [lia|]. split; [done|]. split; [done|].
    intros [|k] h Hk Hh; simpl in Hh.
    + by injection Hh as <-.
    + apply (Hfirst k h); [lia|done].
Qed.

(** X23.  When a fused gate other than the first one is later than [maxtime],
    the entry point with [maxtime] and a callback makes an out-of-range
    read, for which the embedded run has no result.  Up to the first such
    gate, of index [j0 + 1], the loop applies the fused gates in order; it
    calls back once, with index 0, in front of that gate, applies that gate,
    and then reads [times_to_measure_at[1]], which is not there. *)
Theorem Run_maxtime_beyond (maxtime : nat) (circuit : Circuit)
    (fused : list GateFused) (errors : list string) (j : nat) (g : GateFused) :
  IsNull (CreateState (c_num_qubits circuit) (num_threads param)) = false ->
  FuseGates (c_num_qubits circuit) (c_gates circuit) [maxtime]
    = Some (fused, errors) ->
  fused !! S j = Some g -> maxtime < ftime g ->
  Run_maxtime CreateState IsNull SetStateZero ApplyFusedGate FuseGates measure
    param maxtime circuit = None /\
  exists j0 g0 front back,
    j0 <= j /\ fused !! S j0 = Some g0 /\ maxtime < ftime g0 /\
    (forall k h, 0 < k <= j0 -> fused !! k = Some h -> ftime h <= maxtime) /\
    apply_and_measure_upto ApplyFusedGate measure param [maxtime] fused 0 0
      (SetStateZero (CreateState (c_num_qubits circuit) (num_threads param))).2
      (map EvError errors)
    = (ApplyFusedGate g0
         (measure 0
            (foldl (fun s h => ApplyFusedGate h s)
               (SetStateZero
                  (CreateState (c_num_qubits circuit) (num_threads param))).2
               (take (S j0) fused))),
       map EvError errors ++ front ++ EvMeasure 0 :: back, ReadBeyond 1) /\
    applied front = seq 0 (S j0) /\ measurements front = [] /\
    applied back = [S j0] /\ measurements back = [].
Proof.
  intros Hnull Hfuse Hg Hlt.
  rewrite <- lookup_tail in Hg.
  destruct (first_beyond maxtime (tail fused) j g Hg Hlt)
    as (j0 & g0 & Hj0 & Hg0 & Hlt0 & Hfirst).
  rewrite lookup_tail in Hg0.
  assert (Hfirst' : forall k h, 0 < k <= j0 -> fused !! k = Some h ->
                                ftime h <= maxtime).
  { intros [|k] h Hk Hh; [lia|]. rewrite <- lookup_tail in Hh.
    apply (Hfirst k h); [lia|done]. }
  destruct (loop_upto_beyond maxtime j0 fused 0
              (SetStateZero
                 (CreateState (c_num_qubits circuit) (num_threads param))).2
              (map EvError errors) g0 Hg0 Hlt0 Hfirst')
    as (front & back & Hrun & Happ & Hmeas & Hback & Hbackm).
  split.
  - unfold Run_maxtime, Run. rewrite Hnull, Hfuse. simpl.
    by rewrite apply_and_measure_upto_spec, Hrun.
  - exists j0, g0, front, back. done.
Qed.

(** *** The entry point with a state *)

Lemma apply_all_spec (rest : list GateFused) :
  forall i state trace,
    exists ext,
      apply_all ApplyFusedGate param rest i state trace
        = (foldl (fun s g => ApplyFusedGate g s) state rest, trace ++ ext) /\
      applied ext = seq i (length rest) /\ measurements ext = [].
Proof.
  induction rest as [|g rest IH]; intros i state trace.
  - exists []. by rewrite app_nil_r.
  - cbn [apply_all foldl].
    destruct (IH (S i) (ApplyFusedGate g state)
                (if 1 <? verbosity param
                 then (trace ++ [EvApply i g]) ++ [EvMessage message_gate]
                 else trace ++ [EvApply i g])) as (ext & -> & Happ & Hmeas).
    exists (applied_now param i g ++ ext). unfold applied_now.
    split; [destruct (1 <? verbosity param); by rewrite <- !app_assoc|].
    fold (applied_now param i g).
    split.
    + by rewrite applied_app, applied_applied_now, Happ.
    + by rewrite measurements_app, measurements_applied_now, Hmeas.
Qed.

(** X24.  The entry point with a state returns [true] whatever the fuser
    reports; the final state is the given state with every fused gate applied
    to it, once and in order, and there is no callback. *)
Theorem Run_state_applies_all (maxtime : nat) (circuit : Circuit)
    (state : State) (fused : list GateFused) (errors : list string) :
  FuseGates_maxtime (c_num_qubits circuit) (c_gates circuit) maxtime
    = Some (fused, errors) ->
  exists trace,
    Run_state ApplyFusedGate FuseGates_maxtime param maxtime circuit state
      = Some (true, foldl (fun s g => ApplyFusedGate g s) state fused, trace) /\
    applied trace = seq 0 (length fused) /\
    measurements trace = [].
Proof.
  intros Hfuse. unfold Run_state. rewrite Hfuse. simpl.
  destruct (apply_all_spec fused 0 state (map EvError errors))
    as (ext & -> & Happ & Hmeas).
  rewrite with_elapsed. eexists. split; [done|]. split.
  - by rewrite !applied_app, applied_errors, applied_elapsed, Happ, app_nil_r.
  - by rewrite !measurements_app, measurements_errors, measurements_elapsed, Hmeas.
Qed.

End Generic.

Lemma Run_callbacks_witness :
  true = true /\
  applied two_steps_trace = seq 0 (length two_steps_fused) /\
  exists k,
    measurements two_steps_trace = seq 0 k /\ k <= length [0; 1] /\
    (two_steps_fused <> [] ->
     0 < k /\
     exists pre post,
       two_steps_trace = pre ++ EvMeasure (k - 1) :: post /\
       applied pre = seq 0 (length two_steps_fused)).
Proof.
  apply (Run_callbacks (fun _ _ => tt) (fun _ => false) (fun s => (true, s))
           (fun _ s => s) BasicGateFuser.FuseGates (fun _ s => s) (mkParam 1 0)
           [0; 1] (mkCircuit 1 two_steps) two_steps_fused [] true tt
           two_steps_trace).
  - reflexivity.
  - vm_compute. reflexivity.
  - vm_compute. reflexivity.
Defined.

Lemma Run_maxtime_measures_once_witness :
  exists state trace,
    Run_maxtime (fun _ _ => tt) (fun _ => false) (fun s => (true, s))
      (fun _ s => s) BasicGateFuser.FuseGates (fun _ s => s) (mkParam 1 0) 1
      (mkCircuit 1 two_steps) = Some (true, state, trace) /\
    measurements trace = [0] /\
    applied trace = seq 0 (length two_steps_merged) /\
    exists pre post,
      trace = pre ++ EvMeasure 0 :: post /\
      forall i, i < length two_steps_merged -> i ∈ applied pre.
Proof.
  apply (Run_maxtime_measures_once (fun _ _ => tt) (fun _ => false)
           (fun s => (true, s)) (fun _ s => s) BasicGateFuser.FuseGates
           (fun _ s => s) (mkParam 1 0) 1 (mkCircuit 1 two_steps)
           two_steps_merged []).
  - reflexivity.
  - vm_compute. reflexivity.
  - discriminate.
  - repeat constructor.
Defined.

Lemma Run_maxtime_beyond_witness :
  Run_maxtime (fun _ _ => 0) (fun _ => false) (fun s => (true, s))
    (fun _ s => S s) BasicGateFuser.FuseGates (fun _ s => s) (mkParam 1 0) 0
    (mkCircuit 1 two_steps) = None /\
  exists j0 g0 front back,
    j0 <= 0 /\ two_steps_fused !! S j0 = Some g0 /\ 0 < ftime g0 /\
    (forall k h, 0 < k <= j0 -> two_steps_fused !! k = Some h -> ftime h <= 0) /\
    apply_and_measure_upto (fun _ s => S s) (fun _ s => s) (mkParam 1 0) [0]
      two_steps_fused 0 0 0 []
    = (S (foldl (fun s _ => S s) 0 (take (S j0) two_steps_fused)),
       front ++ EvMeasure 0 :: back, ReadBeyond 1) /\
    applied front = seq 0 (S j0) /\ measurements front = [] /\
    applied back = [S j0] /\ measurements back = [].
Proof.
  apply (Run_maxtime_beyond (fun _ _ => 0) (fun _ => false)
           (fun s => (true, s)) (fun _ s => S s) BasicGateFuser.FuseGates
           (fun _ s => s) (mkParam 1 0) 0 (mkCircuit 1 two_steps)
           two_steps_fused [] 0
           (mkFused (kGate 0) 1 1 [0] (mkPtr 1 (gate1 0 1 0 false))
              [mkPtr 1 (gate1 0 1 0 false)])).
  - reflexivity.
  - vm_compute. reflexivity.
  - reflexivity.
  - simpl. lia.
Defined.

Lemma Run_state_applies_all_witness :
  exists trace,
    Run_state (fun _ (s : nat) => S s)
      (fun n gates maxtime => BasicGateFuser.FuseGates n gates [maxtime])
      (mkParam 1 0) 0 (mkCircuit 1 two_steps) 0
      = Some (true, foldl (fun s _ => S s) 0 two_steps_fused, trace) /\
    applied trace = seq 0 (length two_steps_fused) /\
    measurements trace = [].
Proof.
  apply (Run_state_applies_all (fun _ (s : nat) => S s)
           (fun n gates maxtime => BasicGateFuser.FuseGates n gates [maxtime])
           (mkParam 1 0) 0 (mkCircuit 1 two_steps) 0 two_steps_fused []).
  vm_compute. reflexivity.
Defined.

End RunnerLoopFacts.

(** ** Setting, adding and scaling states *)

Module StateOpsFacts.

Import StateSpaceAVX Mass Scenario LayoutFacts CollapseFacts.

Section Generic.

Context {F : Type} `{Scalar F}.

(** *** Kernels that rewrite one block in each round *)

Lemma for_Run_kernel (f g : nat -> list F -> list F) (m : nat) (state : list F) :
  (forall i b, length b = 16 -> length (g i b) = 16) ->
  (forall i p, i < m -> length p = length state -> f i p = on_block i (g i) p) ->
  16 * m <= length state ->
  for_Run m f state = bmap g 0 m state.
Proof.
  intros Hg Hf Hlen. unfold for_Run.
  rewrite <- (for_Run_bmap g m 0 state) by done. cbn [Nat.add].
  assert (Hpre : forall m', m' <= m ->
    foldl (fun a i => f i a) state (seq 0 m')
    = foldl (fun p i => on_block i (g i) p) state (seq 0 m')).
  { induction m' as [|m' IH]; intros Hm'; [done|].
    rewrite seq_S, !foldl_snoc. cbn [Nat.add]. rewrite IH by lia.
    apply Hf; [lia|].
    pose proof (for_Run_bmap g m' 0 state Hg ltac:(lia)) as E.
    cbn [Nat.add] in E. rewrite E.
    apply bmap_length; [done|lia]. }
  by apply Hpre.
Qed.

Lemma bmap_map (h : F -> F) (g : nat -> list F -> list F) (m : nat) :
  (forall i b, length b = 16 -> g i b = map h b) ->
  forall k (s : list F), length s = 16 * m -> bmap g k m s = map h s.
Proof.
  intros Hg. induction m as [|m IH]; intros k s Hs.
  - by destruct s.
  - cbn [bmap]. rewrite Hg by (rewrite length_take; lia).
    rewrite IH by (rewrite length_drop; lia).
    rewrite <- map_app. by rewrite take_drop.
Qed.

Lemma load_lo (p : list F) (k : nat) :
  _mm256_load_ps p (16 * k) = take 8 (take 16 (drop (16 * k) p)).
Proof. unfold _mm256_load_ps. by rewrite take_take. Qed.

Lemma load_hi (p : list F) (k : nat) :
  _mm256_load_ps p (16 * k + 8) = take 8 (drop 8 (take 16 (drop (16 * k) p))).
Proof.
  unfold _mm256_load_ps. rewrite <- drop_drop.
  rewrite <- (take_drop_commute _ 8 8). by rewrite take_take.
Qed.

(** A kernel that stores eight new real parts and eight new imaginary parts
    of block [k] rewrites that block. *)
Lemma store_block (p : list F) (k : nat) (re im : list F) :
  16 * k + 16 <= length p -> length re = 8 -> length im = 8 ->
  _mm256_store_ps (_mm256_store_ps p (16 * k) re) (16 * k + 8) im
  = on_block k (fun _ => re ++ im) p.
Proof. intros Hp Hre Him. by rewrite store_store. Qed.

(** *** [SetAllZeros] *)

Lemma for_Run_zeros (m : nat) (state : list F) :
  length state = 16 * m ->
  for_Run m
    (fun i p =>
       let p := _mm256_store_ps p (16 * i) _mm256_setzero_ps in
       _mm256_store_ps p (16 * i + 8) _mm256_setzero_ps) state
  = replicate (16 * m) fzero.
Proof.
  intros Hlen.
  rewrite (for_Run_kernel _ (fun _ _ => replicate 16 fzero)); [|done| |lia].
  - rewrite (bmap_map (fun _ => fzero)) by (done || intros i b Hb;
      apply list16 in Hb
        as (x0&x1&x2&x3&x4&x5&x6&x7&x8&x9&x10&x11&x12&x13&x14&x15&->);
      reflexivity).
    rewrite <- Hlen. by apply const_fmap.
  - intros i p Hi Hp. cbn zeta.
    rewrite store_block by (reflexivity || lia). reflexivity.
Qed.

Lemma raw_size_div (n : nat) :
  exists m, raw_size_ n = 16 * m /\ raw_size_ n / 16 = m /\ 0 < m.
Proof.
  destruct (raw_size_blocks n) as (m & Hraw & Hm0 & _). exists m.
  split; [done|]. split; [|done].
  rewrite Hraw, Nat.mul_comm. apply Nat.div_mul. lia.
Qed.

(** X2.  [SetAllZeros] fills a state of the raw size with zeros, whatever it
    held, and leaves a state of another size as it is, returning [false]. *)
Theorem SetAllZeros_spec (n : nat) (state : list F) :
  SetAllZeros n state =
    if length state =? raw_size_ n
    then (true, replicate (raw_size_ n) fzero)
    else (false, state).
Proof.
  unfold SetAllZeros.
  destruct (Nat.eqb_spec (length state) (raw_size_ n)) as [Hlen|]; [|done].
  cbn [negb]. destruct (raw_size_div n) as (m & Hraw & -> & _).
  rewrite for_Run_zeros by lia. by rewrite Hraw.
Qed.

(** *** [Multiply] and [AddState] *)

Ltac explode H :=
  apply list16 in H as (?&?&?&?&?&?&?&?&?&?&?&?&?&?&?&?&->).

Lemma block_length (p : list F) (k : nat) :
  16 * k + 16 <= length p -> length (take 16 (drop (16 * k) p)) = 16.
Proof. intros Hp. rewrite length_take, length_drop. lia. Qed.

(** X8.  [Multiply] multiplies every entry of a state of the raw size by [a],
    and leaves a state of another size as it is, returning [false]. *)
Theorem Multiply_spec (n : nat) (a : F) (state : list F) :
  Multiply n a state =
    if length state =? raw_size_ n
    then (true, map (fun x => fmul x a) state)
    else (false, state).
Proof.
  unfold Multiply.
  destruct (Nat.eqb_spec (length state) (raw_size_ n)) as [Hlen|]; [|done].
  cbn [negb]. destruct (raw_size_div n) as (m & Hraw & -> & _). f_equal.
  rewrite (for_Run_kernel _ (fun _ b => map (fun x => fmul x a) b));
    [|intros; by rewrite length_map| |lia].
  - apply bmap_map; [done|lia].
  - intros i p Hi Hp. cbn zeta. rewrite load_lo, load_hi.
    assert (Hb : length (take 16 (drop (16 * i) p)) = 16)
      by (apply block_length; lia).
    rewrite store_block; [|lia|by explode Hb|by explode Hb].
    unfold on_block. do 2 f_equal. by explode Hb.
Qed.

Lemma bmap_zip_with (src : list F) (m0 m : nat) : forall k (dest : list F),
  length dest = 16 * m -> 16 * (k + m) <= length src -> k + m <= m0 ->
  bmap (fun i b => if i <? m0
                   then zip_with fadd (take 16 (drop (16 * i) src)) b else b)
       k m dest
  = zip_with fadd (drop (16 * k) src) dest.
Proof.
  induction m as [|m IH]; intros k dest Hd Hs Hk.
  - destruct dest; [|done]. by rewrite zip_with_nil_r.
  - cbn [bmap]. rewrite IH by (rewrite ?length_drop; lia).
    destruct (Nat.ltb_spec k m0); [|lia].
    replace (16 * S k) with (16 * k + 16) by lia. rewrite <- drop_drop.
    rewrite <- zip_with_take, <- zip_with_drop. apply take_drop.
Qed.

(** X7.  [AddState] adds [src] to [dest] entry by entry when both have the raw
    size, and leaves [dest] as it is, returning [false], when one of them has
    not. *)
Theorem AddState_spec (n : nat) (src dest : list F) :
  AddState n src dest =
    if (length src =? raw_size_ n) && (length dest =? raw_size_ n)
    then (true, zip_with fadd src dest)
    else (false, dest).
Proof.
  unfold AddState.
  destruct (Nat.eqb_spec (length src) (raw_size_ n)) as [Hs|]; [|done].
  destruct (Nat.eqb_spec (length dest) (raw_size_ n)) as [Hd|]; [|done].
  cbn [negb orb andb]. destruct (raw_size_div n) as (m & Hraw & -> & _).
  f_equal.
  rewrite (for_Run_kernel _
             (fun i b => if i <? m
                         then zip_with fadd (take 16 (drop (16 * i) src)) b
                         else b));
    [| | |lia].
  - rewrite bmap_zip_with by lia. by rewrite drop_0.
  - intros i b Hb. destruct (Nat.ltb_spec i m); [|done].
    rewrite length_zip_with, length_take, length_drop. lia.
  - intros i p Hi Hp. cbn zeta. rewrite !load_lo, !load_hi.
    destruct (Nat.ltb_spec i m); [|lia].
    assert (Hb : length (take 16 (drop (16 * i) p)) = 16)
      by (apply block_length; lia).
    assert (Ha : length (take 16 (drop (16 * i) src)) = 16)
      by (apply block_length; lia).
    rewrite store_block; [|lia|by explode Hb; explode Ha
                               |by explode Hb; explode Ha].
    unfold on_block. do 2 f_equal. by explode Hb; explode Ha.
Qed.

(** *** The raw size *)

(** X1.  Up to 62 qubits the raw size is [max(16, 2 * 2^N)]: the buffer has
    room for the real and the imaginary part of every amplitude, and is never
    shorter than one block. *)
Theorem raw_size_pow (n : nat) :
  n < 63 -> raw_size_ n = Nat.max 16 (2 * 2 ^ n).
Proof.
  intros Hn. unfold raw_size_, MinimumRawSize, u64.
  rewrite Z.shiftl_1_l.
  assert (Hp : (0 < 2 ^ Z.of_nat n <= 2 ^ 62)%Z).
  { split; [apply Z.pow_pos_nonneg; lia|].
    apply Z.pow_le_mono_r; lia. }
  rewrite (Z.mod_small (2 ^ Z.of_nat n)) by lia.
  rewrite Z.mod_small by lia.
  rewrite Z2Nat.inj_max. f_equal.
  replace (2 * 2 ^ Z.of_nat n)%Z with (Z.of_nat (2 * 2 ^ n)).
  - apply Nat2Z.id.
  - rewrite Nat2Z.inj_mul, Nat2Z.inj_pow. done.
Qed.

(** *** [SetAmpl] and [GetAmpl] *)

Lemma slot_injective (i j : nat) :
  let ki := 16 * (i / 8) + i mod 8 in
  let kj := 16 * (j / 8) + j mod 8 in
  i <> j -> ki <> kj /\ ki <> kj + 8 /\ ki + 8 <> kj.
Proof.
  intros ki kj Hne. subst ki kj.
  pose proof (Nat.div_mod_eq i 8). pose proof (Nat.div_mod_eq j 8).
  pose proof (Nat.mod_upper_bound i 8 ltac:(lia)).
  pose proof (Nat.mod_upper_bound j 8 ltac:(lia)).
  lia.
Qed.

Lemma at_insert (l : list F) (k k' : nat) (x : F) :
  at_ (<[k := x]> l) k' = if decide (k = k' /\ k < length l) then x else at_ l k'.
Proof.
  unfold at_. rewrite !nth_lookup.
  destruct (decide (k = k' /\ k < length l)) as [[-> Hk]|Hn].
  - by rewrite list_lookup_insert_eq.
  - destruct (decide (k = k')) as [->|Hne].
    + rewrite list_insert_ge by lia. done.
    + by rewrite list_lookup_insert_ne.
Qed.

(** X5.  For a state of [m] blocks and an amplitude index [i] below [8 * m],
    [SetAmpl], in both its forms, stores the amplitude so that [GetAmpl]
    reads it back at [i], and every other amplitude is read as before. *)
Theorem SetAmpl_GetAmpl (state : list F) (m i : nat) (re im : F) :
  length state = 16 * m -> i < 8 * m ->
  exists state',
    SetAmpl state i re im = Some state' /\
    SetAmpl_complex state i (re, im) = Some state' /\
    length state' = length state /\
    GetAmpl state' i = (re, im) /\
    forall j, j <> i -> GetAmpl state' j = GetAmpl state j.
Proof.
  intros Hlen Hi. unfold SetAmpl_complex, SetAmpl. cbn [fst snd].
  pose proof (Nat.div_mod_eq i 8) as Hdm.
  pose proof (Nat.mod_upper_bound i 8 ltac:(lia)) as Hmod.
  set (k := 16 * (i / 8) + i mod 8) in *.
  assert (Hk : k + 8 < length state) by (subst k; lia).
  destruct (Nat.ltb_spec (k + 8) (length state)); [|lia].
  eexists. split; [done|]. split; [done|].
  split; [by rewrite !length_insert|]. split.
  - unfold GetAmpl. fold k. rewrite !at_insert, !length_insert.
    rewrite decide_False by lia. rewrite decide_True by lia.
    by rewrite decide_True by lia.
  - intros j Hj. unfold GetAmpl.
    destruct (slot_injective j i Hj) as (H1 & H2 & H3). fold k in H1, H2, H3.
    rewrite !at_insert, !length_insert.
    by rewrite !decide_False by lia.
Qed.

(** X6.  For an amplitude index [i] below [2^63] the [uint64_t] arithmetic
    of the code does not wrap, so that the index [k] of [SetAmpl] is the one
    computed here; the two writes of [SetAmpl] then stay inside a state of
    [m] blocks exactly when [i] is below [8 * m], and from [8 * m] on they
    go outside the buffer. *)
Theorem SetAmpl_in_range (state : list F) (m i : nat) (re im : F) :
  length state = 16 * m -> (Z.of_nat i < 2 ^ 63)%Z ->
  u64 (16 * (Z.of_nat i / 8) + Z.of_nat i mod 8)
    = Z.of_nat (16 * (i / 8) + i mod 8) /\
  (is_Some (SetAmpl state i re im) <-> i < 8 * m).
Proof.
  intros Hlen Hi. split.
  - rewrite Nat2Z.inj_add, Nat2Z.inj_mul, Nat2Z.inj_div, Nat2Z.inj_mod.
    unfold u64. apply Z.mod_small.
    change (Z.of_nat 16) with 16%Z. change (Z.of_nat 8) with 8%Z.
    pose proof (Z.div_mod (Z.of_nat i) 8 ltac:(lia)) as Hdm.
    pose proof (Z.mod_pos_bound (Z.of_nat i) 8 ltac:(lia)) as Hmod.
    lia.
  - unfold SetAmpl.
    pose proof (Nat.div_mod_eq i 8) as Hdm.
    pose proof (Nat.mod_upper_bound i 8 ltac:(lia)) as Hmod.
    destruct (Nat.ltb_spec (16 * (i / 8) + i mod 8 + 8) (length state)).
    + split; [lia|by eexists].
    + split; [by intros [? ?]|lia].
Qed.

(** At [i = 2^63] the index of the code has wrapped to [0]: from there on
    [SetAmpl] and [GetAmpl] of the code reach into the buffer again, and the
    embedding, which computes the index on [nat], does not follow them. *)
Lemma ampl_index_wraps :
  u64 (16 * (2 ^ 63 / 8) + 2 ^ 63 mod 8) = 0%Z.
Proof. reflexivity. Qed.

Lemma GetAmpl_bmap (g : nat -> list F -> list F) (state : list F) (m i : nat) :
  (forall i b, length b = 16 -> length (g i b) = 16) ->
  16 * m <= length state -> i < 8 * m ->
  GetAmpl (bmap g 0 m state) i
  = (at_ (g (i / 8) (take 16 (drop (16 * (i / 8)) state))) (i mod 8),
     at_ (g (i / 8) (take 16 (drop (16 * (i / 8)) state))) (8 + i mod 8)).
Proof.
  intros Hg Hlen Hi. unfold GetAmpl.
  assert (Hk : i / 8 < m) by (apply Nat.Div0.div_lt_upper_bound; lia).
  assert (Hj : i mod 8 < 8) by (apply Nat.mod_upper_bound; lia).
  replace (16 * (i / 8) + i mod 8 + 8) with (16 * (i / 8) + (8 + i mod 8)) by lia.
  by rewrite !at_bmap by (done || lia).
Qed.

End Generic.

Section Initial.

Context {F : Type} `{ScalarSqrt F} `{!ScalarOfInt F}.

(** *** [SetStateZero] *)

(** X3.  After [SetStateZero] on a state of the raw size, amplitude 0 is one
    and every other amplitude of the buffer is zero. *)
Theorem SetStateZero_amplitudes (n : nat) (state : list F) :
  length state = raw_size_ n ->
  exists state',
    SetStateZero n state = (true, state') /\
    length state' = raw_size_ n /\
    GetAmpl state' 0 = (fone, fzero) /\
    forall i, 0 < i < raw_size_ n / 2 -> GetAmpl state' i = (fzero, fzero).
Proof.
  intros Hlen. unfold SetStateZero, SetAllZeros.
  rewrite Hlen, Nat.eqb_refl. cbn [negb snd].
  destruct (raw_size_div n) as (m & Hraw & Hdiv & Hm). rewrite Hdiv.
  rewrite for_Run_zeros by lia. eexists. split; [done|].
  split; [by rewrite length_insert, length_replicate|].
  unfold GetAmpl. split.
  - change (16 * (0 / 8) + 0 mod 8) with 0.
    rewrite !at_insert, length_replicate.
    rewrite decide_True by lia. rewrite decide_False by lia.
    unfold at_. by rewrite nth_lookup, lookup_replicate_2 by lia.
  - intros i Hi. rewrite !at_insert, length_replicate.
    pose proof (Nat.div_mod_eq i 8) as Hdm.
    pose proof (Nat.mod_upper_bound i 8 ltac:(lia)) as Hmod.
    assert (Hi' : i < 8 * m).
    { rewrite Hraw in Hi. replace (16 * m) with ((8 * m) * 2) in Hi by lia.
      rewrite Nat.div_mul in Hi by lia. lia. }
    rewrite !decide_False by lia.
    unfold at_. by rewrite !nth_lookup, !lookup_replicate_2 by lia.
Qed.

(** *** [SetStateUniform] *)

Lemma raw_size_large (n : nat) : 3 <= n < 63 -> raw_size_ n = 2 * 2 ^ n.
Proof.
  intros Hn. unfold raw_size_, MinimumRawSize, u64.
  rewrite Z.shiftl_1_l.
  assert (Hp : (2 ^ 3 <= 2 ^ Z.of_nat n <= 2 ^ 62)%Z)
    by (split; apply Z.pow_le_mono_r; lia).
  rewrite (Z.mod_small (2 ^ Z.of_nat n)) by lia.
  rewrite Z.mod_small by lia. rewrite Z.max_r by lia.
  replace (2 * 2 ^ Z.of_nat n)%Z with (Z.of_nat (2 * 2 ^ n)).
  - apply Nat2Z.id.
  - rewrite Nat2Z.inj_mul, Nat2Z.inj_pow. done.
Qed.

Lemma Size_pow (n : nat) : n < 64 -> Size n = (2 ^ Z.of_nat n)%Z.
Proof.
  intros Hn. unfold Size, u64. rewrite Z.shiftl_1_l.
  apply Z.mod_small. split; [apply Z.pow_nonneg; lia|].
  apply Z.pow_lt_mono_r; lia.
Qed.

Lemma for_Run_fill (valu val0 : list F) (m : nat) (state : list F) :
  length valu = 8 -> length val0 = 8 -> length state = 16 * m ->
  for_Run m
    (fun i p =>
       let p := _mm256_store_ps p (16 * i) valu in
       _mm256_store_ps p (16 * i + 8) val0) state
  = bmap (fun _ _ => valu ++ val0) 0 m state.
Proof.
  intros Hvu Hv0 Hlen. apply for_Run_kernel; [|intros i p Hi Hp|lia].
  - intros _ _ _. rewrite length_app. lia.
  - cbn zeta. by rewrite store_block by (done || lia).
Qed.

(** X4.  After [SetStateUniform] on a state of the raw size, for 1 up to 62
    qubits, each of the [2^N] amplitudes is [1 / sqrt(2^N)] with imaginary
    part zero, and the amplitudes of the buffer behind them are zero. *)
Theorem SetStateUniform_amplitudes (n : nat) (state : list F) :
  1 <= n < 63 -> length state = raw_size_ n ->
  let v := fdiv fone (fsqrt (fof_Z (2 ^ Z.of_nat n))) in
  exists state',
    SetStateUniform n state = (true, state') /\
    length state' = raw_size_ n /\
    forall i, i < raw_size_ n / 2 ->
      GetAmpl state' i = if i <? 2 ^ n then (v, fzero) else (fzero, fzero).
Proof.
  intros Hn Hlen v. unfold SetStateUniform.
  rewrite Hlen, Nat.eqb_refl. cbn [negb].
  rewrite Size_pow by lia. fold v.
  destruct (raw_size_div n) as (m & Hraw & Hdiv & Hm). rewrite Hdiv.
  set (valu := match n with
               | 1 => _mm256_set_ps fzero fzero fzero fzero fzero fzero v v
               | 2 => _mm256_set_ps fzero fzero fzero fzero v v v v
               | _ => _mm256_set1_ps v
               end).
  assert (Hu : length valu = 8).
  { subst valu. by destruct n as [|[|[|n']]]. }
  rewrite for_Run_fill by (done || lia).
  assert (Hg : forall (i : nat) (b : list F),
             length b = 16 -> length (valu ++ @_mm256_setzero_ps F _) = 16).
  { intros _ _ _. rewrite length_app, Hu. done. }
  eexists. split; [done|]. split.
  { rewrite bmap_length by (done || lia). lia. }
  intros i Hi.
  assert (Hi' : i < 8 * m).
  { rewrite Hraw in Hi. replace (16 * m) with ((8 * m) * 2) in Hi by lia.
    by rewrite Nat.div_mul in Hi by lia. }
  rewrite GetAmpl_bmap by (done || lia).
  pose proof (Nat.mod_upper_bound i 8 ltac:(lia)) as Hj.
  destruct n as [|[|[|n']]]; [lia| | |].
  - change (raw_size_ 1) with 16 in Hraw. assert (m = 1) as -> by lia.
    subst valu. do 8 (destruct i as [|i]; [reflexivity|]). lia.
  - change (raw_size_ 2) with 16 in Hraw. assert (m = 1) as -> by lia.
    subst valu. do 8 (destruct i as [|i]; [reflexivity|]). lia.
  - rewrite raw_size_large in Hraw by lia.
    destruct (Nat.ltb_spec i (2 ^ S (S (S n')))); [|lia].
    subst valu. remember (i mod 8) as j eqn:Ej. clear Ej.
    do 8 (destruct j as [|j]; [reflexivity|]). lia.
Qed.

End Initial.

Lemma raw_size_pow_witness : raw_size_ 5 = Nat.max 16 (2 * 2 ^ 5).
Proof. apply (raw_size_pow 5). lia. Defined.

Lemma SetAmpl_GetAmpl_witness :
  exists state',
    SetAmpl ket0 1 2%Q 3%Q = Some state' /\
    SetAmpl_complex ket0 1 (2%Q, 3%Q) = Some state' /\
    length state' = length ket0 /\
    GetAmpl state' 1 = (2%Q, 3%Q) /\
    forall j, j <> 1 -> GetAmpl state' j = GetAmpl ket0 j.
Proof.
  apply (SetAmpl_GetAmpl ket0 1 1 2%Q 3%Q).
  - reflexivity.
  - lia.
Defined.

Lemma SetAmpl_in_range_witness :
  u64 (16 * (Z.of_nat 8 / 8) + Z.of_nat 8 mod 8)
    = Z.of_nat (16 * (8 / 8) + 8 mod 8) /\
  (is_Some (SetAmpl ket0 8 2%Q 3%Q) <-> 8 < 8 * 1).
Proof. apply (SetAmpl_in_range ket0 1 8 2%Q 3%Q); reflexivity. Defined.

Lemma SetStateZero_amplitudes_witness :
  exists state',
    SetStateZero 1 zero_state = (true, state') /\
    length state' = raw_size_ 1 /\
    GetAmpl state' 0 = (1%R, 0%R) /\
    forall i, 0 < i < raw_size_ 1 / 2 -> GetAmpl state' i = (0%R, 0%R).
Proof. exact (SetStateZero_amplitudes 1 zero_state eq_refl). Defined.

Lemma SetStateUniform_amplitudes_witness :
  let v := (1 / sqrt (IZR (2 ^ Z.of_nat 1)))%R in
  exists state',
    SetStateUniform 1 zero_state = (true, state') /\
    length state' = raw_size_ 1 /\
    forall i, i < raw_size_ 1 / 2 ->
      GetAmpl state' i = if i <? 2 ^ 1 then (v, 0%R) else (0%R, 0%R).
Proof.
  assert (Hn : 1 <= 1 < 63) by lia.
  exact (SetStateUniform_amplitudes 1 zero_state Hn eq_refl).
Defined.

End StateOpsFacts.

(** ** Inner products *)

Module InnerProductFacts.

Import StateSpaceAVX Mass Sums Scenario LayoutFacts CollapseFacts StateOpsFacts.

Section Generic.

Context {F : Type} `{Scalar F} `{!ScalarSub F}.

Lemma fst_reduce (g : nat -> F * F) (l : list nat) : forall a,
  fst (foldl (fun r i => cadd r (g i)) a l)
  = foldl (fun r i => fadd r (fst (g i))) (fst a) l.
Proof. induction l as [|i l IH]; intros a; [done|]. simpl. by rewrite IH. Qed.

(** X9.  [RealInnerProduct] is the real part of [InnerProduct], and both
    refuse states of the wrong size alike. *)
Theorem RealInnerProduct_real_part (n : nat) (state1 state2 : list F) :
  RealInnerProduct n state1 state2 = fst <$> InnerProduct n state1 state2.
Proof.
  unfold RealInnerProduct, InnerProduct.
  destruct (negb _ || negb _); [done|]. simpl. f_equal.
  unfold for_RunReduce, for_RunReduce_complex. by rewrite fst_reduce.
Qed.

End Generic.

Section Exact.

Local Open Scope R_scope.

Definition unmasked : MeasurementResult := mkMeasurementResult 0 0.

Lemma survives_all (i : nat) : survives unmasked i = true.
Proof. unfold survives. simpl. by rewrite Z.land_0_r. Qed.

Lemma mass_below_all (state : list R) :
  mass_below unmasked state (length state / 2) = norm_squared state.
Proof.
  unfold mass_below, norm_squared, sumR. do 2 f_equal.
  induction (seq 0 (length state / 2)) as [|i l IH]; [done|].
  rewrite filter_cons, decide_True by apply survives_all. by rewrite IH.
Qed.

Lemma RealInnerProduct_f_self (state : list R) (k : nat) :
  (16 * k + 16 <= length state)%nat ->
  (Z.of_nat (8 * k + 7) < 2 ^ 64)%Z ->
  RealInnerProduct_f k state state = CollapseState_f1 k 0 0 state.
Proof.
  intros Hlen Hk. unfold RealInnerProduct_f, CollapseState_f1.
  rewrite (maskload_at unmasked) by (simpl; lia).
  rewrite (maskload_at unmasked) by (simpl; lia).
  rewrite !load_at by lia. unfold keep.
  cbn [map seq]. by rewrite !survives_all.
Qed.

Lemma reduce_norm (state : list R) (m : nat) :
  (length state = 16 * m)%nat -> (Z.of_nat (16 * m) < 2 ^ 64)%Z ->
  for_RunReduce m (fun i => RealInnerProduct_f i state state)
  = norm_squared state.
Proof.
  intros Hlen Hm. rewrite <- mass_below_all.
  replace (length state / 2)%nat with (8 * m)%nat.
  2:{ rewrite Hlen. replace (16 * m)%nat with ((8 * m) * 2)%nat by lia.
      by rewrite Nat.div_mul by lia. }
  rewrite <- (reduce_mass unmasked) by (simpl; lia).
  unfold for_RunReduce. change (mask unmasked) with 0%Z. change (bits unmasked) with 0%Z.
  assert (Hpre : forall m', (m' <= m)%nat ->
    foldl (fun r i => fadd r (RealInnerProduct_f i state state)) fzero (seq 0 m')
    = foldl (fun r i => fadd r (CollapseState_f1 i 0 0 state)) fzero (seq 0 m')).
  { induction m' as [|m' IH]; intros Hm'; [done|].
    rewrite seq_S, !foldl_snoc. cbn [Nat.add]. rewrite IH by lia.
    by rewrite RealInnerProduct_f_self by lia. }
  by apply Hpre.
Qed.

Ltac to_reals :=
  change (@fadd R R_scalar) with Rplus in *;
  change (@fmul R R_scalar) with Rmult in *;
  change (@fsub R R_sub) with Rminus in *;
  change (@fzero R R_scalar) with 0 in *.

Lemma InnerProduct_f_conjugate (a b : list R) (k : nat) :
  (16 * k + 16 <= length a)%nat -> (16 * k + 16 <= length b)%nat ->
  InnerProduct_f k b a = conjugate (InnerProduct_f k a b).
Proof.
  intros Ha Hb. unfold InnerProduct_f, conjugate. rewrite !load_at by lia.
  cbn [map seq fst snd]. unfold _mm256_fmadd_ps, _mm256_fnmadd_ps, _mm256_mul_ps.
  cbn [zip_with]. unfold HorizontalSumAVX, at_. cbn [nth]. fold (at_ a). fold (at_ b).
  to_reals. f_equal; ring.
Qed.

Lemma reduce_conjugate (g g' : nat -> R * R) (l : list nat) :
  (forall i, i ∈ l -> g' i = conjugate (g i)) ->
  forall z, foldl (fun r i => cadd r (g' i)) (conjugate z) l
            = conjugate (foldl (fun r i => cadd r (g i)) z l).
Proof.
  induction l as [|i l IH]; intros Hg z; [done|].
  cbn [foldl]. rewrite Hg by left.
  replace (cadd (conjugate z) (conjugate (g i))) with (conjugate (cadd z (g i))).
  - apply IH. intros j Hj. apply Hg. by right.
  - unfold cadd, conjugate. cbn [fst snd]. to_reals. f_equal. ring.
Qed.

(** X10.  In exact arithmetic, exchanging the two states turns [InnerProduct]
    into its complex conjugate. *)
Theorem InnerProduct_conjugate (n : nat) (state1 state2 : list R) :
  length state1 = raw_size_ n -> length state2 = raw_size_ n ->
  exists z,
    InnerProduct n state1 state2 = Some z /\
    InnerProduct n state2 state1 = Some (conjugate z).
Proof.
  intros H1 H2. unfold InnerProduct. rewrite H1, H2, Nat.eqb_refl.
  cbn [negb orb]. eexists. split; [done|]. f_equal.
  destruct (raw_size_div n) as (m & Hraw & -> & _).
  unfold for_RunReduce_complex.
  assert (H0 : (@fzero R R_scalar, @fzero R R_scalar) = conjugate (0, 0)).
  { unfold conjugate. cbn [fst snd]. to_reals. f_equal. lra. }
  rewrite H0 at 1. change (@fzero R R_scalar, @fzero R R_scalar) with (0, 0).
  apply reduce_conjugate. intros i Hi%elem_of_seq.
  apply InnerProduct_f_conjugate; lia.
Qed.

Lemma snd_reduce_zero (g : nat -> R * R) (l : list nat) :
  (forall i, i ∈ l -> snd (g i) = 0) ->
  forall z, snd (foldl (fun r i => cadd r (g i)) z l) = snd z.
Proof.
  induction l as [|i l IH]; intros Hg z; [done|].
  cbn [foldl]. rewrite IH by (intros j Hj; apply Hg; by right).
  unfold cadd. cbn [snd]. rewrite Hg by left. to_reals. lra.
Qed.

Lemma InnerProduct_f_self_imag (state : list R) (k : nat) :
  (16 * k + 16 <= length state)%nat ->
  snd (InnerProduct_f k state state) = 0.
Proof.
  intros Hlen. unfold InnerProduct_f. rewrite !load_at by lia.
  cbn [map seq fst snd]. unfold _mm256_fnmadd_ps, _mm256_mul_ps.
  cbn [zip_with]. unfold HorizontalSumAVX, at_. cbn [nth]. fold (at_ state).
  to_reals. ring.
Qed.

(** X11.  In exact arithmetic the inner product of a state of the raw size
    with itself is real: it is the sum of the squared magnitudes of all
    amplitudes of the buffer. *)
Theorem InnerProduct_self (n : nat) (state : list R) :
  length state = raw_size_ n ->
  InnerProduct n state state = Some (norm_squared state, 0).
Proof.
  intros Hlen. unfold InnerProduct. rewrite Hlen, Nat.eqb_refl.
  cbn [negb orb]. f_equal.
  destruct (raw_size_blocks n) as (m & Hraw & Hm0 & Hm).
  assert (Hdiv : (raw_size_ n / 16 = m)%nat).
  { rewrite Hraw, Nat.mul_comm. apply Nat.div_mul. lia. }
  rewrite Hdiv. unfold for_RunReduce_complex. apply injective_projections.
  - rewrite fst_reduce. cbn [fst].
    rewrite <- (reduce_norm state m) by (done || lia). reflexivity.
  - rewrite snd_reduce_zero; [done|]. intros i Hi%elem_of_seq.
    apply InnerProduct_f_self_imag. lia.
Qed.

(** X12.  In exact arithmetic, with the sequential loop, the partial norms of
    a state of the raw size are one number, the sum of the squared magnitudes
    of all amplitudes of the buffer; a state of another size has none. *)
Theorem PartialNorms_norm (n : nat) (state : list R) :
  PartialNorms n state =
    if (length state =? raw_size_ n)%nat then [norm_squared state] else [].
Proof.
  unfold PartialNorms.
  destruct (Nat.eqb_spec (length state) (raw_size_ n)) as [Hlen|]; [|done].
  cbn [negb]. unfold for_RunReduceP. f_equal.
  destruct (raw_size_blocks n) as (m & Hraw & Hm0 & Hm).
  assert (Hdiv : (raw_size_ n / 16 = m)%nat).
  { rewrite Hraw, Nat.mul_comm. apply Nat.div_mul. lia. }
  rewrite Hdiv. rewrite <- (reduce_norm state m) by (done || lia).
  reflexivity.
Qed.

End Exact.

Lemma InnerProduct_conjugate_witness :
  exists z,
    InnerProduct 1 ket0R zero_state = Some z /\
    InnerProduct 1 zero_state ket0R = Some (conjugate z).
Proof.
  apply (InnerProduct_conjugate 1 ket0R zero_state); reflexivity.
Defined.

Lemma InnerProduct_self_witness :
  InnerProduct 1 ket0R ket0R = Some (norm_squared ket0R, 0%R).
Proof. apply (InnerProduct_self 1 ket0R). reflexivity. Defined.

End InnerProductFacts.

(** ** The two orders of a state *)

Module LayoutOrderFacts.

Import StateSpaceAVX Scenario LayoutFacts CollapseFacts StateOpsFacts.

Section Generic.

Context {F : Type} `{Scalar F}.

Ltac explode H :=
  apply list16 in H as (?&?&?&?&?&?&?&?&?&?&?&?&?&?&?&?&->).

Lemma i2n_block_length (b : list F) : length b = 16 -> length (i2n_block b) = 16.
Proof. intros Hb. by explode Hb. Qed.

Lemma n2i_block_length (b : list F) : length b = 16 -> length (n2i_block b) = 16.
Proof. intros Hb. by explode Hb. Qed.

Lemma i2n_block_at (b : list F) (j : nat) :
  length b = 16 -> j < 8 ->
  at_ (i2n_block b) (2 * j) = at_ b j /\
  at_ (i2n_block b) (2 * j + 1) = at_ b (8 + j).
Proof.
  intros Hb Hj. explode Hb.
  do 8 (destruct j as [|j]; [by split|]). lia.
Qed.

Lemma n2i_block_at (b : list F) (j : nat) :
  length b = 16 -> j < 8 ->
  at_ (n2i_block b) j = at_ b (2 * j) /\
  at_ (n2i_block b) (8 + j) = at_ b (2 * j + 1).
Proof.
  intros Hb Hj. explode Hb.
  do 8 (destruct j as [|j]; [by split|]). lia.
Qed.

Lemma n2i_block_inverse (b : list F) :
  length b = 16 -> length (n2i_block b) = 16 /\ i2n_block (n2i_block b) = b.
Proof. intros Hb. explode Hb. by split. Qed.

(** X13.  Up to 62 qubits, [InternalToNormalOrder] puts the real part of the
    amplitude [i] at position [2 * i] and its imaginary part at position
    [2 * i + 1], for each of the [2^N] amplitudes. *)
Theorem InternalToNormalOrder_positions (n : nat) (state : list F) :
  n < 63 -> length state = raw_size_ n ->
  exists normal,
    InternalToNormalOrder n state = (true, normal) /\
    length normal = raw_size_ n /\
    forall i, i < 2 ^ n ->
      (at_ normal (2 * i), at_ normal (2 * i + 1)) = GetAmpl state i.
Proof.
  intros Hn Hlen. unfold InternalToNormalOrder.
  rewrite Hlen, Nat.eqb_refl. cbn [negb].
  destruct (Nat.eqb_spec n 1) as [->|H1]; [|destruct (Nat.eqb_spec n 2) as [->|H2]].
  - change (raw_size_ 1) with 16 in *. explode Hlen.
    eexists. split; [done|]. split; [done|]. intros i Hi.
    do 2 (destruct i as [|i]; [reflexivity|]). simpl in Hi. lia.
  - change (raw_size_ 2) with 16 in *. explode Hlen.
    eexists. split; [done|]. split; [done|]. intros i Hi.
    do 4 (destruct i as [|i]; [reflexivity|]). simpl in Hi. lia.
  - destruct (raw_size_div n) as (m & Hraw & Hdiv & Hm). rewrite Hdiv.
    unfold for_Run.
    rewrite (for_Run_bmap (fun _ => i2n_block) m 0 state)
      by (lia || intros; by apply i2n_block_length).
    eexists. split; [done|]. split.
    { rewrite bmap_length by (lia || intros; by apply i2n_block_length). done. }
    intros i Hi.
    assert (Hi' : i < 8 * m).
    { destruct n as [|[|[|n']]]; [simpl in Hi; lia|done|done|].
      rewrite raw_size_large in Hraw by lia. lia. }
    pose proof (Nat.div_mod_eq i 8) as Hdm.
    pose proof (Nat.mod_upper_bound i 8 ltac:(lia)) as Hj.
    assert (Hk : i / 8 < m) by (apply Nat.Div0.div_lt_upper_bound; lia).
    replace (2 * i + 1) with (16 * (i / 8) + (2 * (i mod 8) + 1)) by lia.
    replace (2 * i) with (16 * (i / 8) + 2 * (i mod 8)) by lia.
    rewrite !at_bmap by (lia || intros; by apply i2n_block_length).
    destruct (i2n_block_at (take 16 (drop (16 * (i / 8)) state)) (i mod 8))
      as [-> ->]; [apply block_length; lia|done|].
    unfold GetAmpl. rewrite !at_block by lia. f_equal. f_equal. lia.
Qed.

(** X14.  Up to 62 qubits, after [NormalToInternalOrder] the amplitude [i] is
    made of the values at the positions [2 * i] and [2 * i + 1] of the state
    in normal order, for each of the [2^N] amplitudes. *)
Theorem NormalToInternalOrder_amplitudes (n : nat) (normal : list F) :
  n < 63 -> length normal = raw_size_ n ->
  exists state,
    NormalToInternalOrder n normal = (true, state) /\
    length state = raw_size_ n /\
    forall i, i < 2 ^ n ->
      GetAmpl state i = (at_ normal (2 * i), at_ normal (2 * i + 1)).
Proof.
  intros Hn Hlen. unfold NormalToInternalOrder.
  rewrite Hlen, Nat.eqb_refl. cbn [negb].
  destruct (Nat.eqb_spec n 1) as [->|H1]; [|destruct (Nat.eqb_spec n 2) as [->|H2]].
  - change (raw_size_ 1) with 16 in *. explode Hlen.
    eexists. split; [done|]. split; [done|]. intros i Hi.
    do 2 (destruct i as [|i]; [reflexivity|]). simpl in Hi. lia.
  - change (raw_size_ 2) with 16 in *. explode Hlen.
    eexists. split; [done|]. split; [done|]. intros i Hi.
    do 4 (destruct i as [|i]; [reflexivity|]). simpl in Hi. lia.
  - destruct (raw_size_div n) as (m & Hraw & Hdiv & Hm). rewrite Hdiv.
    unfold for_Run.
    rewrite (for_Run_bmap (fun _ => n2i_block) m 0 normal)
      by (lia || intros; by apply n2i_block_length).
    eexists. split; [done|]. split.
    { rewrite bmap_length by (lia || intros; by apply n2i_block_length). done. }
    intros i Hi.
    assert (Hi' : i < 8 * m).
    { destruct n as [|[|[|n']]]; [simpl in Hi; lia|done|done|].
      rewrite raw_size_large in Hraw by lia. lia. }
    pose proof (Nat.div_mod_eq i 8) as Hdm.
    pose proof (Nat.mod_upper_bound i 8 ltac:(lia)) as Hj.
    assert (Hk : i / 8 < m) by (apply Nat.Div0.div_lt_upper_bound; lia).
    rewrite GetAmpl_bmap by (lia || intros; by apply n2i_block_length).
    destruct (n2i_block_at (take 16 (drop (16 * (i / 8)) normal)) (i mod 8))
      as [-> ->]; [apply block_length; lia|done|].
    rewrite !at_block by lia. f_equal; f_equal; lia.
Qed.

(** X15.  [NormalToInternalOrder] followed by [InternalToNormalOrder] gives a
    state in normal order back, for every number of qubits, provided that for
    one and for two qubits the buffer is zero behind the [2^N] amplitudes. *)
Theorem normal_round_trip (n : nat) (normal : list F) :
  length normal = raw_size_ n ->
  (n = 1 \/ n = 2 ->
   forall k, 2 * 2 ^ n <= k < 16 -> at_ normal k = fzero) ->
  exists state,
    NormalToInternalOrder n normal = (true, state) /\
    InternalToNormalOrder n state = (true, normal).
Proof.
  intros Hlen Hpad. unfold InternalToNormalOrder, NormalToInternalOrder.
  rewrite Hlen, Nat.eqb_refl. cbn [negb].
  destruct (Nat.eqb_spec n 1) as [->|H1]; [|destruct (Nat.eqb_spec n 2) as [->|H2]].
  - change (raw_size_ 1) with 16 in *.
    specialize (Hpad (or_introl eq_refl)).
    assert (Hz : forall k, k < 12 -> at_ normal (4 + k) = fzero).
    { intros k Hk. apply Hpad. simpl. lia. }
    explode Hlen.
    pose proof (Hz 0 ltac:(lia)) as P0. pose proof (Hz 1 ltac:(lia)) as P1.
    pose proof (Hz 2 ltac:(lia)) as P2. pose proof (Hz 3 ltac:(lia)) as P3.
    pose proof (Hz 4 ltac:(lia)) as P4. pose proof (Hz 5 ltac:(lia)) as P5.
    pose proof (Hz 6 ltac:(lia)) as P6. pose proof (Hz 7 ltac:(lia)) as P7.
    pose proof (Hz 8 ltac:(lia)) as P8. pose proof (Hz 9 ltac:(lia)) as P9.
    pose proof (Hz 10 ltac:(lia)) as P10. pose proof (Hz 11 ltac:(lia)) as P11.
    clear Hz Hpad. unfold at_ in *. simpl in *. subst.
    eexists. split; reflexivity.
  - change (raw_size_ 2) with 16 in *.
    specialize (Hpad (or_intror eq_refl)).
    assert (Hz : forall k, k < 8 -> at_ normal (8 + k) = fzero).
    { intros k Hk. apply Hpad. simpl. lia. }
    explode Hlen.
    pose proof (Hz 0 ltac:(lia)) as P0. pose proof (Hz 1 ltac:(lia)) as P1.
    pose proof (Hz 2 ltac:(lia)) as P2. pose proof (Hz 3 ltac:(lia)) as P3.
    pose proof (Hz 4 ltac:(lia)) as P4. pose proof (Hz 5 ltac:(lia)) as P5.
    pose proof (Hz 6 ltac:(lia)) as P6. pose proof (Hz 7 ltac:(lia)) as P7.
    clear Hz Hpad. unfold at_ in *. simpl in *. subst.
    eexists. split; reflexivity.
  - clear Hpad. eexists. split; [reflexivity|].
    destruct (raw_size_div n) as (m & Hraw & Hdiv & Hm). rewrite Hdiv.
    unfold for_Run.
    rewrite (for_Run_bmap (fun _ => n2i_block) m 0 normal)
      by (lia || intros; by apply n2i_block_length).
    rewrite bmap_length by (lia || intros; by apply n2i_block_length).
    rewrite Hlen, Nat.eqb_refl. cbn [negb].
    rewrite (for_Run_bmap (fun _ => i2n_block) m 0).
    + by rewrite (bmap_inverse (fun _ => n2i_block) (fun _ => i2n_block))
        by (lia || intros; by apply n2i_block_inverse).
    + intros; by apply i2n_block_length.
    + rewrite bmap_length by (lia || intros; by apply n2i_block_length). lia.
Qed.

End Generic.

Lemma InternalToNormalOrder_positions_witness :
  exists normal,
    InternalToNormalOrder 1 ket0 = (true, normal) /\
    length normal = raw_size_ 1 /\
    forall i, i < 2 ^ 1 ->
      (at_ normal (2 * i), at_ normal (2 * i + 1)) = GetAmpl ket0 i.
Proof.
  apply (InternalToNormalOrder_positions 1 ket0).
  - lia.
  - reflexivity.
Defined.

Lemma NormalToInternalOrder_amplitudes_witness :
  exists state,
    NormalToInternalOrder 1 ket0 = (true, state) /\
    length state = raw_size_ 1 /\
    forall i, i < 2 ^ 1 ->
      GetAmpl state i = (at_ ket0 (2 * i), at_ ket0 (2 * i + 1)).
Proof.
  apply (NormalToInternalOrder_amplitudes 1 ket0).
  - lia.
  - reflexivity.
Defined.

Lemma normal_round_trip_witness :
  exists state,
    NormalToInternalOrder 1 ket0 = (true, state) /\
    InternalToNormalOrder 1 state = (true, ket0).
Proof.
  apply (normal_round_trip 1 ket0).
  - reflexivity.
  - intros _ k Hk. simpl in Hk.
    do 4 (destruct k as [|k]; [lia|]).
    do 12 (destruct k as [|k]; [reflexivity|]). lia.
Defined.

End LayoutOrderFacts.

(** ** The samples of [Sample] *)

Module SampleCountFacts.

Import StateSpaceAVX Times Scenario LayoutFacts CollapseFacts StateOpsFacts.

Section Generic.

Context {F : Type} `{Scalar F}.
Variable GenerateRandomValues : nat -> nat -> F -> list F.
Variable beyond : nat -> F.

(** The slots in the order of the loops are the amplitude indices in
    increasing order. *)
Lemma slots_seq (size : nat) :
  slots size = (fun i => (i / 8, i mod 8)) <$> seq 0 (8 * size).
Proof.
  unfold slots. induction size as [|size IH]; [done|].
  rewrite (seq_S size 0), bind_app, IH. cbn [Nat.add].
  replace (8 * S size) with (8 * size + 8) by lia.
  rewrite seq_app, fmap_app. f_equal.
  cbn [mbind list_bind app seq fmap list_fmap Nat.add].
  replace (S (S (S (S (S (S (S (8 * size)))))))) with (8 * size + 7) by lia.
  replace (S (S (S (S (S (S (8 * size))))))) with (8 * size + 6) by lia.
  replace (S (S (S (S (S (8 * size)))))) with (8 * size + 5) by lia.
  replace (S (S (S (S (8 * size))))) with (8 * size + 4) by lia.
  replace (S (S (S (8 * size)))) with (8 * size + 3) by lia.
  replace (S (S (8 * size))) with (8 * size + 2) by lia.
  replace (S (8 * size)) with (8 * size + 1) by lia.
  rewrite <- (Nat.add_0_r (8 * size)) at 1 2.
  rewrite !slot_div, !slot_mod by lia. reflexivity.
Qed.

(** What one run of the loop [while (rs[m] < csum && m < num_samples)]
    does: it emits the current index a number of times. *)
Lemma emit_spec (rs : list F) (num_samples : nat) (csum : F) (idx : nat) :
  forall fuel e,
    exists c,
      bitstrings (emit beyond fuel rs num_samples csum idx e)
        = bitstrings e ++ replicate c idx /\
      m_ (emit beyond fuel rs num_samples csum idx e) = m_ e + c /\
      (m_ e <= num_samples -> m_ e + c <= num_samples).
Proof.
  induction fuel as [|fuel IH]; intros e.
  - exists 0. simpl. rewrite app_nil_r. split; [done|]. split; lia.
  - simpl. destruct (fltb _ _ && (m_ e <? num_samples)) eqn:Hc.
    + apply andb_prop in Hc as [_ Hm%Nat.ltb_lt].
      destruct (IH (mkEmission (S (m_ e)) (bitstrings e ++ [idx])
                      (rs_reads e ++ [m_ e]))) as (c & Hb & Hm' & Hle).
      exists (S c). rewrite Hb, Hm'. simpl. rewrite <- app_assoc. simpl.
      split; [done|]. split; [lia|]. simpl in Hle. lia.
    + exists 0. simpl. rewrite app_nil_r. split; [done|]. split; lia.
Qed.

Lemma nondecreasing_snoc (l : list nat) (c t : nat) :
  nondecreasing l -> Forall (fun b => b < t) l ->
  nondecreasing (l ++ replicate c t) /\
  Forall (fun b => b < S t) (l ++ replicate c t).
Proof.
  intros Hl Hlt. split.
  - intros i j x y Hij Hx Hy.
    apply lookup_app_Some in Hx as [Hx|[Hi Hx]],
          Hy as [Hy|[Hj Hy]].
    + by eapply Hl.
    + apply lookup_replicate in Hy as [-> _].
      rewrite Forall_forall in Hlt.
      specialize (Hlt x (list_elem_of_lookup_2 _ _ _ Hx)). lia.
    + apply lookup_lt_Some in Hy. lia.
    + apply lookup_replicate in Hx as [-> _], Hy as [-> _]. done.
  - apply Forall_app. split.
    + eapply Forall_impl; [done|]. simpl. lia.
    + apply Forall_forall. intros b Hb%elem_of_replicate. lia.
Qed.

(** The state of the loops of [Sample] after the slots below [t]. *)
Definition scan (state rs : list F) (num_samples t : nat) : F * Emission :=
  foldl (fun '(csum, e) kj =>
           let csum := fadd csum (slot_norm state kj) in
           (csum, emit beyond (S num_samples) rs num_samples csum
                    (8 * fst kj + snd kj) e))
        (fzero, mkEmission 0 [] [])
        ((fun i => (i / 8, i mod 8)) <$> seq 0 t).

Lemma scan_S (state rs : list F) (num_samples t : nat) :
  scan state rs num_samples (S t)
  = let '(csum, e) := scan state rs num_samples t in
    let csum := fadd csum (slot_norm state (t / 8, t mod 8)) in
    (csum, emit beyond (S num_samples) rs num_samples csum t e).
Proof.
  unfold scan. rewrite seq_S, fmap_app, foldl_app. cbn [Nat.add fmap list_fmap foldl].
  destruct (foldl _ _ _) as [csum e]. cbn [fst snd].
  pose proof (Nat.div_mod_eq t 8) as Ht. by rewrite <- Ht.
Qed.

Lemma scan_samples (state rs : list F) (num_samples t : nat) :
  let e := snd (scan state rs num_samples t) in
  m_ e = length (bitstrings e) /\ m_ e <= num_samples /\
  nondecreasing (bitstrings e) /\ Forall (fun b => b < t) (bitstrings e).
Proof.
  induction t as [|t IH].
  - simpl. split; [done|]. split; [lia|]. split; [|done].
    intros i j x y _ Hx. done.
  - rewrite scan_S. destruct (scan state rs num_samples t) as [csum e].
    cbn [snd] in *. destruct IH as (Hm & Hle & Hs & Hlt).
    destruct (emit_spec rs num_samples
                (fadd csum (slot_norm state (t / 8, t mod 8))) t
                (S num_samples) e) as (c & -> & -> & Hc).
    destruct (nondecreasing_snoc (bitstrings e) c t Hs Hlt) as [Hs' Hlt'].
    rewrite length_app, length_replicate.
    split; [lia|]. split; [by apply Hc|]. done.
Qed.

Lemma Sample_scan (num_qubits : nat) (state : list F) (num_samples seed : nat) :
  length state = raw_size_ num_qubits -> 0 < num_samples ->
  Sample GenerateRandomValues beyond num_qubits state num_samples seed
  = let norm := foldl (fun norm kj => fadd norm (slot_norm state kj)) fzero
                  (slots (raw_size_ num_qubits / 16)) in
    let e := snd (scan state (GenerateRandomValues num_samples seed norm)
                    num_samples (8 * (raw_size_ num_qubits / 16))) in
    (bitstrings e, rs_reads e).
Proof.
  intros Hlen Hns. unfold Sample. rewrite Hlen, Nat.eqb_refl.
  destruct (Nat.ltb_spec 0 num_samples); [|lia]. cbn [andb].
  cbn zeta. unfold scan. rewrite <- slots_seq.
  by destruct (foldl _ (fzero, _) _).
Qed.

(** X16.  [Sample] returns at most [num_samples] samples; they never decrease
    along the list, and each is the index of an amplitude of the buffer. *)
Theorem Sample_samples (num_qubits : nat) (state : list F)
    (num_samples seed : nat) :
  let samples :=
    fst (Sample GenerateRandomValues beyond num_qubits state num_samples seed) in
  length samples <= num_samples /\
  nondecreasing samples /\
  Forall (fun b => b < raw_size_ num_qubits / 2) samples.
Proof.
  destruct (decide (length state = raw_size_ num_qubits /\ 0 < num_samples))
    as [[Hlen Hns]|Hno].
  - rewrite Sample_scan by done. cbn zeta. cbn [fst].
    set (norm := foldl _ fzero _).
    destruct (scan_samples state (GenerateRandomValues num_samples seed norm)
                num_samples (8 * (raw_size_ num_qubits / 16)))
      as (Hm & Hle & Hs & Hlt).
    split; [lia|]. split; [done|].
    destruct (raw_size_div num_qubits) as (m & Hraw & Hdiv & _).
    rewrite Hdiv in Hlt |- *. rewrite Hraw.
    replace (16 * m) with ((8 * m) * 2) by lia. rewrite Nat.div_mul by lia. done.
  - assert (Hs : Sample GenerateRandomValues beyond num_qubits state
                   num_samples seed = ([], [])).
    { unfold Sample.
      destruct (Nat.eqb_spec (length state) (raw_size_ num_qubits));
        destruct (Nat.ltb_spec 0 num_samples); cbn [andb]; try done.
      exfalso. by apply Hno. }
    rewrite Hs. cbn [fst length]. split; [lia|]. split; [|done].
    intros i j x y _ Hx. done.
Qed.

Lemma emit_all (rs : list F) (num_samples : nat) (csum : F) (idx : nat) :
  (forall m, m < num_samples -> fltb (rs_at beyond rs m) csum = true) ->
  forall fuel e,
    m_ e <= num_samples -> num_samples - m_ e < fuel ->
    m_ (emit beyond fuel rs num_samples csum idx e) = num_samples.
Proof.
  intros Hrs. induction fuel as [|fuel IH]; intros e Hm Hf; [lia|].
  simpl. destruct (Nat.ltb_spec (m_ e) num_samples) as [Hlt|Hge].
  - rewrite Hrs by done. cbn [andb]. apply IH; simpl; lia.
  - rewrite andb_false_r. simpl. lia.
Qed.

Lemma scan_csum (state rs : list F) (num_samples t : nat) :
  fst (scan state rs num_samples t)
  = foldl (fun norm kj => fadd norm (slot_norm state kj)) fzero
      ((fun i => (i / 8, i mod 8)) <$> seq 0 t).
Proof.
  induction t as [|t IH]; [done|].
  rewrite scan_S. destruct (scan state rs num_samples t) as [csum e].
  cbn [fst] in *. rewrite seq_S, fmap_app, foldl_app. cbn [Nat.add].
  by rewrite <- IH.
Qed.

(** X17.  When each of the [num_samples] draws is below the norm that [Sample]
    has computed, [Sample] returns exactly [num_samples] samples: the running
    sum ends at that very norm, so the last slot emits all samples that are
    left. *)
Theorem Sample_all_samples (num_qubits : nat) (state : list F)
    (num_samples seed : nat) :
  length state = raw_size_ num_qubits -> 0 < num_samples ->
  let norm := foldl (fun norm kj => fadd norm (slot_norm state kj)) fzero
                (slots (raw_size_ num_qubits / 16)) in
  (forall m, m < num_samples ->
     exists r, GenerateRandomValues num_samples seed norm !! m = Some r /\
               fltb r norm = true) ->
  length (fst (Sample GenerateRandomValues beyond num_qubits state
                 num_samples seed)) = num_samples.
Proof.
  intros Hlen Hns norm Hrs. rewrite Sample_scan by done. cbn zeta. fold norm.
  cbn [fst]. set (rs := GenerateRandomValues num_samples seed norm) in *.
  destruct (raw_size_div num_qubits) as (m & Hraw & Hdiv & Hm).
  assert (Hnorm : norm = fst (scan state rs num_samples (8 * m))).
  { rewrite scan_csum. unfold norm. by rewrite Hdiv, slots_seq. }
  rewrite Hdiv.
  destruct (scan_samples state rs num_samples (8 * m)) as (Hlength & _).
  rewrite <- Hlength.
  assert (Ht : 8 * m = S (8 * m - 1)) by lia.
  rewrite Ht in Hnorm |- *. rewrite scan_S in Hnorm |- *.
  destruct (scan_samples state rs num_samples (8 * m - 1)) as (_ & Hle & _).
  destruct (scan state rs num_samples (8 * m - 1)) as [csum e].
  cbn [fst snd] in *. rewrite <- Hnorm.
  apply emit_all; [|done|lia].
  intros k Hk. destruct (Hrs k Hk) as (r & Hr & Hlt).
  unfold rs_at. by rewrite Hr.
Qed.

End Generic.

Lemma Sample_all_samples_witness :
  length (fst (Sample spread_values (fun _ => 0%Q) 1 ket0 3 7)) = 3.
Proof.
  apply (Sample_all_samples spread_values (fun _ => 0%Q) 1 ket0 3 7).
  - reflexivity.
  - lia.
  - intros m Hm.
    do 3 (destruct m as [|m]; [eexists; split; reflexivity|]). lia.
Defined.

Lemma Sample_last_read_witness :
  let r := Sample spread_values (fun _ => 0%Q) 1 ket0 3 7 in
  last (snd r) = Some (length (fst r)).
Proof.
  apply (SampleFacts.Sample_last_read spread_values (fun _ => 0%Q) 1 ket0 3 7).
  - reflexivity.
  - lia.
Defined.

End SampleCountFacts.

(** ** [FindMeasuredBits] *)

Module FindMeasuredBitsFacts.

Import StateSpaceAVX Sums Scenario.

Section Generic.

Context {F : Type} `{Scalar F}.
Variable GetIndex0 GetIndex1 : nat -> nat -> nat.

Lemma cumulative_cons p csum k j l :
  cumulative p csum ((k, j) :: l)
  = cumulative p (fadd csum (fadd (fmul (at_ p (16 * k + j)) (at_ p (16 * k + j)))
                               (fmul (at_ p (16 * k + j + 8)) (at_ p (16 * k + j + 8))))) l.
Proof. done. Qed.

(** The loops return at the first slot behind which the running sum is above
    [r], and run to their end when there is none. *)
Lemma find_bits_spec (r : F) (mask : Z) (p : list F) (todo : list (nat * nat)) :
  forall csum,
    (find_bits r mask p csum todo = u64 (-1) /\
     forall pre x post, todo = pre ++ x :: post ->
       fltb r (cumulative p csum (pre ++ [x])) = false)
    \/
    (exists pre k j post,
       todo = pre ++ (k, j) :: post /\
       find_bits r mask p csum todo = Z.land (Z.of_nat (8 * k + j)) mask /\
       fltb r (cumulative p csum (pre ++ [(k, j)])) = true /\
       forall pre' x post', pre = pre' ++ x :: post' ->
         fltb r (cumulative p csum (pre' ++ [x])) = false).
Proof.
  induction todo as [|[k j] todo IH]; intros csum.
  - left. split; [done|]. intros pre x post Hx. by destruct pre.
  - cbn [find_bits]. cbn zeta.
    set (csum' := fadd csum _).
    destruct (fltb r csum') eqn:Hlt.
    + right. exists [], k, j, todo. split; [done|]. split; [done|].
      split; [done|]. intros pre' x post' Hx. by destruct pre'.
    + destruct (IH csum') as [[Hres Hall]|(pre & k' & j' & post & -> & Hres & Hlt' & Hall)].
      * left. split; [done|]. intros pre x post Hx.
        destruct pre as [|y pre]; simpl in Hx; injection Hx as <- Hx;
          [exact Hlt|].
        rewrite <- app_comm_cons, cumulative_cons. by eapply Hall.
      * right. exists ((k, j) :: pre), k', j', post.
        split; [done|]. split; [done|]. split.
        { by rewrite <- app_comm_cons, cumulative_cons. }
        intros pre' x post' Hx.
        destruct pre' as [|y pre']; simpl in Hx; injection Hx as <- Hx;
          [exact Hlt|].
        rewrite <- app_comm_cons, cumulative_cons. by eapply Hall.
Qed.

(** X19.  On a state of the raw size [FindMeasuredBits] returns the index,
    restricted to [mask], of the first amplitude of the slice of worker [m]
    behind which the running sum of the squared magnitudes is above [r]; when
    the running sum stays at or below [r] over the whole slice, it returns
    [-1]. *)
Theorem FindMeasuredBits_first_crossing (n m : nat) (r : F) (mask : Z)
    (state : list F) :
  length state = raw_size_ n ->
  GetIndex1 (raw_size_ n / 16) m <= raw_size_ n / 16 ->
  let k0 := GetIndex0 (raw_size_ n / 16) m in
  let k1 := GetIndex1 (raw_size_ n / 16) m in
  let slice := k ← seq k0 (k1 - k0); j ← seq 0 8; [(k, j)] in
  let result := FindMeasuredBits GetIndex0 GetIndex1 n m r mask state in
  (result = (2 ^ 64 - 1)%Z /\
   forall pre x post, slice = pre ++ x :: post ->
     fltb r (cumulative state fzero (pre ++ [x])) = false)
  \/
  (exists pre k j post,
     slice = pre ++ (k, j) :: post /\
     result = Z.land (Z.of_nat (8 * k + j)) mask /\
     fltb r (cumulative state fzero (pre ++ [(k, j)])) = true /\
     forall pre' x post', pre = pre' ++ x :: post' ->
       fltb r (cumulative state fzero (pre' ++ [x])) = false).
Proof.
  intros Hlen _ k0 k1 slice result. subst result. unfold FindMeasuredBits.
  rewrite Hlen, Nat.eqb_refl. cbn [negb]. fold k0 k1. fold slice.
  apply find_bits_spec.
Qed.

Lemma find_bits_masked (r : F) (mask : Z) (p : list F) (todo : list (nat * nat)) :
  forall csum,
    find_bits r mask p csum todo = u64 (-1) \/
    exists idx : nat, find_bits r mask p csum todo = Z.land (Z.of_nat idx) mask.
Proof.
  induction todo as [|[k j] todo IH]; intros csum; [by left|].
  cbn [find_bits]. cbn zeta. destruct (fltb r _); [|apply IH].
  right. by eexists.
Qed.

(** X20.  What [FindMeasuredBits] returns is [-1], or it has no bit outside
    [mask]. *)
Theorem FindMeasuredBits_within_mask (n m : nat) (r : F) (mask : Z)
    (state : list F) :
  let result := FindMeasuredBits GetIndex0 GetIndex1 n m r mask state in
  result = (2 ^ 64 - 1)%Z \/ Z.land result mask = result.
Proof.
  cbn zeta. unfold FindMeasuredBits.
  destruct (negb _); [by left|].
  match goal with |- context [find_bits r mask state fzero ?l] =>
    destruct (find_bits_masked r mask state l fzero) as [->|[idx ->]] end.
  - by left.
  - right. by rewrite <- Z.land_assoc, Z.land_diag.
Qed.

End Generic.

Lemma FindMeasuredBits_first_crossing_witness :
  let k0 := whole_0 (raw_size_ 1 / 16) 0 in
  let k1 := whole_1 (raw_size_ 1 / 16) 0 in
  let slice := k ← seq k0 (k1 - k0); j ← seq 0 8; [(k, j)] in
  let result := FindMeasuredBits whole_0 whole_1 1 0 (1 # 2)%Q 1 ket0 in
  (result = (2 ^ 64 - 1)%Z /\
   forall pre x post, slice = pre ++ x :: post ->
     fltb (1 # 2)%Q (cumulative ket0 fzero (pre ++ [x])) = false)
  \/
  (exists pre k j post,
     slice = pre ++ (k, j) :: post /\
     result = Z.land (Z.of_nat (8 * k + j)) 1 /\
     fltb (1 # 2)%Q (cumulative ket0 fzero (pre ++ [(k, j)])) = true /\
     forall pre' x post', pre = pre' ++ x :: post' ->
       fltb (1 # 2)%Q (cumulative ket0 fzero (pre' ++ [x])) = false).
Proof.
  apply (FindMeasuredBits_first_crossing whole_0 whole_1 1 0 (1 # 2)%Q 1%Z ket0).
  - reflexivity.
  - unfold whole_1. lia.
Defined.

End FindMeasuredBitsFacts.
